(** * ProjectQ C++ simulator (simulator.hpp): a shallow embedding

    The state-vector engine of [class Simulator] is modelled as a state and
    exception monad over a record holding [N_], [vec_] and [map_].
    Doubles are modelled by exact reals, [std::complex<double>] by pairs of
    reals, [std::size_t] values by [N] (with their 64-bit wrap-around written
    out where the code relies on it), and [std::map<unsigned, unsigned>] by
    stdpp's [gmap nat nat].  [map_[id]] on a missing key inserts [id] with
    value [0], as [std::map::operator[]] does. *)

From Stdlib Require Import Reals Lra Lia NArith ZArith String.
From stdpp Require Import base list gmap.

(** ** Amplitudes *)

Record complex_type := mkC { re : R; im : R }.

Definition czero : complex_type := mkC 0%R 0%R.

(** [std::norm]: the squared modulus. *)
Definition cnorm (c : complex_type) : R := (re c * re c + im c * im c)%R.

(** [c *= x] for a real [x]. *)
Definition cscale (c : complex_type) (x : R) : complex_type :=
  mkC (re c * x)%R (im c * x)%R.

(** [a > b] on doubles, as a boolean. *)
Definition gtb (a b : R) : bool := if Rlt_dec b a then true else false.

(** [a < b] on doubles, as a boolean. *)
Definition ltb (a b : R) : bool := if Rlt_dec a b then true else false.

(** [static constexpr auto default_tol_ = 1.e-12;] *)
Definition default_tol_ : R := (1 / 1000000000000)%R.

(** ** Engine state and the monad of its member functions *)

Record Simulator := mkSim {
  N_ : nat;                        (** #qubits *)
  vec_ : list complex_type;        (** the wavefunction *)
  map_ : gmap nat nat              (** qubit id -> bit position *)
}.

(** The exceptions thrown by the engine. *)
Inductive exn :=
| runtime_error (what : string)
| length_error (what : string).

(** A member function returns a value and the object it leaves behind, or
    throws, leaving the object as it was at the [throw]. *)
Inductive outcome (A : Type) :=
| Ret (a : A) (s : Simulator)
| Throw (e : exn) (s : Simulator).
Arguments Ret {A} a s.
Arguments Throw {A} e s.

Definition SimM (A : Type) : Type := Simulator -> outcome A.

Definition sret {A} (a : A) : SimM A := fun s => Ret a s.

Definition sbind {A B} (m : SimM A) (k : A -> SimM B) : SimM B :=
  fun s => match m s with
           | Ret a s' => k a s'
           | Throw e s' => Throw e s'
           end.

Definition sthrow {A} (e : exn) : SimM A := fun s => Throw e s.

Definition sget : SimM Simulator := fun s => Ret s s.

Definition sput (s : Simulator) : SimM unit := fun _ => Ret tt s.

Declare Scope sim_scope.
Delimit Scope sim_scope with sim.
Notation "'let*' x := m 'in' k" := (sbind m (fun x => k))
  (at level 200, x name, m at level 100, k at level 200) : sim_scope.
Open Scope sim_scope.

Definition set_vec (v : list complex_type) (s : Simulator) : Simulator :=
  mkSim (N_ s) v (map_ s).

Definition set_map (m : gmap nat nat) (s : Simulator) : Simulator :=
  mkSim (N_ s) (vec_ s) m.

(** [map_[id]]: a read that inserts [id |-> 0] when [id] is missing. *)
Definition map_at (id : nat) : SimM nat :=
  fun s => match map_ s !! id with
           | Some p => Ret p s
           | None => Ret 0 (set_map (<[id := 0]> (map_ s)) s)
           end.

(** [vec_[i]] (read); the default is never used in range. *)
Definition vat (v : list complex_type) (i : nat) : complex_type := nth i v czero.

(** ** allocate_qubit *)

(** [newvec.resize(1UL << N_); newvec[i] = (i < vec_.size()) ? vec_[i] : 0.;] *)
Definition grow (v : list complex_type) (n : nat) : list complex_type :=
  map (fun i => if i <? length v then vat v i else czero) (seq 0 n).

Definition allocate_qubit (id : nat) : SimM unit :=
  fun s =>
    match map_ s !! id with
    | None =>
        (* map_[id] = N_++; *)
        let m := <[id := N_ s]> (map_ s) in
        let n := S (N_ s) in
        Ret tt (mkSim n (grow (vec_ s) (2 ^ n)) m)
    | Some _ =>
        Throw (runtime_error
          "AllocateQubit: ID already exists. Qubit IDs should be unique.")%string s
    end.

(** ** Strided loops over a qubit's two halves *)

(** The values taken by [i] in
    [for (std::size_t i = 0; i < size; i += step)]; [fuel] bounds the number
    of iterations ([size] is always enough since [step >= 1]). *)
Fixpoint strides (fuel i step size : nat) : list nat :=
  match fuel with
  | 0 => []
  | S f => if i <? size then i :: strides f (i + step) step size else []
  end.

(** [for (i = 0; i < size; i += 2UL * delta)] *)
Definition outer_loop (size delta : nat) : list nat :=
  strides size 0 (2 * delta) size.

(** The iterations [(i, j)] of
    [for (i = 0; i < size; i += 2UL * delta) for (j = 0; j < delta; ++j)],
    in execution order. *)
Definition loop2 (size delta : nat) : list (nat * nat) :=
  flat_map (fun i => map (fun j => (i, j)) (seq 0 delta)) (outer_loop size delta).

(** ** is_classical *)

(** The [up] / [down] reduction of [is_classical]. *)
Definition is_classical_loop (v : list complex_type) (delta : nat) (tol : R)
    : bool * bool :=
  fold_left
    (fun (ud : bool * bool) (ij : nat * nat) =>
       let '(up, down) := ud in
       let '(i, j) := ij in
       (orb up (gtb (cnorm (vat v (i + j))) tol),
        orb down (gtb (cnorm (vat v (i + j + delta))) tol)))
    (loop2 (length v) delta) (false, false).

Definition is_classical (id : nat) (tol : R) : SimM bool :=
  let* pos := map_at id in
  let* s := sget in
  let '(up, down) := is_classical_loop (vec_ s) (2 ^ pos) tol in
  sret (xorb up down).

(** ** get_classical_value *)

(** The scan of [get_classical_value], with its early [return]s. *)
Fixpoint classical_scan (v : list complex_type) (delta : nat) (tol : R)
    (its : list (nat * nat)) : option bool :=
  match its with
  | [] => None
  | (i, j) :: its' =>
      if gtb (cnorm (vat v (i + j))) tol then Some false
      else if gtb (cnorm (vat v (i + j + delta))) tol then Some true
      else classical_scan v delta tol its'
  end.

Definition get_classical_value (id : nat) (tol : R) : SimM bool :=
  let* pos := map_at id in
  let* s := sget in
  match classical_scan (vec_ s) (2 ^ pos) tol (loop2 (length (vec_ s)) (2 ^ pos)) with
  | Some b => sret b
  | None => sthrow (runtime_error
      "Get classical value: internal error, should not have come here...")%string
  end.

(** ** collapse_vector *)

(** [std::copy_n(&src[from], n, &dst[at])] *)
Definition copy_n (src : list complex_type) (from n at_ : nat)
    (dst : list complex_type) : list complex_type :=
  fold_left (fun d t => <[at_ + t := vat src (from + t)]> d) (seq 0 n) dst.

(** [for (auto& p : map_) if (p.second > pos) p.second--;] *)
Definition shift_down (pos : nat) (m : gmap nat nat) : gmap nat nat :=
  (fun p => if pos <? p then p - 1 else p) <$> m.

Definition collapse_vector (id : nat) (value shrink : bool) : SimM unit :=
  let* pos := map_at id in
  let* s := sget in
  let delta := 2 ^ pos in
  if negb shrink then
    (* vec_[i + j + static_cast<std::size_t>(!value) * delta] = 0.; *)
    sput (set_vec
      (fold_left
         (fun v (ij : nat * nat) =>
            let '(i, j) := ij in <[i + j + Nat.b2n (negb value) * delta := czero]> v)
         (loop2 (length (vec_ s)) delta) (vec_ s)) s)
  else
    (* newvec.resize(1UL << (N_ - 1UL)); its old contents are all overwritten *)
    let newvec0 := repeat czero (2 ^ (N_ s - 1)) in
    let newvec :=
      fold_left
        (fun nv i => copy_n (vec_ s) (i + Nat.b2n value * delta) delta (i / 2) nv)
        (outer_loop (length (vec_ s)) delta) newvec0 in
    sput (mkSim (N_ s - 1) newvec (delete id (shift_down pos (map_ s)))).

(** ** deallocate_qubit *)

Definition deallocate_qubit (id : nat) : SimM unit :=
  let* s := sget in
  match map_ s !! id with
  | None => sthrow (runtime_error "DeallocateQubit: Qubit IDs is not known!")%string
  | Some _ =>
      let* c := is_classical id default_tol_ in
      if negb c then
        sthrow (runtime_error
          "Error: Qubit has not been measured / uncomputed! There is most likely a bug in your code.")%string
      else
        let* value := get_classical_value id default_tol_ in
        collapse_vector id value true
  end.

(** ** std::size_t arithmetic and bit operations *)

Definition size_t_mod : N := (2 ^ 64)%N.

(** [x--] on a [std::size_t]: wraps around at [0]. *)
Definition size_t_dec (x : N) : N := ((x + size_t_mod - 1) mod size_t_mod)%N.

(** [((x >> p) & 1) == 1] *)
Definition bit_at (x : N) (p : nat) : bool :=
  N.eqb (N.land (N.shiftr x (N.of_nat p)) 1) 1.

(** [(i & mask) == val] for the loop index [i]. *)
Definition matches (i : nat) (mask val : N) : bool :=
  N.eqb (N.land (N.of_nat i) mask) val.

(** The reduction [N += std::norm(vec_[i])] over the indices [i] with
    [(i & mask) == val]. *)
Definition masked_norm (v : list complex_type) (mask val : N) : R :=
  fold_left (fun acc i => if matches i mask val then (acc + cnorm (vat v i))%R else acc)
    (seq 0 (length v)) 0%R.

(** ** measure_qubits *)

(** [positions[i] = map_[ids[i]];] (each read may insert a missing id). *)
Fixpoint positions_of (ids : list nat) : SimM (list nat) :=
  match ids with
  | [] => sret []
  | id :: ids' =>
      let* p := map_at id in
      let* ps := positions_of ids' in
      sret (p :: ps)
  end.

(** [while (P < rnd && pick < vec_.size()) P += std::norm(vec_[pick++]);]
    The loop runs at most [vec_.size()] times, which bounds [fuel]. *)
Fixpoint pick_scan (v : list complex_type) (rnd : R) (fuel : nat) (P : R) (pick : nat) : nat :=
  match fuel with
  | 0 => pick
  | S f =>
      if ltb P rnd && (pick <? length v)
      then pick_scan v rnd f (P + cnorm (vat v pick))%R (S pick)
      else pick
  end.

(** One iteration of the loop building [res], [mask] and [val]:
    [bool r = ((pick >> positions[i]) & 1) == 1; res[i] = r;
     mask |= (1UL << positions[i]); val |= (r << positions[i]);] *)
Definition decode_step (pick : N) (acc : list bool * N * N) (p : nat) : list bool * N * N :=
  let '(res, mask, val) := acc in
  let r := bit_at pick p in
  (res ++ [r], N.lor mask (N.shiftl 1 (N.of_nat p)),
   N.lor val (N.shiftl (N.b2n r) (N.of_nat p))).

Definition decode_loop (pick : N) (ps : list nat) : list bool * N * N :=
  fold_left (decode_step pick) ps ([], 0%N, 0%N).

(** The loop [if ((i & mask) != val) vec_[i] = 0.;] *)
Definition zero_bad (v : list complex_type) (mask val : N) : list complex_type :=
  map (fun i => if matches i mask val then vat v i else czero) (seq 0 (length v)).

(** [measure_qubits(ids, res)] where [rnd] is the value drawn by [rng_()]. *)
Definition measure_qubits (ids : list nat) (rnd : R) : SimM (list bool) :=
  let* ps := positions_of ids in
  let* s := sget in
  let v := vec_ s in
  let pick := size_t_dec (N.of_nat (pick_scan v rnd (length v) 0%R 0)) in
  let '(res, mask, val) := decode_loop pick ps in
  let n := masked_norm v mask val in
  (* [N = 1. / std::sqrt(N)]: when the kept norm is [0] the code gets
     [+inf] and leaves NaN amplitudes, while [1 / sqrt 0] is [0] here; no
     statement below relies on the vector left in that case. *)
  let scale := (1 / sqrt n)%R in
  let* _ := sput (set_vec (map (fun a => cscale a scale) (zero_bad v mask val)) s) in
  sret res.

(** ** check_ids *)

(** [std::all_of(ids, [map](id) { return map.count(id) != 0UL; })] *)
Definition check_ids (m : gmap nat nat) (ids : list nat) : bool :=
  forallb (fun id => match m !! id with Some _ => true | None => false end) ids.

(** ** collapse_wavefunction *)

(** [for (i...) { mask |= (1UL << map_[ids[i]]);
                  val |= ((values[i] ? 1UL : 0UL) << map_[ids[i]]); }] *)
Fixpoint mask_val (ids : list nat) (values : list bool) (mask val : N) : SimM (N * N) :=
  match ids, values with
  | id :: ids', b :: values' =>
      let* p := map_at id in
      mask_val ids' values' (N.lor mask (N.shiftl 1 (N.of_nat p)))
        (N.lor val (N.shiftl (N.b2n b) (N.of_nat p)))
  | _, _ => sret (mask, val)
  end.

(** The loop [if ((i & mask) != val) vec_[i] = 0.; else vec_[i] *= N;] *)
Definition project_scale (v : list complex_type) (mask val : N) (scale : R)
    : list complex_type :=
  map (fun i => if negb (matches i mask val) then czero else cscale (vat v i) scale)
    (seq 0 (length v)).

Definition collapse_wavefunction (ids : list nat) (values : list bool) : SimM unit :=
  let* s := sget in
  if negb (length ids =? length values) then
    sthrow (length_error "collapse_wavefunction(): ids and values size mismatch")%string
  else if negb (check_ids (map_ s) ids) then
    sthrow (runtime_error
      "collapse_wavefunction(): Unknown qubit id(s) provided. Try calling eng.flush() before invoking this function.")%string
  else
    let* mv := mask_val ids values 0%N 0%N in
    let '(mask, val) := mv in
    let* s := sget in
    let n := masked_norm (vec_ s) mask val in
    if ltb n default_tol_ then
      sthrow (runtime_error
        "collapse_wavefunction(): Invalid collapse! Probability is ~0.")%string
    else
      sput (set_vec (project_scale (vec_ s) mask val (1 / sqrt n)) s).

(** ** get_amplitude *)

(** The loop of [get_amplitude], with its [break] on an unknown id;
    [i] is the loop index into [bit_string]. *)
Fixpoint amplitude_loop (m : gmap nat nat) (bits : list bool) (i : nat)
    (ids : list nat) (chk index : N) : N * N :=
  match ids with
  | [] => (chk, index)
  | id :: ids' =>
      match m !! id with
      | None => (chk, index)
      | Some p =>
          amplitude_loop m bits (S i) ids'
            (N.lor chk (N.shiftl 1 (N.of_nat p)))
            (N.lor index (N.shiftl (if nth i bits false then 1 else 0) (N.of_nat p)))
      end
  end.

Definition get_amplitude (bits : list bool) (ids : list nat) : SimM complex_type :=
  let* s := sget in
  let '(chk, index) := amplitude_loop (map_ s) bits 0 ids 0%N 0%N in
  (* chk + 1UL != vec_.size() *)
  if negb (N.eqb ((chk + 1) mod size_t_mod) (N.of_nat (length (vec_ s)))) then
    sthrow (runtime_error
      "The second argument to get_amplitude() must be a permutation of all allocated qubits. Please make sure you have called eng.flush().")%string
  else sret (vat (vec_ s) (N.to_nat index)).

(** ** set_wavefunction *)

Definition set_wavefunction (wavefunction : list complex_type) (ordering : list nat)
    : SimM unit :=
  let* s := sget in
  if negb (length wavefunction =? 2 ^ length ordering) then
    sthrow (runtime_error
      "set_wavefunction: size mismatch between wavefunction and ordering!")%string
  else if negb (map_size (map_ s) =? length ordering) || negb (check_ids (map_ s) ordering) then
    sthrow (runtime_error
      "set_wavefunction(): Invalid mapping provided. Please make sure all qubits have been allocated previously (call eng.flush()).")%string
  else
    (* map_[ordering[i]] = i; *)
    let m := fold_left (fun m i => <[nth i ordering 0 := i]> m)
               (seq 0 (length ordering)) (map_ s) in
    (* vec_[i] = wavefunction[i]; *)
    let v := fold_left (fun v i => <[i := vat wavefunction i]> v)
               (seq 0 (length wavefunction)) (vec_ s) in
    sput (mkSim (N_ s) v m).

(** ** apply_controlled_gate: the fusion scheduler *)

Module Fusion.

(** [fused_gates.num_qubits() - ids.size()]: an [unsigned] minus a
    [std::size_t], computed in 64-bit unsigned arithmetic. *)
Definition size_t_sub (a b : nat) : N :=
  ((N.of_nat a + size_t_mod - N.of_nat b) mod size_t_mod)%N.

Section Scheduler.
(** The fusion buffer ([fusion::Fusion]) with its [insert] and
    [num_qubits], the wavefunction, and the flush of a composite into it;
    [fusion_qubits_min_] and [fusion_qubits_max_] are [qmin] and [qmax]. *)
Context {Matrix Buffer Wave : Type}.
Context (insert : Buffer -> Matrix -> list nat -> list nat -> Buffer).
Context (num_qubits : Buffer -> nat).
Context (empty : Buffer).
Context (apply_fused : Buffer -> Wave -> Wave).

Record Sched := mkSched { fused_gates_ : Buffer; wave : Wave }.

(** Modelled from the spec: [Simulator::run()] (its definition is not in
    src/): it applies the pending composite to the wavefunction and
    leaves the buffer empty. *)
Definition run (s : Sched) : Sched :=
  mkSched empty (apply_fused (fused_gates_ s) (wave s)).

Definition apply_controlled_gate (qmin qmax : nat) (m : Matrix) (ids ctrl : list nat)
    (s : Sched) : Sched :=
  (* auto fused_gates = fused_gates_; fused_gates.insert(m, ids, ctrl); *)
  let fused_gates := insert (fused_gates_ s) m ids ctrl in
  if (qmin <=? num_qubits fused_gates) && (num_qubits fused_gates <=? qmax) then
    run (mkSched fused_gates (wave s))
  else if (qmax <? num_qubits fused_gates)
          || (N.of_nat (num_qubits (fused_gates_ s)) <? size_t_sub (num_qubits fused_gates) (length ids))%N
  then
    let s1 := run s in
    mkSched (insert (fused_gates_ s1) m ids ctrl) (wave s1)
  else mkSched fused_gates (wave s).
End Scheduler.

(** Modelled from the spec: the buffer of [fusion.hpp] (not in src/), a
    list of pending (matrix, target ids, control ids) triples in insertion
    order. *)
Record gate := mkGate { gmatrix : list (list complex_type); gids : list nat; gctrl : list nat }.

Definition buffer := list gate.

(** Modelled from the spec: [insert(m, ids, ctrl)] extends the composite. *)
Definition buffer_insert (F : buffer) (m : list (list complex_type)) (ids ctrl : list nat)
    : buffer :=
  F ++ [mkGate m ids ctrl].

(** Modelled from the spec: [num_qubits()] counts the distinct target
    qubits of the composite. *)
Definition buffer_num_qubits (F : buffer) : nat :=
  length (nodup Nat.eq_dec (flat_map gids F)).

(** The wavefunction seen through the flushes: the composites applied to it
    so far, in order ([run] on an empty buffer applies nothing). *)
Definition flush_log (F : buffer) (log : list buffer) : list buffer :=
  match F with [] => log | _ => log ++ [F] end.

End Fusion.

(** ** get_probability *)

(** The loop of [get_probability]:
    [mask |= 1UL << map_[ids[i]];
     bit_str |= (bit_string[i] ? 1UL : 0UL) << map_[ids[i]];]
    Both reads of [map_[ids[i]]] give the same position (the first inserts
    a missing id, the second then finds it); [i] indexes [bit_string], and
    an index past its end (undefined behaviour in the code) reads [false]. *)
Fixpoint probability_loop (bits : list bool) (i : nat) (ids : list nat) (mask bit_str : N)
    : SimM (N * N) :=
  match ids with
  | [] => sret (mask, bit_str)
  | id :: ids' =>
      let* p := map_at id in
      probability_loop bits (S i) ids' (N.lor mask (N.shiftl 1 (N.of_nat p)))
        (N.lor bit_str (N.shiftl (if nth i bits false then 1 else 0) (N.of_nat p)))
  end.

Definition get_probability (bits : list bool) (ids : list nat) : SimM R :=
  let* s := sget in
  if negb (check_ids (map_ s) ids) then
    sthrow (runtime_error
      "get_probability(): Unknown qubit id. Please make sure you have called eng.flush().")%string
  else
    let* mb := probability_loop bits 0 ids 0%N 0%N in
    let '(mask, bit_str) := mb in
    let* s := sget in
    (* probability += std::norm(vec_[i]) for (i & mask) == bit_str *)
    sret (masked_norm (vec_ s) mask bit_str).

(** ** get_control_mask *)

(** [for (auto c : ctrls) ctrlmask |= (1UL << map_[c]);] *)
Fixpoint control_mask_loop (ctrls : list nat) (ctrlmask : N) : SimM N :=
  match ctrls with
  | [] => sret ctrlmask
  | c :: ctrls' =>
      let* p := map_at c in
      control_mask_loop ctrls' (N.lor ctrlmask (N.shiftl 1 (N.of_nat p)))
  end.

Definition get_control_mask (ctrls : list nat) : SimM N := control_mask_loop ctrls 0%N.

(** ** emulate_math *)

(** [for (i...) for (j...) quregs[i][j] = map_[quregs[i][j]];] *)
Fixpoint positions_of_regs (quregs : list (list nat)) : SimM (list (list nat)) :=
  match quregs with
  | [] => sret []
  | qr :: quregs' =>
      let* ps := positions_of qr in
      let* pss := positions_of_regs quregs' in
      sret (ps :: pss)
  end.

(** [res[qr_i] = 0; for (qb_i...) res[qr_i] |= ((i >> quregs[qr_i][qb_i]) & 1) << qb_i;]
    The [int] values of [res] are modelled by [Z]; they agree with the
    code's as long as a register has at most 31 qubits. *)
Definition reg_value (i : nat) (qr : list nat) : Z :=
  fold_left (fun r qb_i => Z.lor r (Z.shiftl (Z.b2z (Nat.testbit i (nth qb_i qr 0))) (Z.of_nat qb_i)))
    (seq 0 (length qr)) 0%Z.

(** [auto new_i = i; for (qr_i...) for (qb_i...)
       if (!(((new_i >> q) & 1) == ((res[qr_i] >> qb_i) & 1))) new_i ^= (1UL << q);]
    with [q = quregs[qr_i][qb_i]]. *)
Definition new_index (i : nat) (quregs : list (list nat)) (res : list Z) : nat :=
  fold_left (fun new_i qr_i =>
      let qr := nth qr_i quregs [] in
      fold_left (fun new_i qb_i =>
          let q := nth qb_i qr 0 in
          if negb (Bool.eqb (Nat.testbit new_i q) (Z.testbit (nth qr_i res 0%Z) (Z.of_nat qb_i)))
          then Nat.lxor new_i (2 ^ q) else new_i)
        (seq 0 (length qr)) new_i)
    (seq 0 (length quregs)) i.

(** [a + b] on amplitudes. *)
Definition cadd (a b : complex_type) : complex_type := mkC (re a + re b)%R (im a + im b)%R.

(** [a * b] on amplitudes. *)
Definition cmul (a b : complex_type) : complex_type :=
  mkC (re a * re b - im a * im b)%R (re a * im b + im a * re b)%R.

(** One iteration [i] of the main loop of [emulate_math]; [res] is the
    vector declared before the loop (it keeps what [f] left in it), and
    [newvec[new_i] += vec_[i]] past the end of [newvec] (undefined behaviour
    in the code) writes nothing here. *)
Definition emulate_step (f : list Z -> list Z) (quregs : list (list nat)) (ctrlmask : N)
    (v : list complex_type) (acc : list Z * list complex_type) (i : nat)
    : list Z * list complex_type :=
  let '(res, newvec) := acc in
  if N.eqb (N.land ctrlmask (N.of_nat i)) ctrlmask then
    let res1 := fold_left (fun r qr_i => <[qr_i := reg_value i (nth qr_i quregs [])]> r)
                  (seq 0 (length quregs)) res in
    (* f(res); *)
    let res2 := f res1 in
    let new_i := new_index i quregs res2 in
    (res2, <[new_i := cadd (vat newvec new_i) (vat v i)]> newvec)
  else (res, <[i := cadd (vat newvec i) (vat v i)]> newvec).

(** [emulate_math(f, quregs, ctrl)]; [f] is the callback that rewrites the
    register values in place. *)
Definition emulate_math (f : list Z -> list Z) (quregs : list (list nat)) (ctrl : list nat)
    : SimM unit :=
  let* ctrlmask := get_control_mask ctrl in
  let* qr := positions_of_regs quregs in
  let* s := sget in
  let v := vec_ s in
  (* std::vector<int> res(quregs.size()); newvec[i] = 0; *)
  let '(_, newvec) := fold_left (emulate_step f qr ctrlmask v) (seq 0 (length v))
                        (repeat 0%Z (length qr), repeat czero (length v)) in
  sput (set_vec newvec s).

(** [x = x + a] on every register value. *)
Definition emulate_math_addConstant (a : Z) : list (list nat) -> list nat -> SimM unit :=
  emulate_math (map (fun x => x + a)%Z).

(** [x = (x + a) % N] ([%] on [int] truncates: [Z.rem]). *)
Definition emulate_math_addConstantModN (a n : Z) : list (list nat) -> list nat -> SimM unit :=
  emulate_math (map (fun x => Z.rem (x + a) n)).

(** [x = (x * a) % N]. *)
Definition emulate_math_multiplyByConstantModN (a n : Z) : list (list nat) -> list nat -> SimM unit :=
  emulate_math (map (fun x => Z.rem (x * a) n)).

(** ** Operators given as sums of Pauli terms *)

Section TermOps.
(** A term [Term] (a product of Pauli operators) and the private member
    [apply_term(term, ids, {})], which applies it through
    [apply_controlled_gate] and [run()] (whose code is not in src/); it is a
    parameter of the functions below. *)
Context {Term : Type}.
Context (apply_term : Term -> list nat -> Simulator -> Simulator).

(** [vec_[i] = current_state[i];] for every [i < vec_.size()]. *)
Definition reset_vec (current_state : list complex_type) (s : Simulator) : Simulator :=
  set_vec (map (fun i => vat current_state i) (seq 0 (length (vec_ s)))) s.

(** [delta += a1 * a2 - b1 * b2] with [a1 = real(current_state[i])],
    [b1 = -imag(current_state[i])], [a2 = real(vec_[i])], [b2 = imag(vec_[i])]. *)
Definition overlap_re (current_state v : list complex_type) : R :=
  fold_left (fun delta i =>
      let a1 := re (vat current_state i) in
      let b1 := (- im (vat current_state i))%R in
      let a2 := re (vat v i) in
      let b2 := im (vat v i) in
      (delta + (a1 * a2 - b1 * b2))%R)
    (seq 0 (length v)) 0%R.

(** The loop over the terms of [get_expectation_value]. *)
Fixpoint expectation_loop (current_state : list complex_type) (td : list (Term * R))
    (ids : list nat) (expectation : R) : SimM R :=
  match td with
  | [] => sret expectation
  | (t, coefficient) :: td' =>
      fun s =>
        let s1 := apply_term t ids s in
        let delta := overlap_re current_state (vec_ s1) in
        expectation_loop current_state td' ids (expectation + coefficient * delta)%R
          (reset_vec current_state s1)
  end.

Definition get_expectation_value (td : list (Term * R)) (ids : list nat) : SimM R :=
  let* s := sget in
  (* current_state[i] = vec_[i]; *)
  expectation_loop (vec_ s) td ids 0%R.

(** [new_state[i] += coefficient * vec_[i];] for every [i < vec_.size()]. *)
Definition accumulate (coefficient : complex_type) (v new_state : list complex_type)
    : list complex_type :=
  fold_left (fun ns i => <[i := cadd (vat ns i) (cmul coefficient (vat v i))]> ns)
    (seq 0 (length v)) new_state.

(** The loop over the terms of [apply_qubit_operator]. *)
Fixpoint operator_loop (current_state : list complex_type) (td : list (Term * complex_type))
    (ids : list nat) (new_state : list complex_type) : SimM (list complex_type) :=
  match td with
  | [] => sret new_state
  | (t, coefficient) :: td' =>
      fun s =>
        let s1 := apply_term t ids s in
        operator_loop current_state td' ids (accumulate coefficient (vec_ s1) new_state)
          (reset_vec current_state s1)
  end.

Definition apply_qubit_operator (td : list (Term * complex_type)) (ids : list nat) : SimM unit :=
  let* s := sget in
  (* new_state[i] = 0; current_state[i] = vec_[i]; *)
  let* new_state := operator_loop (vec_ s) td ids (repeat czero (length (vec_ s))) in
  let* s' := sget in
  (* std::swap(vec_, new_state); *)
  sput (set_vec new_state s').
End TermOps.

(** ** emulate_time_evolution *)

(** A Pauli term [Term]: [std::vector<std::pair<unsigned, char>>]. *)
Definition Term := list (nat * Ascii.ascii).

(** [TermsDict]: the terms with their real coefficients. *)
Definition TermsDict := list (Term * R).

(** [for (const auto& i: tdict) { if (i.first.empty()) tr += i.second;
      else { td.push_back(i); op_nrm += std::abs(i.second); } }] *)
Definition split_tdict (tdict : TermsDict) : R * R * TermsDict :=
  fold_left (fun acc i =>
      let '(tr, op_nrm, td) := acc in
      match fst i with
      | [] => ((tr + snd i)%R, op_nrm, td)
      | _ :: _ => (tr, (op_nrm + Rabs (snd i))%R, td ++ [i])
      end) tdict (0%R, 0%R, []).

(** [static_cast<unsigned>(x)] for [x >= 1]: truncation toward zero (the
    cast of a value past [2^32 - 1] is undefined behaviour in the code). *)
Definition trunc_unsigned (x : R) : nat := Z.to_nat (Int_part x).

(** [std::exp] on amplitudes. *)
Definition cexp (z : complex_type) : complex_type :=
  mkC (exp (re z) * cos (im z))%R (exp (re z) * sin (im z))%R.

Section TimeEvolution.
(** [apply_term(term, ids, {})], as in the section above. *)
Context (apply_term : Term -> list nat -> Simulator -> Simulator).

(** [update[j] += vec_[j] * tup.second;] for every [j < vec_.size()]. *)
Definition add_term (coefficient : R) (v update : list complex_type) : list complex_type :=
  fold_left (fun u j => <[j := cadd (vat u j) (cscale (vat v j) coefficient)]> u)
    (seq 0 (length v)) update.

(** [for (auto const& tup: td) { apply_term(tup.first, ids, {}); for (j...)
      { update[j] += vec_[j] * tup.second; vec_[j] = current_state[j]; } }] *)
Fixpoint terms_loop (td : TermsDict) (ids : list nat) (current_state update : list complex_type)
    (s : Simulator) : list complex_type * Simulator :=
  match td with
  | [] => (update, s)
  | (t, coefficient) :: td' =>
      let s1 := apply_term t ids s in
      terms_loop td' ids current_state (add_term coefficient (vec_ s1) update)
        (reset_vec current_state s1)
  end.

(** [for (j < vec_.size()) { update[j] *= coeff; vec_[j] = update[j];
      if ((j & ctrlmask) == ctrlmask) { output_state[j] += update[j];
      nrm_change += std::norm(update[j]); } }], from [nrm_change = 0]. *)
Definition scale_loop (coeff : complex_type) (ctrlmask : N)
    (update v output_state : list complex_type)
    : list complex_type * list complex_type * list complex_type * R :=
  fold_left (fun acc j =>
      let '(u, v, o, nrm_change) := acc in
      let u' := <[j := cmul (vat u j) coeff]> u in
      let v' := <[j := vat u' j]> v in
      if N.eqb (N.land (N.of_nat j) ctrlmask) ctrlmask then
        (u', v', <[j := cadd (vat o j) (vat u' j)]> o, (nrm_change + cnorm (vat u' j))%R)
      else (u', v', o, nrm_change))
    (seq 0 (length v)) (update, v, output_state, 0%R).

(** [for (unsigned k = 0; nrm_change > default_tol_; ++k) { ... }]; the loop
    need not terminate, so it runs on [fuel] and gives [None] when the fuel
    is spent.  [s * (k + 1)] is an [unsigned] product. *)
Fixpoint taylor_loop (fuel : nat) (td : TermsDict) (ids : list nat) (time : R) (steps : nat)
    (ctrlmask : N) (k : nat) (nrm_change : R) (output_state : list complex_type) (s : Simulator)
    : option (list complex_type * Simulator) :=
  if gtb nrm_change default_tol_ then
    match fuel with
    | O => None
    | S fuel' =>
        let d := INR ((steps * (k + 1)) mod 2 ^ 32) in
        (* auto coeff = (-time * I) / double(s * (k + 1)); *)
        let coeff := mkC ((- time * 0) / d)%R ((- time * 1) / d)%R in
        let current_state := vec_ s in
        let '(update, s1) := terms_loop td ids current_state
                               (repeat czero (length (vec_ s))) s in
        let '(_, v, o, nrm) := scale_loop coeff ctrlmask update (vec_ s1) output_state in
        taylor_loop fuel' td ids time steps ctrlmask (S k) (sqrt nrm) o (set_vec v s1)
    end
  else Some (output_state, s).

(** [for (j < vec_.size()) { if ((j & ctrlmask) == ctrlmask)
      output_state[j] *= correction; vec_[j] = output_state[j]; }] *)
Definition correct_loop (correction : complex_type) (ctrlmask : N) (o v : list complex_type)
    : list complex_type * list complex_type :=
  fold_left (fun acc j =>
      let '(o, v) := acc in
      let o' := if N.eqb (N.land (N.of_nat j) ctrlmask) ctrlmask
                then <[j := cmul (vat o j) correction]> o else o in
      (o', <[j := vat o' j]> v))
    (seq 0 (length v)) (o, v).

(** [for (unsigned i = 0; i < s; ++i) { ...; for (k...) ...; ... }] *)
Fixpoint evolution_loop (fuel : nat) (td : TermsDict) (ids : list nat) (time : R) (steps : nat)
    (ctrlmask : N) (correction : complex_type) (iterations : nat)
    (output_state : list complex_type) (s : Simulator) : option (list complex_type * Simulator) :=
  match iterations with
  | O => Some (output_state, s)
  | S iterations' =>
      match taylor_loop fuel td ids time steps ctrlmask 0 1%R output_state s with
      | None => None
      | Some (o, s1) =>
          let '(o', v) := correct_loop correction ctrlmask o (vec_ s1) in
          evolution_loop fuel td ids time steps ctrlmask correction iterations' o' (set_vec v s1)
      end
  end.

(** [emulate_time_evolution(tdict, time, ids, ctrl)], each Taylor loop run
    on [fuel]: [None] when one of them does not stop within it. *)
Definition emulate_time_evolution (fuel : nat) (tdict : TermsDict) (time : R)
    (ids ctrl : list nat) (s : Simulator) : option (outcome unit) :=
  let '(tr, op_nrm, td) := split_tdict tdict in
  let steps := trunc_unsigned (Rabs time * op_nrm + 1) in
  (* std::exp(-time * I * tr / static_cast<double>(s)) *)
  let correction := cexp (mkC ((- time * 0) * tr / INR steps)%R ((- time * 1) * tr / INR steps)%R) in
  (* auto output_state = vec_; *)
  let output_state := vec_ s in
  match get_control_mask ctrl s with
  | Throw e s1 => Some (Throw e s1)
  | Ret ctrlmask s1 =>
      match evolution_loop fuel td ids time steps ctrlmask correction steps output_state s1 with
      | None => None
      | Some (_, s2) => Some (Ret tt s2)
      end
  end.
End TimeEvolution.

(** * Properties *)

(** ** The monad *)

Lemma sbind_sget {A} (k : Simulator -> SimM A) (s : Simulator) :
  sbind sget k s = k s s.
Proof. reflexivity. Qed.

(** ** Lists as vectors *)

Lemma vat_nth_error (v : list complex_type) i :
  i < length v -> nth_error v i = Some (vat v i).
Proof.
  intros H. unfold vat. apply nth_error_nth'. exact H.
Qed.

Lemma grow_app (v : list complex_type) k :
  grow v (length v + k) = v ++ repeat czero k.
Proof.
  apply nth_error_ext. intros n. unfold grow.
  rewrite nth_error_map.
  destruct (Nat.lt_ge_cases n (length v + k)) as [Hn | Hn].
  - rewrite nth_error_seq. destruct (n <? length v + k) eqn:E;
      [| apply Nat.ltb_ge in E; lia].
    simpl. destruct (Nat.lt_ge_cases n (length v)) as [Hv | Hv].
    + rewrite nth_error_app1 by exact Hv.
      replace (n <? length v) with true by (symmetry; apply Nat.ltb_lt; exact Hv).
      symmetry. apply vat_nth_error. exact Hv.
    + rewrite nth_error_app2 by exact Hv.
      replace (n <? length v) with false by (symmetry; apply Nat.ltb_ge; exact Hv).
      rewrite nth_error_repeat by lia. reflexivity.
  - rewrite nth_error_seq. destruct (n <? length v + k) eqn:E;
      [apply Nat.ltb_lt in E; lia |].
    simpl. symmetry. apply nth_error_None. rewrite length_app, repeat_length. lia.
Qed.

(** ** C2: allocate_qubit *)

(** C2.  [allocate_qubit id] throws when [id] is already mapped and leaves
    the object unchanged; otherwise it maps [id] to the old qubit count [N],
    increments [N], and the new vector of length [2^N] has the old vector as
    its low half and zeros in its high half. *)
Theorem allocate_qubit_spec (s : Simulator) (id : nat)
    (Hlen : length (vec_ s) = 2 ^ N_ s) :
  (is_Some (map_ s !! id) -> exists e, allocate_qubit id s = Throw e s) /\
  (map_ s !! id = None ->
   exists s', allocate_qubit id s = Ret tt s' /\
     map_ s' = <[id := N_ s]> (map_ s) /\
     N_ s' = S (N_ s) /\
     length (vec_ s') = 2 ^ N_ s' /\
     take (2 ^ N_ s) (vec_ s') = vec_ s /\
     drop (2 ^ N_ s) (vec_ s') = repeat czero (2 ^ N_ s)).
Proof.
  split.
  - intros [p Hp]. unfold allocate_qubit. rewrite Hp. eexists. reflexivity.
  - intros Hnone. unfold allocate_qubit. rewrite Hnone.
    eexists. split; [reflexivity |]. cbn [map_ N_ vec_].
    replace (2 ^ S (N_ s)) with (length (vec_ s) + 2 ^ N_ s)
      by (rewrite Hlen; simpl; lia).
    rewrite grow_app.
    repeat split.
    + rewrite length_app, repeat_length, Hlen. simpl. lia.
    + rewrite <- Hlen. rewrite take_app_length. reflexivity.
    + rewrite <- Hlen at 1. rewrite drop_app_length. reflexivity.
Qed.

(** ** Iteration spaces of the strided loops *)

Lemma strides_seq step K a fuel :
  0 < step -> K - a <= fuel ->
  strides fuel (step * a) step (step * K) = map (fun b => step * b) (seq a (K - a)).
Proof.
  intros Hstep. revert a. induction fuel as [| fuel IH]; intros a Hf; simpl.
  - replace (K - a) with 0 by lia. reflexivity.
  - destruct (step * a <? step * K) eqn:E.
    + apply Nat.ltb_lt in E.
      assert (a < K) by nia.
      replace (K - a) with (S (K - S a)) by lia. simpl.
      replace (step * a + step) with (step * S a) by lia.
      rewrite IH by lia. reflexivity.
    + apply Nat.ltb_ge in E.
      assert (K <= a) by nia.
      replace (K - a) with 0 by lia. reflexivity.
Qed.

Lemma outer_loop_blocks delta K :
  0 < delta -> outer_loop (2 * delta * K) delta = map (fun a => 2 * delta * a) (seq 0 K).
Proof.
  intros Hd. unfold outer_loop.
  pose proof (strides_seq (2 * delta) K 0 (2 * delta * K)) as H.
  rewrite Nat.mul_0_r, Nat.sub_0_r in H. apply H; nia.
Qed.

Lemma in_loop2 delta K i j :
  0 < delta ->
  In (i, j) (loop2 (2 * delta * K) delta) <-> exists a, a < K /\ i = 2 * delta * a /\ j < delta.
Proof.
  intros Hd. unfold loop2. rewrite outer_loop_blocks by exact Hd.
  rewrite in_flat_map. split.
  - intros [i' [Hi' Hij]]. apply in_map_iff in Hi' as [a [<- Ha]].
    apply in_map_iff in Hij as [j' [Heq Hj']]. injection Heq as <- <-.
    apply in_seq in Ha. apply in_seq in Hj'. exists a. lia.
  - intros [a [Ha [-> Hj]]]. exists (2 * delta * a). split.
    + apply in_map_iff. exists a. split; [reflexivity | apply in_seq; lia].
    + apply in_map_iff. exists j. split; [reflexivity | apply in_seq; lia].
Qed.

(** Bit [pos] of [k] is set iff [k] lies in the upper half of its block of
    [2 * 2^pos] indices. *)
Lemma testbit_half pos k :
  Nat.testbit k pos = (2 ^ pos <=? k mod (2 * 2 ^ pos)).
Proof.
  assert (Hd : 0 < 2 ^ pos) by (apply Nat.neq_0_lt_0, Nat.pow_nonzero; lia).
  pose proof (Nat.testbit_spec' k pos) as Hb.
  replace (2 * 2 ^ pos) with (2 ^ pos * 2) by lia.
  rewrite Nat.Div0.mod_mul_r.
  pose proof (Nat.mod_upper_bound k (2 ^ pos) ltac:(lia)).
  pose proof (Nat.mod_upper_bound (k / 2 ^ pos) 2 ltac:(lia)).
  destruct (Nat.testbit k pos); cbn [Nat.b2n] in Hb; symmetry.
  - apply Nat.leb_le. rewrite <- Hb. lia.
  - apply Nat.leb_gt. rewrite <- Hb. lia.
Qed.

Lemma pow2_pos pos : 0 < 2 ^ pos.
Proof. apply Nat.neq_0_lt_0, Nat.pow_nonzero. lia. Qed.

Lemma block_decomp pos K k :
  k < 2 * 2 ^ pos * K ->
  exists a j, a < K /\ j < 2 ^ pos /\
    k = 2 * 2 ^ pos * a + j + Nat.b2n (Nat.testbit k pos) * 2 ^ pos.
Proof.
  intros Hk. pose proof (pow2_pos pos) as Hd.
  set (d := 2 ^ pos) in *.
  pose proof (Nat.div_mod_eq k (2 * d)) as Hdm.
  pose proof (Nat.mod_upper_bound k (2 * d) ltac:(lia)) as Hr.
  assert (Ha : k / (2 * d) < K) by (apply Nat.Div0.div_lt_upper_bound; lia).
  rewrite testbit_half. fold d.
  destruct (d <=? k mod (2 * d)) eqn:E; cbn [Nat.b2n].
  - apply Nat.leb_le in E.
    exists (k / (2 * d)), (k mod (2 * d) - d). lia.
  - apply Nat.leb_gt in E.
    exists (k / (2 * d)), (k mod (2 * d)). lia.
Qed.

Lemma testbit_block pos a j c :
  j < 2 ^ pos -> c <= 1 ->
  Nat.testbit (2 * 2 ^ pos * a + j + c * 2 ^ pos) pos = (c =? 1).
Proof.
  intros Hj Hc. pose proof (pow2_pos pos) as Hd.
  rewrite testbit_half.
  replace (2 * 2 ^ pos * a + j + c * 2 ^ pos) with ((j + c * 2 ^ pos) + a * (2 * 2 ^ pos))
    by lia.
  rewrite Nat.Div0.mod_add.
  rewrite Nat.mod_small by nia.
  destruct c as [| [| c]]; [| | lia]; simpl.
  - apply Nat.leb_gt. lia.
  - apply Nat.leb_le. lia.
Qed.

(** ** Folds of in-place updates *)

Section FoldInsert.
Context {X : Type} (h : list complex_type -> X -> list complex_type)
        (f : X -> nat) (g : X -> complex_type).
Hypothesis Hh : forall v x, h v x = <[f x := g x]> v.

Lemma fold_insert_length l v0 : length (fold_left h l v0) = length v0.
Proof.
  revert v0. induction l as [| x l IH]; intros v0; simpl; [reflexivity |].
  rewrite IH, Hh. apply length_insert.
Qed.

Lemma fold_insert_notin l v0 k :
  (forall x, In x l -> f x <> k) -> fold_left h l v0 !! k = v0 !! k.
Proof.
  revert v0. induction l as [| x l IH]; intros v0 Hl; simpl; [reflexivity |].
  rewrite IH by (intros y Hy; apply Hl; right; exact Hy).
  rewrite Hh. apply list_lookup_insert_ne. apply Hl. left. reflexivity.
Qed.

Lemma fold_insert_in l v0 k z :
  k < length v0 ->
  (forall x, In x l -> f x = k -> g x = z) ->
  (exists x, In x l /\ f x = k) ->
  fold_left h l v0 !! k = Some z.
Proof.
  revert v0. induction l as [| x l IH]; intros v0 Hk Hg [y [Hy Hfy]];
    [destruct Hy |].
  simpl.
  destruct (decide (Exists (fun x' => f x' = k) l)) as [Hex | Hnex].
  - apply Exists_exists in Hex as [x' [Hx' Hfx']].
    apply IH.
    + rewrite Hh, length_insert. exact Hk.
    + intros x'' Hx''. apply Hg. right. exact Hx''.
    + exists x'. split; [apply list_elem_of_In |]; assumption.
  - rewrite fold_insert_notin.
    + destruct Hy as [<- | Hy].
      * rewrite Hh, Hfy. rewrite list_lookup_insert_eq by exact Hk.
        f_equal. apply Hg; [left; reflexivity | exact Hfy].
      * exfalso. apply Hnex. apply Exists_exists. exists y.
        split; [apply list_elem_of_In |]; assumption.
    + intros x' Hx' Hfx'. apply Hnex. apply Exists_exists. exists x'.
      split; [apply list_elem_of_In |]; assumption.
Qed.
End FoldInsert.

Lemma fold_left_nested {A I J : Type} (body : A -> I -> J -> A) (js : list J)
    (is_ : list I) (a0 : A) :
  fold_left (fun a i => fold_left (fun a' j => body a' i j) js a) is_ a0 =
  fold_left (fun a (ij : I * J) => body a (fst ij) (snd ij))
    (flat_map (fun i => map (fun j => (i, j)) js) is_) a0.
Proof.
  revert a0. induction is_ as [| i is_ IH]; intros a0; simpl; [reflexivity |].
  rewrite fold_left_app, <- IH. f_equal.
  clear IH. revert a0. induction js as [| j js IHj]; intros a; simpl; [reflexivity |].
  apply IHj.
Qed.

Lemma pow2_split pos n :
  pos < n -> 2 ^ n = 2 * 2 ^ pos * 2 ^ (n - pos - 1).
Proof.
  intros H. replace n with (pos + S (n - pos - 1)) at 1 by lia.
  rewrite Nat.pow_add_r. simpl. lia.
Qed.

(** ** C9: collapse_vector without shrinking *)

(** C9.  For a mapped [id] (position [pos < N], vector of length [2^N]),
    [collapse_vector id value false] sets to zero exactly the amplitudes
    whose bit [pos] differs from [value], leaves every other amplitude as it
    was (no renormalisation), and changes neither the length of the vector,
    nor [N], nor the map. *)
Theorem collapse_vector_keep_spec (s : Simulator) (id pos : nat) (value : bool)
    (Hpos : map_ s !! id = Some pos) (HposN : pos < N_ s)
    (Hlen : length (vec_ s) = 2 ^ N_ s) :
  exists s', collapse_vector id value false s = Ret tt s' /\
    N_ s' = N_ s /\ map_ s' = map_ s /\
    length (vec_ s') = length (vec_ s) /\
    forall k, k < length (vec_ s) ->
      vec_ s' !! k =
        if Bool.eqb (Nat.testbit k pos) value then vec_ s !! k else Some czero.
Proof.
  unfold collapse_vector, sbind, map_at, sget, sput. rewrite Hpos. cbn -[loop2].
  eexists. split; [reflexivity |]. cbn [N_ map_ vec_ set_vec].
  pose proof (pow2_split pos (N_ s) HposN) as Hsz. rewrite <- Hlen in Hsz.
  set (K := 2 ^ (N_ s - pos - 1)) in Hsz.
  set (c := Nat.b2n (negb value)).
  set (f := fun ij : nat * nat => fst ij + snd ij + c * 2 ^ pos).
  assert (Hh : forall (v : list complex_type) (ij : nat * nat),
    (let '(i, j) := ij in <[i + j + c * 2 ^ pos := czero]> v) =
    <[f ij := (fun _ : nat * nat => czero) ij]> v) by (intros v [i j]; reflexivity).
  repeat split.
  - apply (fold_insert_length _ f (fun _ => czero) Hh).
  - intros k Hk. rewrite Hsz.
    destruct (Bool.eqb (Nat.testbit k pos) value) eqn:E.
    + apply (fold_insert_notin _ f (fun _ => czero) Hh).
      intros [i j] Hin. apply in_loop2 in Hin as [a [Ha [-> Hj]]]; [| apply pow2_pos].
      unfold f; cbn [fst snd]. intros Heq.
      assert (Hc : c <= 1) by (unfold c; destruct value; simpl; lia).
      pose proof (testbit_block pos a j c Hj Hc) as Hb. rewrite Heq in Hb.
      apply Bool.eqb_prop in E. rewrite E in Hb.
      unfold c in Hb. destruct value; discriminate Hb.
    + apply (fold_insert_in _ f (fun _ => czero) Hh); [lia | reflexivity |].
      rewrite Hsz in Hk. destruct (block_decomp pos K k Hk) as [a [j [Ha [Hj Hk']]]].
      exists (2 * 2 ^ pos * a, j). split.
      * apply in_loop2; [apply pow2_pos |]. exists a. lia.
      * unfold f, c; cbn [fst snd].
        transitivity (2 * 2 ^ pos * a + j + Nat.b2n (Nat.testbit k pos) * 2 ^ pos);
          [| symmetry; exact Hk'].
        destruct (Nat.testbit k pos), value; simpl in E |- *; try discriminate E; lia.
Qed.

(** ** is_classical and get_classical_value *)

Lemma vat_lookup (v : list complex_type) i :
  i < length v -> v !! i = Some (vat v i).
Proof.
  intros H. unfold vat. destruct (nth_lookup_or_length v i czero); [assumption | lia].
Qed.

Lemma gtb_true a b : gtb a b = true <-> (b < a)%R.
Proof. unfold gtb. destruct (Rlt_dec b a); split; auto; discriminate. Qed.

Lemma gtb_false a b : gtb a b = false <-> ~ (b < a)%R.
Proof. unfold gtb. destruct (Rlt_dec b a); split; auto; try discriminate; tauto. Qed.

(** Some amplitude with bit [pos] equal to [b] has squared modulus above
    [tol]: the qubit at [pos] has mass on its [b] half. *)
Definition has_mass (v : list complex_type) (pos : nat) (b : bool) (tol : R) : Prop :=
  exists k, k < length v /\ Nat.testbit k pos = b /\ (tol < cnorm (vat v k))%R.

Lemma fold_left_ext_pw {A X : Type} (f g : A -> X -> A) (l : list X) a :
  (forall a x, f a x = g a x) -> fold_left f l a = fold_left g l a.
Proof.
  intros H. revert a. induction l as [| x l IH]; intros a; simpl; [reflexivity |].
  rewrite H. apply IH.
Qed.

Lemma fold_or2 {X : Type} (F G : X -> bool) (l : list X) u d :
  fold_left (fun (ud : bool * bool) x => let '(u, d) := ud in (u || F x, d || G x)) l (u, d)
  = (u || existsb F l, d || existsb G l).
Proof.
  revert u d. induction l as [| x l IH]; intros u d; simpl.
  - rewrite !orb_false_r. reflexivity.
  - rewrite IH, !orb_assoc. reflexivity.
Qed.

(** Every index of the vector is reached as [i + j + b * delta] from exactly
    the iterations of the loop pair. *)
Lemma loop2_reaches (v : list complex_type) pos K b k :
  length v = 2 * 2 ^ pos * K ->
  ((exists i j, In (i, j) (loop2 (length v) (2 ^ pos)) /\ k = i + j + Nat.b2n b * 2 ^ pos)
   <-> (k < length v /\ Nat.testbit k pos = b)).
Proof.
  intros Hsz. pose proof (pow2_pos pos) as Hd. rewrite Hsz. split.
  - intros [i [j [Hin ->]]]. apply in_loop2 in Hin as [a [Ha [-> Hj]]]; [| exact Hd].
    split.
    + destruct b; simpl; nia.
    + rewrite testbit_block by (try exact Hj; destruct b; simpl; lia).
      destruct b; reflexivity.
  - intros [Hk Hb]. destruct (block_decomp pos K k Hk) as [a [j [Ha [Hj Hk']]]].
    exists (2 * 2 ^ pos * a), j. split.
    + apply in_loop2; [exact Hd |]. exists a. lia.
    + rewrite Hb in Hk'. exact Hk'.
Qed.

Lemma is_classical_loop_spec (v : list complex_type) pos K tol :
  length v = 2 * 2 ^ pos * K ->
  exists up down, is_classical_loop v (2 ^ pos) tol = (up, down) /\
    (up = true <-> has_mass v pos false tol) /\
    (down = true <-> has_mass v pos true tol).
Proof.
  intros Hsz. unfold is_classical_loop.
  set (F := fun ij : nat * nat => gtb (cnorm (vat v (fst ij + snd ij))) tol).
  set (G := fun ij : nat * nat => gtb (cnorm (vat v (fst ij + snd ij + 2 ^ pos))) tol).
  assert (Heq : forall (ud : bool * bool) (ij : nat * nat),
    (let '(up, down) := ud in let '(i, j) := ij in
       (up || gtb (cnorm (vat v (i + j))) tol,
        down || gtb (cnorm (vat v (i + j + 2 ^ pos))) tol)) =
    (let '(u, d) := ud in (u || F ij, d || G ij)))
    by (intros [u d] [i j]; reflexivity).
  rewrite (fold_left_ext_pw _ _ _ _ Heq), fold_or2. cbn [orb].
  eexists _, _. split; [reflexivity |]. split.
  - rewrite existsb_exists. unfold has_mass. split.
    + intros [[i j] [Hin Hg]]. unfold F in Hg; cbn [fst snd] in Hg.
      apply gtb_true in Hg.
      destruct (proj1 (loop2_reaches v pos K false (i + j) Hsz)) as [Hk Hb].
      { exists i, j. split; [exact Hin | simpl; lia]. }
      exists (i + j). auto.
    + intros [k [Hk [Hb Hm]]].
      destruct (proj2 (loop2_reaches v pos K false k Hsz) (conj Hk Hb)) as [i [j [Hin Hkij]]].
      exists (i, j). split; [exact Hin |]. unfold F; cbn [fst snd].
      apply gtb_true. simpl in Hkij. replace (i + j) with k by lia. exact Hm.
  - rewrite existsb_exists. unfold has_mass. split.
    + intros [[i j] [Hin Hg]]. unfold G in Hg; cbn [fst snd] in Hg.
      apply gtb_true in Hg.
      destruct (proj1 (loop2_reaches v pos K true (i + j + 2 ^ pos) Hsz)) as [Hk Hb].
      { exists i, j. split; [exact Hin | simpl; lia]. }
      exists (i + j + 2 ^ pos). auto.
    + intros [k [Hk [Hb Hm]]].
      destruct (proj2 (loop2_reaches v pos K true k Hsz) (conj Hk Hb)) as [i [j [Hin Hkij]]].
      exists (i, j). split; [exact Hin |]. unfold G; cbn [fst snd].
      apply gtb_true. simpl in Hkij. replace (i + j + 2 ^ pos) with k by lia. exact Hm.
Qed.

Lemma classical_scan_some (v : list complex_type) delta tol its b :
  classical_scan v delta tol its = Some b ->
  exists i j, In (i, j) its /\
    ((b = false /\ (tol < cnorm (vat v (i + j)))%R) \/
     (b = true /\ (tol < cnorm (vat v (i + j + delta)))%R)).
Proof.
  induction its as [| [i j] its IH]; simpl; [discriminate |].
  destruct (gtb (cnorm (vat v (i + j))) tol) eqn:E1.
  - intros [= <-]. exists i, j. split; [left; reflexivity |].
    left. split; [reflexivity | apply gtb_true; exact E1].
  - destruct (gtb (cnorm (vat v (i + j + delta))) tol) eqn:E2.
    + intros [= <-]. exists i, j. split; [left; reflexivity |].
      right. split; [reflexivity | apply gtb_true; exact E2].
    + intros H. destruct (IH H) as [i' [j' [Hin Hm]]].
      exists i', j'. split; [right; exact Hin | exact Hm].
Qed.

Lemma classical_scan_none (v : list complex_type) delta tol its :
  classical_scan v delta tol its = None ->
  forall i j, In (i, j) its ->
    ~ (tol < cnorm (vat v (i + j)))%R /\ ~ (tol < cnorm (vat v (i + j + delta)))%R.
Proof.
  induction its as [| [i j] its IH]; simpl; [intros _ i j [] |].
  destruct (gtb (cnorm (vat v (i + j))) tol) eqn:E1; [discriminate |].
  destruct (gtb (cnorm (vat v (i + j + delta))) tol) eqn:E2; [discriminate |].
  intros H i' j' [[= <- <-] | Hin].
  - split; apply gtb_false; assumption.
  - apply IH; assumption.
Qed.

(** ** The compaction of collapse_vector with shrinking *)

Lemma shrink_content (v : list complex_type) pos K (value : bool)
    (newvec0 : list complex_type) :
  length v = 2 * 2 ^ pos * K -> length newvec0 = 2 ^ pos * K ->
  let nv := fold_left
              (fun nv i => copy_n v (i + Nat.b2n value * 2 ^ pos) (2 ^ pos) (i / 2) nv)
              (outer_loop (length v) (2 ^ pos)) newvec0 in
  length nv = 2 ^ pos * K /\
  forall k, k < 2 ^ pos * K ->
    nv !! k = v !! (2 * 2 ^ pos * (k / 2 ^ pos) + Nat.b2n value * 2 ^ pos + k mod 2 ^ pos).
Proof.
  intros Hsz H0 nv. pose proof (pow2_pos pos) as Hd.
  set (d := 2 ^ pos) in *. set (c := Nat.b2n value).
  assert (Hc : c <= 1) by (unfold c; destruct value; simpl; lia).
  assert (Hnv : nv = fold_left
     (fun a (ij : nat * nat) => <[fst ij / 2 + snd ij := vat v (fst ij + c * d + snd ij)]> a)
     (loop2 (length v) d) newvec0).
  { unfold nv, copy_n, loop2.
    apply (fold_left_nested (fun a i t => <[i / 2 + t := vat v (i + c * d + t)]> a)). }
  set (f := fun ij : nat * nat => fst ij / 2 + snd ij).
  set (g := fun ij : nat * nat => vat v (fst ij + c * d + snd ij)).
  assert (Hh : forall (a : list complex_type) (ij : nat * nat),
    <[fst ij / 2 + snd ij := vat v (fst ij + c * d + snd ij)]> a = <[f ij := g ij]> a)
    by reflexivity.
  split.
  - rewrite Hnv, (fold_insert_length _ f g Hh). exact H0.
  - intros k Hk. rewrite Hnv.
    assert (Hq : k / d < K) by (apply Nat.Div0.div_lt_upper_bound; lia).
    pose proof (Nat.mod_upper_bound k d ltac:(lia)) as Hr.
    pose proof (Nat.div_mod_eq k d) as Hdm.
    rewrite (vat_lookup v) by (rewrite Hsz; nia).
    apply (fold_insert_in _ f g Hh); [lia | |].
    + intros [i t] Hin Hf. rewrite Hsz in Hin.
      apply in_loop2 in Hin as [a [Ha [-> Ht]]]; [| exact Hd].
      unfold f, g in *; cbn [fst snd] in *.
      replace (2 * d * a) with (d * a * 2) in Hf by lia.
      rewrite Nat.div_mul in Hf by lia.
      assert (a = k / d) as -> by (apply (Nat.div_unique _ _ _ t); lia).
      assert (t = k mod d) as -> by (apply (Nat.mod_unique _ _ (k / d)); lia).
      reflexivity.
    + exists (2 * d * (k / d), k mod d). split.
      * rewrite Hsz. apply in_loop2; [exact Hd |]. exists (k / d). lia.
      * unfold f; cbn [fst snd].
        replace (2 * d * (k / d)) with (d * (k / d) * 2) by lia.
        rewrite Nat.div_mul by lia. lia.
Qed.

Lemma pow2_pred_split pos n :
  pos < n -> 2 ^ (n - 1) = 2 ^ pos * 2 ^ (n - pos - 1).
Proof.
  intros H. rewrite <- Nat.pow_add_r. f_equal. lia.
Qed.

(** ** C7: deallocate_qubit *)

(** C7.  For a state with a vector of length [2^N], positions below [N] and
    some amplitude above the tolerance (as normalisation guarantees):
    [deallocate_qubit id] throws when [id] is unmapped; throws the
    "not been measured / uncomputed" error when the qubit has mass above the
    tolerance on both halves of its bit; and otherwise reads the classical
    value (the only half with mass), halves the vector to that half, removes
    [id] from the map (positions above it move down by one) and decrements
    [N]. *)
Theorem deallocate_qubit_spec (s : Simulator) (id : nat)
    (Hinv : forall i p, map_ s !! i = Some p -> p < N_ s)
    (Hlen : length (vec_ s) = 2 ^ N_ s)
    (Hmass : exists k, k < length (vec_ s) /\ (default_tol_ < cnorm (vat (vec_ s) k))%R) :
  (map_ s !! id = None -> exists e, deallocate_qubit id s = Throw e s) /\
  (forall pos, map_ s !! id = Some pos ->
     has_mass (vec_ s) pos false default_tol_ ->
     has_mass (vec_ s) pos true default_tol_ ->
     deallocate_qubit id s = Throw (runtime_error
       "Error: Qubit has not been measured / uncomputed! There is most likely a bug in your code.")%string s) /\
  (forall pos, map_ s !! id = Some pos ->
     ~ (has_mass (vec_ s) pos false default_tol_ /\ has_mass (vec_ s) pos true default_tol_) ->
     exists value s', deallocate_qubit id s = Ret tt s' /\
       has_mass (vec_ s) pos value default_tol_ /\
       ~ has_mass (vec_ s) pos (negb value) default_tol_ /\
       N_ s' = N_ s - 1 /\
       length (vec_ s') = length (vec_ s) / 2 /\
       map_ s' = delete id (shift_down pos (map_ s)) /\
       forall k, k < length (vec_ s') ->
         vec_ s' !! k =
           vec_ s !! (2 * 2 ^ pos * (k / 2 ^ pos) + Nat.b2n value * 2 ^ pos + k mod 2 ^ pos)).
Proof.
  split; [| split].
  - intros Hnone. unfold deallocate_qubit, sbind, sget, sthrow. rewrite Hnone.
    eexists. reflexivity.
  - intros pos Hpos H0 H1.
    pose proof (pow2_split pos (N_ s) (Hinv _ _ Hpos)) as Hsz. rewrite <- Hlen in Hsz.
    destruct (is_classical_loop_spec (vec_ s) pos _ default_tol_ Hsz)
      as [up [down [Hloop [Hup Hdown]]]].
    apply Hup in H0. apply Hdown in H1. subst up down.
    unfold deallocate_qubit, is_classical, sbind, sget, sthrow, sret, map_at.
    rewrite Hpos, Hpos, Hloop. reflexivity.
  - intros pos Hpos Hnot.
    pose proof (Hinv _ _ Hpos) as HposN.
    pose proof (pow2_split pos (N_ s) HposN) as Hsz. rewrite <- Hlen in Hsz.
    set (K := 2 ^ (N_ s - pos - 1)) in Hsz.
    destruct (is_classical_loop_spec (vec_ s) pos K default_tol_ Hsz)
      as [up [down [Hloop [Hup Hdown]]]].
    (* the qubit has mass on exactly one half *)
    assert (Hone : xorb up down = true).
    { destruct Hmass as [k [Hk Hm]].
      destruct up, down; try reflexivity; exfalso.
      - apply Hnot. split; [apply Hup | apply Hdown]; reflexivity.
      - destruct (Nat.testbit k pos) eqn:Hb.
        + assert (Hm1 : has_mass (vec_ s) pos true default_tol_) by (exists k; auto).
          apply Hdown in Hm1. discriminate.
        + assert (Hm0 : has_mass (vec_ s) pos false default_tol_) by (exists k; auto).
          apply Hup in Hm0. discriminate. }
    (* the scan finds the half with mass *)
    destruct (classical_scan (vec_ s) (2 ^ pos) default_tol_ (loop2 (length (vec_ s)) (2 ^ pos)))
      as [value |] eqn:Hscan.
    2:{ exfalso. destruct Hmass as [k [Hk Hm]].
        destruct (proj2 (loop2_reaches (vec_ s) pos K (Nat.testbit k pos) k Hsz) (conj Hk eq_refl))
          as [i [j [Hin Hkij]]].
        destruct (classical_scan_none _ _ _ _ Hscan i j Hin) as [Hn0 Hn1].
        destruct (Nat.testbit k pos); cbn [Nat.b2n] in Hkij.
        - apply Hn1. replace (i + j + 2 ^ pos) with k by lia. exact Hm.
        - apply Hn0. replace (i + j) with k by lia. exact Hm. }
    assert (Hval : has_mass (vec_ s) pos value default_tol_).
    { destruct (classical_scan_some _ _ _ _ _ Hscan) as [i [j [Hin [[-> Hm] | [-> Hm]]]]].
      - destruct (proj1 (loop2_reaches (vec_ s) pos K false (i + j) Hsz)) as [Hk Hb].
        { exists i, j. split; [exact Hin | simpl; lia]. }
        exists (i + j). auto.
      - destruct (proj1 (loop2_reaches (vec_ s) pos K true (i + j + 2 ^ pos) Hsz)) as [Hk Hb].
        { exists i, j. split; [exact Hin | simpl; lia]. }
        exists (i + j + 2 ^ pos). auto. }
    assert (Hpred : length (repeat czero (2 ^ (N_ s - 1))) = 2 ^ pos * K)
      by (rewrite repeat_length; apply pow2_pred_split; exact HposN).
    destruct (shrink_content (vec_ s) pos K value _ Hsz Hpred) as [Hnvlen Hnv].
    exists value.
    unfold deallocate_qubit, is_classical, get_classical_value, collapse_vector,
      sbind, sget, sthrow, sret, sput, map_at.
    rewrite Hpos, Hpos, Hloop, Hone. cbn [negb]. rewrite Hpos, Hscan, Hpos.
    eexists. split; [reflexivity |].
    cbn [N_ vec_ map_]. split; [exact Hval |]. split.
    { intros Hneg. apply Hnot. destruct value; simpl in Hneg; tauto. }
    split; [reflexivity |]. split.
    { rewrite Hnvlen, Hsz. replace (2 * 2 ^ pos * K) with (2 ^ pos * K * 2) by lia.
      rewrite Nat.div_mul by lia. reflexivity. }
    split; [reflexivity |].
    intros k Hk. rewrite Hnvlen in Hk. apply Hnv. exact Hk.
Qed.

(** ** measure_qubits *)

Lemma bit_at_testbit x p : bit_at x p = N.testbit x (N.of_nat p).
Proof.
  unfold bit_at.
  change 1%N with (N.ones 1) at 1. rewrite N.land_ones, N.shiftr_div_pow2.
  pose proof (N.testbit_spec' x (N.of_nat p)) as H.
  change (2 ^ 1)%N with 2%N. rewrite <- H. destruct (N.testbit x (N.of_nat p)); reflexivity.
Qed.

Lemma decode_loop_res pick ps res mask val :
  fst (fst (fold_left (decode_step pick) ps (res, mask, val))) = res ++ map (bit_at pick) ps.
Proof.
  revert res mask val. induction ps as [| p ps IH]; intros res mask val; simpl.
  - rewrite app_nil_r. reflexivity.
  - rewrite IH, <- app_assoc. reflexivity.
Qed.

Lemma positions_of_spec (ids : list nat) (s : Simulator) :
  (forall id p, map_ s !! id = Some p -> p < 64) ->
  exists ps s', positions_of ids s = Ret ps s' /\ vec_ s' = vec_ s /\
    length ps = length ids /\ Forall (fun p => p < 64) ps.
Proof.
  revert s. induction ids as [| id ids IH]; intros s Hs.
  - exists [], s. simpl. repeat split. constructor.
  - simpl. unfold sbind at 1, map_at.
    destruct (map_ s !! id) as [p |] eqn:Hp.
    + destruct (IH s Hs) as [ps [s' [Hrun [Hv [Hl Hf]]]]].
      unfold sbind. rewrite Hrun. exists (p :: ps), s'. unfold sret.
      repeat split; [exact Hv | simpl; lia | constructor; [apply (Hs id) |]; assumption].
    + assert (Hs' : forall id' p', map_ (set_map (<[id := 0]> (map_ s)) s) !! id' = Some p' -> p' < 64).
      { intros id' p'. cbn [map_ set_map]. rewrite lookup_insert.
        case_decide; [intros [= <-]; lia | apply Hs]. }
      destruct (IH _ Hs') as [ps [s' [Hrun [Hv [Hl Hf]]]]].
      unfold sbind. rewrite Hrun. exists (0 :: ps), s'. unfold sret.
      repeat split; [exact Hv | simpl; lia | constructor; [lia | assumption]].
Qed.

Lemma pick_scan_zero_draw (v : list complex_type) fuel :
  pick_scan v 0%R fuel 0%R 0 = 0.
Proof.
  destruct fuel as [| fuel]; simpl; [reflexivity |].
  unfold ltb. destruct (Rlt_dec 0 0) as [H |]; [lra | reflexivity].
Qed.

Lemma size_t_dec_zero : size_t_dec 0 = (2 ^ 64 - 1)%N.
Proof. reflexivity. Qed.

Lemma bit_at_all_ones p : p < 64 -> bit_at (2 ^ 64 - 1)%N p = true.
Proof.
  intros Hp. rewrite bit_at_testbit.
  replace (2 ^ 64 - 1)%N with (N.ones 64) by reflexivity.
  apply N.ones_spec_low. lia.
Qed.

(** ** C10: measure_qubits when the drawn number is 0 *)

(** C10.  When [rng_()] returns [0], the cumulative scan stops at once with
    [pick = 0], [pick--] wraps to the all-ones [std::size_t], and every
    reported bit is [1], whatever the wavefunction (for positions below 64,
    as all positions of a 64-bit index are). *)
Theorem measure_qubits_zero_draw (s : Simulator) (ids : list nat)
    (Hpos : forall id p, map_ s !! id = Some p -> p < 64) :
  pick_scan (vec_ s) 0%R (length (vec_ s)) 0%R 0 = 0 /\
  size_t_dec (N.of_nat 0) = (2 ^ 64 - 1)%N /\
  exists s', measure_qubits ids 0%R s = Ret (repeat true (length ids)) s'.
Proof.
  split; [apply pick_scan_zero_draw |]. split; [apply size_t_dec_zero |].
  destruct (positions_of_spec ids s Hpos) as [ps [s1 [Hrun [Hv [Hl Hf]]]]].
  unfold measure_qubits, sbind at 1. rewrite Hrun.
  unfold sbind, sget. rewrite pick_scan_zero_draw.
  change (size_t_dec (N.of_nat 0)) with (2 ^ 64 - 1)%N.
  unfold decode_loop.
  pose proof (decode_loop_res (2 ^ 64 - 1)%N ps [] 0%N 0%N) as Hres.
  destruct (fold_left (decode_step (2 ^ 64 - 1)%N) ps ([], 0%N, 0%N)) as [[res mask] val].
  cbn [fst] in Hres. subst res.
  unfold sput, sret. eexists. f_equal.
  rewrite <- Hl. clear Hl Hrun.
  induction Hf as [| p ps Hp Hf IH]; [reflexivity |].
  simpl. rewrite bit_at_all_ones by exact Hp. f_equal. exact IH.
Qed.

(** ** C1: measure_qubits, the draw [rnd = 0] *)

(** One qubit (id [0] at position [0]) in the basis state |0>. *)
Definition s_ket0 : Simulator := mkSim 1 [mkC 1 0; czero] {[0 := 0]}.

(** C1 (failing input).  With the state |0> and the drawn number [r = 0],
    the smallest index whose cumulative squared modulus reaches [r] is [0],
    whose bit 0 is [0]; the code reports the outcome [1] instead.  The
    [pick] it decodes gives the mask [1] and the value [1], and the
    amplitudes it keeps for that outcome have total squared modulus [0], so
    the renormalisation that follows divides by [std::sqrt(0)]. *)
Theorem measure_qubits_zero_draw_ket0 :
  (0 <= cnorm (vat (vec_ s_ket0) 0))%R /\ bit_at 0 0 = false /\
  (exists s', measure_qubits [0] 0%R s_ket0 = Ret [true] s') /\
  decode_loop (size_t_dec (N.of_nat (pick_scan (vec_ s_ket0) 0%R (length (vec_ s_ket0)) 0%R 0))) [0]
    = ([true], 1%N, 1%N) /\
  masked_norm (vec_ s_ket0) 1%N 1%N = 0%R.
Proof.
  split; [unfold cnorm; simpl; lra |]. split; [reflexivity |]. split; [| split].
  - unfold measure_qubits, sbind, positions_of, map_at, sbind, sget, sret.
    replace (map_ s_ket0 !! 0) with (Some 0) by reflexivity.
    cbv iota beta. rewrite pick_scan_zero_draw.
    eexists. reflexivity.
  - rewrite pick_scan_zero_draw. vm_compute. reflexivity.
  - unfold masked_norm, matches, cnorm, vat. simpl. ring.
Qed.

(** ** collapse_wavefunction *)

(** The outcome mask and value of a query: the OR of [1 << M[ids_i]] and
    the OR of [values_i << M[ids_i]]. *)
Definition outcome_mask (m : gmap nat nat) (ids : list nat) : N :=
  fold_left (fun acc id => N.lor acc (N.shiftl 1 (N.of_nat (default 0 (m !! id))))) ids 0%N.

Definition outcome_val (m : gmap nat nat) (ids : list nat) (values : list bool) : N :=
  fold_left (fun acc (ib : nat * bool) =>
               N.lor acc (N.shiftl (N.b2n (snd ib)) (N.of_nat (default 0 (m !! fst ib)))))
    (combine ids values) 0%N.

Lemma check_ids_spec (m : gmap nat nat) ids :
  check_ids m ids = true <-> forall id, In id ids -> is_Some (m !! id).
Proof.
  unfold check_ids. rewrite forallb_forall. split.
  - intros H id Hin. specialize (H id Hin). destruct (m !! id); [eexists; reflexivity | discriminate].
  - intros H id Hin. destruct (H id Hin) as [p ->]. reflexivity.
Qed.

Lemma mask_val_run (ids : list nat) (values : list bool) mask val (s : Simulator) :
  (forall id, In id ids -> is_Some (map_ s !! id)) -> length ids = length values ->
  mask_val ids values mask val s =
  Ret (fold_left (fun acc id => N.lor acc (N.shiftl 1 (N.of_nat (default 0 (map_ s !! id))))) ids mask,
       fold_left (fun acc (ib : nat * bool) =>
                    N.lor acc (N.shiftl (N.b2n (snd ib)) (N.of_nat (default 0 (map_ s !! fst ib)))))
         (combine ids values) val) s.
Proof.
  revert values mask val. induction ids as [| id ids IH]; intros values mask val Hm Hl.
  - destruct values; [reflexivity | discriminate].
  - destruct values as [| b values]; [discriminate |].
    simpl. unfold sbind, map_at.
    destruct (Hm id (or_introl eq_refl)) as [p Hp]. rewrite Hp.
    rewrite IH by (try (intros id' Hin; apply Hm; right; exact Hin); simpl in Hl; lia).
    reflexivity.
Qed.

Lemma mask_val_outcome (ids : list nat) (values : list bool) (s : Simulator) :
  (forall id, In id ids -> is_Some (map_ s !! id)) -> length ids = length values ->
  mask_val ids values 0%N 0%N s =
  Ret (outcome_mask (map_ s) ids, outcome_val (map_ s) ids values) s.
Proof. intros Hm Hl. rewrite mask_val_run by assumption. reflexivity. Qed.

Lemma project_scale_lookup (v : list complex_type) mask val scale k :
  k < length v ->
  project_scale v mask val scale !! k =
  Some (if matches k mask val then cscale (vat v k) scale else czero).
Proof.
  intros Hk. unfold project_scale.
  rewrite list_lookup_fmap, lookup_seq_lt by exact Hk. simpl.
  destruct (matches k mask val); reflexivity.
Qed.

(** C5.  [collapse_wavefunction ids values] throws exactly when the lengths
    differ, or an id is unmapped, or the probability [P] of the outcome
    ([(i & mask) == val]) is below the tolerance; it throws before touching
    the object.  Otherwise it zeroes the amplitudes outside the outcome and
    multiplies the others by [1 / sqrt P], and changes nothing else. *)
Theorem collapse_wavefunction_spec (s : Simulator) (ids : list nat) (values : list bool) :
  let mask := outcome_mask (map_ s) ids in
  let val := outcome_val (map_ s) ids values in
  let P := masked_norm (vec_ s) mask val in
  (length ids <> length values ->
     exists e, collapse_wavefunction ids values s = Throw e s) /\
  (length ids = length values -> (exists id, In id ids /\ map_ s !! id = None) ->
     exists e, collapse_wavefunction ids values s = Throw e s) /\
  (length ids = length values -> (forall id, In id ids -> is_Some (map_ s !! id)) ->
     (P < default_tol_)%R ->
     exists e, collapse_wavefunction ids values s = Throw e s) /\
  (length ids = length values -> (forall id, In id ids -> is_Some (map_ s !! id)) ->
     ~ (P < default_tol_)%R ->
     exists s', collapse_wavefunction ids values s = Ret tt s' /\
       N_ s' = N_ s /\ map_ s' = map_ s /\ length (vec_ s') = length (vec_ s) /\
       forall k, k < length (vec_ s) ->
         vec_ s' !! k =
           Some (if matches k mask val then cscale (vat (vec_ s) k) (1 / sqrt P) else czero)).
Proof.
  intros mask val P.
  unfold collapse_wavefunction. rewrite sbind_sget.
  split; [| split; [| split]].
  - intros Hl. apply Nat.eqb_neq in Hl. rewrite Hl. eexists. reflexivity.
  - intros Hl [id [Hin Hnone]]. apply Nat.eqb_eq in Hl. rewrite Hl. cbn [negb].
    destruct (check_ids (map_ s) ids) eqn:Hc.
    + pose proof (proj1 (check_ids_spec _ _) Hc) as Hc'. destruct (Hc' id Hin) as [p Hp]. congruence.
    + eexists. reflexivity.
  - intros Hl Hm HP. pose proof Hl as Hl'. apply Nat.eqb_eq in Hl. rewrite Hl. cbn [negb].
    replace (check_ids (map_ s) ids) with true by (symmetry; apply (proj2 (check_ids_spec _ _)); exact Hm).
    cbn [negb]. unfold sbind at 1. rewrite mask_val_outcome by assumption.
    unfold sbind, sget, sthrow. fold mask val. fold P.
    unfold ltb. destruct (Rlt_dec P default_tol_); [| contradiction].
    eexists. reflexivity.
  - intros Hl Hm HP. pose proof Hl as Hl'. apply Nat.eqb_eq in Hl. rewrite Hl. cbn [negb].
    replace (check_ids (map_ s) ids) with true by (symmetry; apply (proj2 (check_ids_spec _ _)); exact Hm).
    cbn [negb]. unfold sbind at 1. rewrite mask_val_outcome by assumption.
    unfold sbind, sget, sput. fold mask val. fold P.
    unfold ltb. destruct (Rlt_dec P default_tol_); [contradiction |].
    eexists. split; [reflexivity |]. cbn [N_ map_ vec_ set_vec].
    split; [reflexivity |]. split; [reflexivity |]. split.
    + unfold project_scale. rewrite length_map, length_seq. reflexivity.
    + intros k Hk. rewrite project_scale_lookup by exact Hk.
      destruct (matches k mask val); reflexivity.
Qed.

(** ** C6: get_amplitude on id lists that are not permutations *)

(** C6 (failing input).  With one allocated qubit (id [0]), the id lists
    [[0; 7]] (7 unknown: the loop breaks there) and [[0; 0]] (a duplicate)
    are not permutations of the allocated ids, yet [get_amplitude] returns
    the amplitude at index 1 for both instead of throwing. *)
Theorem get_amplitude_non_permutation :
  map_ s_ket0 !! 7 = None /\
  get_amplitude [true; false] [0; 7] s_ket0 = Ret (vat (vec_ s_ket0) 1) s_ket0 /\
  get_amplitude [true; true] [0; 0] s_ket0 = Ret (vat (vec_ s_ket0) 1) s_ket0.
Proof. split; [| split]; reflexivity. Qed.

(** ** C4 and C8: set_wavefunction with a duplicated id *)

(** Two qubits, ids [0] and [1] at positions [0] and [1], in |00>. *)
Definition s_two : Simulator :=
  mkSim 2 [mkC 1 0; czero; czero; czero] (<[1 := 1]> {[0 := 0]}).

(** The basis state |01> (index 1). *)
Definition wf_two : list complex_type := [czero; mkC 1 0; czero; czero].

(** C4 (failing input).  The ordering [[0; 0]] repeats id [0] and omits the
    allocated id [1]; [set_wavefunction] accepts it (its size and
    membership checks pass), overwrites the vector and maps both ids to
    position 1. *)
Theorem set_wavefunction_duplicate_ordering :
  exists s', set_wavefunction wf_two [0; 0] s_two = Ret tt s' /\
    vec_ s' = wf_two /\ map_ s' !! 0 = Some 1 /\ map_ s' !! 1 = Some 1.
Proof.
  destruct (set_wavefunction wf_two [0; 0] s_two) as [u s' | e s'] eqn:E;
    vm_compute in E; [| discriminate E].
  injection E as <- <-. eexists. split; [reflexivity |].
  repeat split; vm_compute; reflexivity.
Qed.

(** C8 (failing input).  Starting from a state whose map is a bijection onto
    [{0, 1}], two operations complete without error and leave a map that is
    not: [set_wavefunction] with the ordering [[0; 0]] (two ids at position
    1, none at 0), and [measure_qubits] on the unknown id [5], whose
    [map_[5]] read inserts [5] at position 0, shared with id [0]. *)
Theorem qubit_map_not_bijective_after :
  (map_ s_two !! 0 = Some 0 /\ map_ s_two !! 1 = Some 1 /\ map_size (map_ s_two) = 2) /\
  (exists s', set_wavefunction wf_two [0; 0] s_two = Ret tt s' /\
     map_ s' !! 0 = Some 1 /\ map_ s' !! 1 = Some 1 /\ N_ s' = 2) /\
  (exists res s', measure_qubits [5] (1 / 2)%R s_two = Ret res s' /\
     map_ s' !! 5 = Some 0 /\ map_ s' !! 0 = Some 0 /\ map_size (map_ s') = 3 /\ N_ s' = 2).
Proof.
  split; [repeat split; vm_compute; reflexivity |]. split.
  - destruct (set_wavefunction wf_two [0; 0] s_two) as [u s' | e s'] eqn:E;
      vm_compute in E; [| discriminate E].
    injection E as <- <-. eexists. split; [reflexivity |].
    repeat split; vm_compute; reflexivity.
  - unfold measure_qubits, sbind at 1.
    destruct (positions_of [5] s_two) as [ps s1 | e s1] eqn:E;
      vm_compute in E; [| discriminate E].
    injection E as <- <-. eexists _, _. split; [reflexivity |].
    repeat split; vm_compute; reflexivity.
Qed.

(** ** C3: the scheduling policy of apply_controlled_gate *)

Lemma size_t_sub_small a b :
  b <= a -> (N.of_nat a < size_t_mod)%N -> Fusion.size_t_sub a b = N.of_nat (a - b).
Proof.
  intros Hba Ha. unfold Fusion.size_t_sub.
  replace (N.of_nat a + size_t_mod - N.of_nat b)%N
    with (N.of_nat (a - b) + 1 * size_t_mod)%N by lia.
  rewrite N.Div0.mod_add. apply N.mod_small. lia.
Qed.

Section FusionPolicy.
Context {Matrix Buffer Wave : Type}.
Context (insert : Buffer -> Matrix -> list nat -> list nat -> Buffer).
Context (num_qubits : Buffer -> nat) (empty : Buffer).
Context (apply_fused : Buffer -> Wave -> Wave).

(** C3 (as the code has it).  With [F' = F.insert(m, ids, ctrl)]: if
    [min <= F'.num_qubits() <= max], [F'] is committed and flushed;
    else if [F'.num_qubits() > max] or
    [F'.num_qubits() - ids.size() > F.num_qubits()] (64-bit unsigned
    subtraction), [F] is flushed first and the gate is inserted into the
    emptied buffer; otherwise [F'] is committed without flushing. *)
Theorem apply_controlled_gate_policy (qmin qmax : nat) (m : Matrix)
    (ids ctrl : list nat) (F : Buffer) (W : Wave) :
  let F' := insert F m ids ctrl in
  let r := Fusion.apply_controlled_gate insert num_qubits empty apply_fused
             qmin qmax m ids ctrl (Fusion.mkSched F W) in
  (qmin <= num_qubits F' <= qmax ->
     r = Fusion.mkSched empty (apply_fused F' W)) /\
  (~ (qmin <= num_qubits F' <= qmax) ->
   (qmax < num_qubits F' \/
    (N.of_nat (num_qubits F) < Fusion.size_t_sub (num_qubits F') (length ids))%N) ->
     r = Fusion.mkSched (insert empty m ids ctrl) (apply_fused F W)) /\
  (~ (qmin <= num_qubits F' <= qmax) ->
   ~ (qmax < num_qubits F' \/
      (N.of_nat (num_qubits F) < Fusion.size_t_sub (num_qubits F') (length ids))%N) ->
     r = Fusion.mkSched F' W).
Proof.
  intros F' r. unfold r, Fusion.apply_controlled_gate, Fusion.run. cbn [Fusion.fused_gates_ Fusion.wave].
  fold F'.
  destruct ((qmin <=? num_qubits F') && (num_qubits F' <=? qmax)) eqn:E1.
  - apply andb_true_iff in E1 as [E1 E2].
    apply Nat.leb_le in E1. apply Nat.leb_le in E2.
    split; [reflexivity |]. split; intros Hn; exfalso; apply Hn; lia.
  - assert (Hn : ~ (qmin <= num_qubits F' <= qmax)).
    { intros [H1 H2]. apply Nat.leb_le in H1. apply Nat.leb_le in H2.
      rewrite H1, H2 in E1. discriminate. }
    split; [intros H; contradiction |].
    destruct ((qmax <? num_qubits F')
              || (N.of_nat (num_qubits F) <? Fusion.size_t_sub (num_qubits F') (length ids))%N) eqn:E2.
    + split; [reflexivity |]. intros _ Hc. exfalso. apply Hc.
      apply orb_true_iff in E2 as [E2 | E2]; [left; apply Nat.ltb_lt | right; apply N.ltb_lt];
        exact E2.
    + apply orb_false_iff in E2 as [E2 E3].
      split; [| reflexivity]. intros _ [Hc | Hc].
      * apply Nat.ltb_ge in E2. lia.
      * apply N.ltb_ge in E3. lia.
Qed.
End FusionPolicy.

(** C3 (counterexample).  The pending buffer holds one gate on qubit 0 and
    a gate on qubits 1 and 2 arrives, with [min = 4] and [max = 5]: the
    tentative composite has 3 targets, outside [[4, 5]]; the new gate adds
    2 targets, more than the 1 the buffer held.  The claim has the buffer
    flushed and the gate inserted alone; the code commits the grown buffer
    without flushing ([3 - 2 > 1] is false). *)
Lemma apply_controlled_gate_small_gate :
  let F := [Fusion.mkGate [] [0] []] in
  let F' := Fusion.buffer_insert F [] [1; 2] [] in
  ~ (4 <= Fusion.buffer_num_qubits F' <= 5) /\
  Fusion.buffer_num_qubits F' - Fusion.buffer_num_qubits F > Fusion.buffer_num_qubits F /\
  length [1; 2] > Fusion.buffer_num_qubits F /\
  Fusion.apply_controlled_gate Fusion.buffer_insert Fusion.buffer_num_qubits []
    Fusion.flush_log 4 5 [] [1; 2] [] (Fusion.mkSched F []) = Fusion.mkSched F' [] /\
  Fusion.mkSched F' [] <>
  Fusion.mkSched (Fusion.buffer_insert [] [] [1; 2] []) (Fusion.flush_log F []).
Proof.
  intros F F'. vm_compute. split; [lia |]. split; [lia |]. split; [lia |].
  split; [reflexivity | discriminate].
Qed.

(** * Instances of the theorems on concrete states *)

Lemma s_two_positions : forall i p, map_ s_two !! i = Some p -> p < 2.
Proof.
  intros i p H. cbn [map_ s_two] in H. rewrite lookup_insert in H. case_decide.
  - injection H as <-. lia.
  - rewrite lookup_singleton in H. case_decide; [injection H as <-; lia | discriminate].
Qed.

Lemma allocate_qubit_spec_witness :
  length (vec_ s_ket0) = 2 ^ N_ s_ket0 /\ map_ s_ket0 !! 3 = None /\
  exists s', allocate_qubit 3 s_ket0 = Ret tt s' /\ N_ s' = 2 /\ length (vec_ s') = 4.
Proof.
  split; [reflexivity |]. split; [vm_compute; reflexivity |].
  destruct (proj2 (allocate_qubit_spec s_ket0 3 eq_refl) ltac:(vm_compute; reflexivity))
    as [s' [H1 [_ [H2 [H3 _]]]]].
  exists s'. split; [exact H1 |]. rewrite H3, H2. split; reflexivity.
Defined.

Lemma collapse_vector_keep_spec_witness :
  map_ s_two !! 1 = Some 1 /\ 1 < N_ s_two /\ length (vec_ s_two) = 2 ^ N_ s_two /\
  exists s', collapse_vector 1 true false s_two = Ret tt s' /\ vec_ s' !! 0 = Some czero.
Proof.
  split; [vm_compute; reflexivity |]. split; [simpl; lia |]. split; [reflexivity |].
  destruct (collapse_vector_keep_spec s_two 1 1 true
              ltac:(vm_compute; reflexivity) ltac:(simpl; lia) eq_refl)
    as [s' [H1 [_ [_ [_ H2]]]]].
  exists s'. split; [exact H1 |]. rewrite H2 by (simpl; lia). reflexivity.
Defined.

Lemma deallocate_qubit_spec_witness :
  (default_tol_ < cnorm (vat (vec_ s_two) 0))%R /\
  exists (value : bool) s', deallocate_qubit 0 s_two = Ret tt s' /\ N_ s' = 1 /\
    length (vec_ s') = 2.
Proof.
  assert (Hm : (default_tol_ < cnorm (vat (vec_ s_two) 0))%R)
    by (unfold default_tol_, cnorm; simpl; lra).
  split; [exact Hm |].
  assert (Hk : exists k, k < length (vec_ s_two) /\
                        (default_tol_ < cnorm (vat (vec_ s_two) k))%R)
    by (exists 0; split; [simpl; lia | exact Hm]).
  destruct (deallocate_qubit_spec s_two 0 s_two_positions eq_refl Hk) as [_ [_ H]].
  destruct (H 0 ltac:(vm_compute; reflexivity)) as [value [s' [H1 [_ [_ [H2 [H3 _]]]]]]].
  { intros [_ [k [Hkl [Hb Hmk]]]]. simpl in Hkl.
    destruct k as [| [| [| [| k]]]]; try discriminate Hb; try lia;
      unfold vat, cnorm, default_tol_ in Hmk; simpl in Hmk; lra. }
  exists value, s'. split; [exact H1 |]. rewrite H2, H3. split; reflexivity.
Defined.

Lemma measure_qubits_zero_draw_witness :
  (forall id p, map_ s_two !! id = Some p -> p < 64) /\
  exists s', measure_qubits [0; 1] 0%R s_two = Ret [true; true] s'.
Proof.
  assert (Hp : forall id p, map_ s_two !! id = Some p -> p < 64)
    by (intros id p H; apply s_two_positions in H; lia).
  split; [exact Hp |].
  destruct (measure_qubits_zero_draw s_two [0; 1] Hp) as [_ [_ H]]. exact H.
Defined.

Lemma collapse_wavefunction_spec_witness :
  (forall id, In id [0%nat] -> is_Some (map_ s_two !! id)) /\
  ~ (masked_norm (vec_ s_two) (outcome_mask (map_ s_two) [0%nat])
       (outcome_val (map_ s_two) [0%nat] [false]) < default_tol_)%R /\
  exists s', collapse_wavefunction [0%nat] [false] s_two = Ret tt s'.
Proof.
  assert (Hm : forall id, In id [0%nat] -> is_Some (map_ s_two !! id)).
  { intros id [<- | []]. exists 0%nat. vm_compute. reflexivity. }
  assert (Hp : ~ (masked_norm (vec_ s_two) (outcome_mask (map_ s_two) [0%nat])
                    (outcome_val (map_ s_two) [0%nat] [false]) < default_tol_)%R).
  { replace (outcome_mask (map_ s_two) [0%nat]) with 1%N by (vm_compute; reflexivity).
    replace (outcome_val (map_ s_two) [0%nat] [false]) with 0%N by (vm_compute; reflexivity).
    unfold masked_norm, default_tol_. simpl. unfold cnorm. simpl. lra. }
  split; [exact Hm |]. split; [exact Hp |].
  pose proof (collapse_wavefunction_spec s_two [0%nat] [false]) as H.
  cbv zeta in H. destruct H as [_ [_ [_ H]]].
  destruct (H eq_refl Hm Hp) as [s' [H1 _]]. exists s'. exact H1.
Defined.

(** * Further properties of the engine *)

(** ** Sums of squared moduli *)

(** [csum c f l]: the sum of [f i] over the [i] of [l] with [c i]. *)
Definition csum (c : nat -> bool) (f : nat -> R) (l : list nat) : R :=
  fold_right (fun i acc => if c i then (f i + acc)%R else acc) 0%R l.

(** The squared norm [sum_i |W[i]|^2] of a vector. *)
Definition sum_norm (v : list complex_type) : R :=
  csum (fun _ => true) (fun i => cnorm (vat v i)) (seq 0 (length v)).

Lemma fold_cond_sum (c : nat -> bool) (f : nat -> R) l a :
  fold_left (fun acc i => if c i then (acc + f i)%R else acc) l a = (a + csum c f l)%R.
Proof.
  revert a. induction l as [| i l IH]; intros a; simpl; [ring |].
  destruct (c i); rewrite IH; ring.
Qed.

Lemma masked_norm_csum (v : list complex_type) mask val :
  masked_norm v mask val =
  csum (fun i => matches i mask val) (fun i => cnorm (vat v i)) (seq 0 (length v)).
Proof.
  unfold masked_norm.
  rewrite (fold_cond_sum (fun i => matches i mask val) (fun i => cnorm (vat v i))). ring.
Qed.

Lemma csum_ext (c c' : nat -> bool) (f f' : nat -> R) l :
  (forall i, In i l -> c i = c' i) -> (forall i, In i l -> c i = true -> f i = f' i) ->
  csum c f l = csum c' f' l.
Proof.
  induction l as [| i l IH]; intros Hc Hf; simpl; [reflexivity |].
  rewrite <- (Hc i (or_introl eq_refl)).
  rewrite IH; [| intros j Hj; apply Hc; right; exact Hj | intros j Hj; apply Hf; right; exact Hj].
  destruct (c i) eqn:E; [| reflexivity].
  rewrite (Hf i (or_introl eq_refl) E). reflexivity.
Qed.

Lemma csum_split (c : nat -> bool) (f : nat -> R) l :
  (csum c f l + csum (fun i => negb (c i)) f l)%R = csum (fun _ => true) f l.
Proof.
  induction l as [| i l IH]; simpl; [ring |].
  destruct (c i); simpl; rewrite <- IH; ring.
Qed.

Lemma csum_scale (c : nat -> bool) (f : nat -> R) k l :
  csum c (fun i => (k * f i)%R) l = (k * csum c f l)%R.
Proof.
  induction l as [| i l IH]; simpl; [ring |].
  destruct (c i); rewrite IH; ring.
Qed.

(** Terms outside [c] that vanish do not count. *)
Lemma csum_all (c : nat -> bool) (f : nat -> R) l :
  (forall i, In i l -> c i = false -> f i = 0%R) ->
  csum c f l = csum (fun _ => true) f l.
Proof.
  induction l as [| i l IH]; intros H; simpl; [reflexivity |].
  rewrite IH by (intros j Hj; apply H; right; exact Hj).
  destruct (c i) eqn:E; [reflexivity |].
  rewrite (H i (or_introl eq_refl) E). ring.
Qed.

Lemma cnorm_cscale a x : cnorm (cscale a x) = (cnorm a * (x * x))%R.
Proof. unfold cnorm, cscale; simpl. ring. Qed.

Lemma cnorm_czero : cnorm czero = 0%R.
Proof. unfold cnorm, czero; simpl. ring. Qed.

Lemma cnorm_nonneg a : (0 <= cnorm a)%R.
Proof. unfold cnorm. nra. Qed.

Lemma inv_sqrt_sq P : (0 < P)%R -> ((1 / sqrt P) * (1 / sqrt P))%R = (1 / P)%R.
Proof.
  intros HP. pose proof (sqrt_lt_R0 P HP) as Hs.
  rewrite <- (sqrt_sqrt P) at 3 by lra. field. lra.
Qed.

(** After [zero out outside (mask, val)] and [scale by 1 / sqrt P], where [P]
    is the mass inside, the vector has squared norm 1 and all of it inside. *)
Lemma project_norm (v w : list complex_type) mask val :
  let P := masked_norm v mask val in
  (0 < P)%R -> length w = length v ->
  (forall k, k < length v ->
     vat w k = if matches k mask val then cscale (vat v k) (1 / sqrt P) else czero) ->
  sum_norm w = 1%R /\ masked_norm w mask val = 1%R.
Proof.
  intros P HP Hl Hw.
  assert (Hin : masked_norm w mask val = 1%R).
  { rewrite masked_norm_csum, Hl.
    rewrite (csum_ext _ (fun i => matches i mask val) _ (fun i => (1 / P * cnorm (vat v i))%R))
      by (try reflexivity; intros i Hi E; apply in_seq in Hi;
          rewrite Hw, E, cnorm_cscale, inv_sqrt_sq by (lia || exact HP); ring).
    rewrite csum_scale, <- masked_norm_csum. fold P. field. lra. }
  split; [| exact Hin].
  rewrite <- Hin, masked_norm_csum. unfold sum_norm. symmetry.
  apply csum_all. intros i Hi E. apply in_seq in Hi.
  rewrite Hw, E by lia. apply cnorm_czero.
Qed.

(** ** get_probability *)

Lemma probability_loop_run (s : Simulator) ids :
  (forall id, In id ids -> is_Some (map_ s !! id)) ->
  forall (pre bs : list bool) mask bit_str, length bs = length ids ->
  probability_loop (pre ++ bs) (length pre) ids mask bit_str s =
  Ret (fold_left (fun acc id => N.lor acc (N.shiftl 1 (N.of_nat (default 0 (map_ s !! id))))) ids mask,
       fold_left (fun acc (ib : nat * bool) =>
                    N.lor acc (N.shiftl (N.b2n (snd ib)) (N.of_nat (default 0 (map_ s !! fst ib)))))
         (combine ids bs) bit_str) s.
Proof.
  induction ids as [| id ids IH]; intros Hm pre bs mask bit_str Hl.
  - destruct bs; [reflexivity | discriminate].
  - destruct bs as [| b bs]; [discriminate |].
    simpl. unfold sbind, map_at.
    destruct (Hm id (or_introl eq_refl)) as [p Hp]. rewrite Hp.
    rewrite nth_middle.
    replace (pre ++ b :: bs) with ((pre ++ [b]) ++ bs) by (rewrite <- app_assoc; reflexivity).
    replace (S (length pre)) with (length (pre ++ [b])) by (rewrite length_app; simpl; lia).
    rewrite IH by (try (intros id' Hin; apply Hm; right; exact Hin); simpl in Hl; lia).
    cbn [default fst snd]. destruct b; reflexivity.
Qed.

Lemma get_probability_run (s : Simulator) (bits : list bool) (ids : list nat) :
  (forall id, In id ids -> is_Some (map_ s !! id)) -> length bits = length ids ->
  get_probability bits ids s =
  Ret (masked_norm (vec_ s) (outcome_mask (map_ s) ids) (outcome_val (map_ s) ids bits)) s.
Proof.
  intros Hm Hl. unfold get_probability. rewrite sbind_sget.
  replace (check_ids (map_ s) ids) with true
    by (symmetry; apply (proj2 (check_ids_spec _ _)); exact Hm).
  cbn [negb]. unfold sbind at 1.
  pose proof (probability_loop_run s ids Hm [] bits 0%N 0%N Hl) as H. simpl in H.
  rewrite H. reflexivity.
Qed.

(** ** collapse_wavefunction, run to its end *)

Lemma collapse_wavefunction_run (s : Simulator) (ids : list nat) (values : list bool) :
  length ids = length values -> (forall id, In id ids -> is_Some (map_ s !! id)) ->
  let P := masked_norm (vec_ s) (outcome_mask (map_ s) ids) (outcome_val (map_ s) ids values) in
  collapse_wavefunction ids values s =
  if ltb P default_tol_ then
    Throw (runtime_error "collapse_wavefunction(): Invalid collapse! Probability is ~0.")%string s
  else
    Ret tt (set_vec (project_scale (vec_ s) (outcome_mask (map_ s) ids)
                       (outcome_val (map_ s) ids values) (1 / sqrt P)) s).
Proof.
  intros Hl Hm P. unfold collapse_wavefunction. rewrite sbind_sget.
  apply Nat.eqb_eq in Hl. rewrite Hl. cbn [negb].
  replace (check_ids (map_ s) ids) with true
    by (symmetry; apply (proj2 (check_ids_spec _ _)); exact Hm).
  cbn [negb]. unfold sbind at 1. rewrite mask_val_outcome by (try apply Nat.eqb_eq; assumption).
  unfold sbind, sget, sput, sthrow. unfold P. destruct (ltb _ _); reflexivity.
Qed.

(** ** The outcome selected by a mask and a value *)

(** Bit [M[ids_j]] of [i] equals [bits_j] for every [j]: the basis state [i]
    agrees with the outcome [bits] on the qubits [ids]. *)
Definition outcome_holds (m : gmap nat nat) (ids : list nat) (bits : list bool) (i : nat) : bool :=
  forallb (fun j => Bool.eqb (Nat.testbit i (default 0 (m !! nth j ids 0))) (nth j bits false))
    (seq 0 (length ids)).

Lemma N_testbit_of_nat i q : N.testbit (N.of_nat i) (N.of_nat q) = Nat.testbit i q.
Proof.
  pose proof (Nat.testbit_spec' i q) as H1.
  pose proof (N.testbit_spec' (N.of_nat i) (N.of_nat q)) as H2.
  apply (f_equal N.of_nat) in H1.
  rewrite Nat2N.inj_mod, Nat2N.inj_div, Nat2N.inj_pow in H1. change (N.of_nat 2) with 2%N in H1.
  rewrite <- H2 in H1.
  destruct (Nat.testbit i q), (N.testbit (N.of_nat i) (N.of_nat q)); try reflexivity; discriminate H1.
Qed.

Lemma testbit_shiftl_1 p n : N.testbit (N.shiftl 1 p) n = (p =? n)%N.
Proof. rewrite N.shiftl_1_l. apply N.pow2_bits_eqb. Qed.

Lemma testbit_shiftl_b2n (b : bool) p n : N.testbit (N.shiftl (N.b2n b) p) n = (b && (p =? n))%N.
Proof.
  destruct b; simpl.
  - apply testbit_shiftl_1.
  - reflexivity.
Qed.

Lemma combine_nth_seq (ids : list nat) (bits : list bool) :
  length bits = length ids ->
  combine ids bits = map (fun j => (nth j ids 0, nth j bits false)) (seq 0 (length ids)).
Proof.
  revert bits. induction ids as [| id ids IH]; intros bits Hl; [reflexivity |].
  destruct bits as [| b bits]; [discriminate |]. simpl.
  rewrite IH by (simpl in Hl; lia). f_equal.
  rewrite <- seq_shift, map_map. reflexivity.
Qed.

Lemma ids_nth_seq (ids : list nat) : ids = map (fun j => nth j ids 0) (seq 0 (length ids)).
Proof.
  induction ids as [| id ids IH]; [reflexivity |]. simpl. f_equal.
  rewrite <- seq_shift, map_map. exact IH.
Qed.

Lemma existsb_map' {A B} (f : B -> bool) (g : A -> B) (l : list A) :
  existsb f (map g l) = existsb (fun x => f (g x)) l.
Proof. induction l as [| x l IH]; simpl; [reflexivity | rewrite IH; reflexivity]. Qed.

Lemma testbit_outcome_mask (m : gmap nat nat) ids n :
  N.testbit (outcome_mask m ids) n =
  existsb (fun j => N.eqb (N.of_nat (default 0 (m !! nth j ids 0))) n) (seq 0 (length ids)).
Proof.
  unfold outcome_mask.
  assert (H : forall acc, N.testbit (fold_left (fun acc id =>
            N.lor acc (N.shiftl 1 (N.of_nat (default 0 (m !! id))))) ids acc) n =
          N.testbit acc n || existsb (fun id => N.eqb (N.of_nat (default 0 (m !! id))) n) ids).
  { induction ids as [| id ids IH]; intros acc; simpl; [rewrite orb_false_r; reflexivity |].
    rewrite IH, N.lor_spec, testbit_shiftl_1, orb_assoc. reflexivity. }
  rewrite H. simpl. rewrite (ids_nth_seq ids) at 1. rewrite existsb_map'. reflexivity.
Qed.

Lemma testbit_outcome_val (m : gmap nat nat) ids bits n :
  length bits = length ids ->
  N.testbit (outcome_val m ids bits) n =
  existsb (fun j => nth j bits false && N.eqb (N.of_nat (default 0 (m !! nth j ids 0))) n)
    (seq 0 (length ids)).
Proof.
  intros Hl. unfold outcome_val.
  assert (H : forall (l : list (nat * bool)) acc,
    N.testbit (fold_left (fun acc (ib : nat * bool) =>
       N.lor acc (N.shiftl (N.b2n (snd ib)) (N.of_nat (default 0 (m !! fst ib))))) l acc) n =
    N.testbit acc n || existsb (fun ib => snd ib && N.eqb (N.of_nat (default 0 (m !! fst ib))) n) l).
  { induction l as [| [id b] l IH]; intros acc; simpl; [rewrite orb_false_r; reflexivity |].
    rewrite IH, N.lor_spec, testbit_shiftl_b2n, orb_assoc. reflexivity. }
  rewrite H. simpl. rewrite combine_nth_seq by exact Hl. rewrite existsb_map'. reflexivity.
Qed.

(** With distinct positions, [(i & mask) == val] says exactly that [i]
    agrees with the outcome on every queried qubit. *)
Lemma matches_outcome (m : gmap nat nat) (ids : list nat) (bits : list bool) i :
  NoDup (map (fun id => default 0 (m !! id)) ids) -> length bits = length ids ->
  matches i (outcome_mask m ids) (outcome_val m ids bits) = outcome_holds m ids bits i.
Proof.
  intros Hnd Hl.
  set (p := fun j => default 0 (m !! nth j ids 0)).
  assert (Huniq : forall j1 j2, j1 < length ids -> j2 < length ids -> p j1 = p j2 -> j1 = j2).
  { intros j1 j2 H1 H2 Heq. apply NoDup_ListNoDup in Hnd.
    pose proof (proj1 (List.NoDup_nth _ (default 0 (m !! 0))) Hnd) as Hn.
    apply (Hn j1 j2); rewrite ?length_map; try assumption.
    assert (E : forall j, nth j (map (fun id => default 0 (m !! id)) ids) (default 0 (m !! 0)) =
                          default 0 (m !! nth j ids 0)).
    { intros j. apply (map_nth (fun id => default 0 (m !! id))). }
    rewrite !E. exact Heq. }
  assert (Hval : forall j, j < length ids ->
            N.testbit (outcome_val m ids bits) (N.of_nat (p j)) = nth j bits false).
  { intros j Hj. rewrite testbit_outcome_val by exact Hl.
    destruct (nth j bits false) eqn:Eb.
    - apply existsb_exists. exists j. split; [apply in_seq; lia |].
      rewrite Eb. simpl. apply N.eqb_eq. reflexivity.
    - apply not_true_iff_false. intros Hex. apply existsb_exists in Hex as [j' [Hj' He]].
      apply in_seq in Hj'. apply andb_prop in He as [Hb Hp].
      apply N.eqb_eq, Nat2N.inj in Hp. fold (p j') in Hp.
      assert (j' = j) as -> by (apply Huniq; lia || exact Hp). congruence. }
  unfold matches, outcome_holds.
  destruct (forallb _ (seq 0 (length ids))) eqn:Ef.
  - apply N.eqb_eq. apply N.bits_inj. intros n. rewrite N.land_spec.
    rewrite forallb_forall in Ef.
    destruct (N.testbit (outcome_mask m ids) n) eqn:Em.
    + rewrite testbit_outcome_mask in Em. apply existsb_exists in Em as [j [Hj He]].
      apply N.eqb_eq in He. subst n. apply in_seq in Hj.
      specialize (Ef j ltac:(apply in_seq; lia)). apply Bool.eqb_prop in Ef.
      rewrite andb_true_r. fold (p j). rewrite Hval by lia. rewrite N_testbit_of_nat.
      exact Ef.
    + rewrite andb_false_r. symmetry. apply not_true_iff_false. intros Hv.
      rewrite testbit_outcome_val in Hv by exact Hl. apply existsb_exists in Hv as [j [Hj He]].
      apply andb_prop in He as [_ He].
      assert (Hm : N.testbit (outcome_mask m ids) n = true).
      { rewrite testbit_outcome_mask. apply existsb_exists. exists j. split; assumption. }
      congruence.
  - apply not_true_iff_false. intros Hmt. apply N.eqb_eq in Hmt.
    apply not_true_iff_false in Ef. apply Ef. apply forallb_forall. intros j Hj.
    apply in_seq in Hj. apply Bool.eqb_true_iff.
    assert (Hb := f_equal (fun x => N.testbit x (N.of_nat (p j))) Hmt). cbn beta in Hb.
    rewrite N.land_spec, Hval in Hb by lia.
    assert (Hm : N.testbit (outcome_mask m ids) (N.of_nat (p j)) = true).
    { rewrite testbit_outcome_mask. apply existsb_exists. exists j.
      split; [apply in_seq; lia | apply N.eqb_eq; reflexivity]. }
    rewrite Hm, andb_true_r, N_testbit_of_nat in Hb. exact Hb.
Qed.

Lemma forallb_ext_in' {A} (f g : A -> bool) (l : list A) :
  (forall x, In x l -> f x = g x) -> forallb f l = forallb g l.
Proof.
  induction l as [| x l IH]; intros H; simpl; [reflexivity |].
  rewrite (H x (or_introl eq_refl)), IH by (intros y Hy; apply H; right; exact Hy).
  reflexivity.
Qed.

Lemma outcome_holds_snoc (m : gmap nat nat) ids bits id b i :
  length bits = length ids ->
  outcome_holds m (ids ++ [id]) (bits ++ [b]) i =
  outcome_holds m ids bits i && Bool.eqb (Nat.testbit i (default 0 (m !! id))) b.
Proof.
  intros Hl. unfold outcome_holds.
  rewrite length_app, seq_app, forallb_app. simpl.
  rewrite nth_middle. rewrite <- Hl, nth_middle, andb_true_r. f_equal.
  apply forallb_ext_in'. intros j Hj. apply in_seq in Hj.
  rewrite !app_nth1 by lia. reflexivity.
Qed.

(** The probability of an outcome, with distinct positions, as a sum over
    the basis states that agree with it. *)
Lemma get_probability_csum (s : Simulator) bits ids :
  length bits = length ids -> check_ids (map_ s) ids = true ->
  NoDup (map (fun id => default 0 (map_ s !! id)) ids) ->
  get_probability bits ids s =
  Ret (csum (outcome_holds (map_ s) ids bits) (fun i => cnorm (vat (vec_ s) i))
         (seq 0 (length (vec_ s)))) s.
Proof.
  intros Hl Hc Hnd.
  rewrite get_probability_run by (try apply check_ids_spec; assumption).
  rewrite masked_norm_csum. f_equal.
  apply csum_ext; [| reflexivity].
  intros i _. apply matches_outcome; assumption.
Qed.

Lemma csum_and_split (c d : nat -> bool) (f : nat -> R) l :
  (csum (fun i => c i && d i) f l + csum (fun i => c i && negb (d i)) f l)%R = csum c f l.
Proof.
  induction l as [| i l IH]; simpl; [ring |].
  destruct (c i), (d i); simpl; rewrite <- IH; ring.
Qed.

Lemma ltb_true a b : ltb a b = true <-> (a < b)%R.
Proof. unfold ltb. destruct (Rlt_dec a b); split; auto; discriminate. Qed.

Lemma ltb_false a b : ltb a b = false <-> ~ (a < b)%R.
Proof. unfold ltb. destruct (Rlt_dec a b); split; auto; try discriminate; tauto. Qed.

(** ** Extra properties: get_probability and collapse_wavefunction *)

(** X1.  [get_probability bits ids] throws its "Unknown qubit id" error,
    leaving the object as it was, when some id is not mapped.  Otherwise,
    for as many bits as ids and distinct positions, it returns, leaving the
    object as it was, the sum of [|W[i]|^2] over the basis states [i] whose
    bit [M[ids_j]] is [bits_j] for every [j]. *)
Theorem get_probability_spec (s : Simulator) (bits : list bool) (ids : list nat) :
  (check_ids (map_ s) ids = false ->
   get_probability bits ids s =
   Throw (runtime_error
     "get_probability(): Unknown qubit id. Please make sure you have called eng.flush().")%string s) /\
  (length bits = length ids -> check_ids (map_ s) ids = true ->
   NoDup (map (fun id => default 0 (map_ s !! id)) ids) ->
   get_probability bits ids s =
   Ret (csum (outcome_holds (map_ s) ids bits) (fun i => cnorm (vat (vec_ s) i))
          (seq 0 (length (vec_ s)))) s).
Proof.
  split.
  - intros Hc. unfold get_probability. rewrite sbind_sget, Hc. reflexivity.
  - intros Hl Hc Hnd. apply get_probability_csum; assumption.
Qed.

(** X2.  Marginals: with distinct positions, the probabilities of [bits]
    extended by [false] and by [true] on one more qubit add up to the
    probability of [bits]. *)
Theorem get_probability_marginal (s : Simulator) (bits : list bool) (ids : list nat) (id : nat) :
  length bits = length ids -> check_ids (map_ s) (ids ++ [id]) = true ->
  NoDup (map (fun x => default 0 (map_ s !! x)) (ids ++ [id])) ->
  exists p p0 p1,
    get_probability bits ids s = Ret p s /\
    get_probability (bits ++ [false]) (ids ++ [id]) s = Ret p0 s /\
    get_probability (bits ++ [true]) (ids ++ [id]) s = Ret p1 s /\
    (p0 + p1)%R = p.
Proof.
  intros Hl Hc Hnd.
  assert (Hc' : check_ids (map_ s) ids = true).
  { unfold check_ids in *. rewrite forallb_app in Hc. apply andb_prop in Hc. tauto. }
  assert (Hnd' : NoDup (map (fun x => default 0 (map_ s !! x)) ids)).
  { rewrite map_app in Hnd. apply NoDup_app in Hnd. tauto. }
  assert (Hl' : forall b : bool, length (bits ++ [b]) = length (ids ++ [id]))
    by (intros b; rewrite !length_app; simpl; lia).
  do 3 eexists. split; [apply get_probability_csum; eassumption |].
  split; [apply get_probability_csum; [apply Hl' | exact Hc | exact Hnd] |].
  split; [apply get_probability_csum; [apply Hl' | exact Hc | exact Hnd] |].
  rewrite <- (csum_and_split (outcome_holds (map_ s) ids bits)
                (fun i => Nat.testbit i (default 0 (map_ s !! id)))).
  rewrite Rplus_comm. f_equal; apply csum_ext; try reflexivity;
    intros i _; rewrite outcome_holds_snoc by exact Hl;
    destruct (Nat.testbit i _); reflexivity.
Qed.

(** X3.  For as many values as mapped ids, [collapse_wavefunction] throws
    "Probability is ~0", leaving the object as it was, exactly when
    [get_probability values ids] is below the tolerance.  Otherwise it keeps
    the qubit count, the map and the vector length, and leaves a vector of
    squared norm 1 on which [get_probability values ids] is 1. *)
Theorem collapse_wavefunction_normalises (s : Simulator) (ids : list nat) (values : list bool) (p : R) :
  length ids = length values -> check_ids (map_ s) ids = true ->
  get_probability values ids s = Ret p s ->
  ((p < default_tol_)%R ->
   collapse_wavefunction ids values s =
   Throw (runtime_error "collapse_wavefunction(): Invalid collapse! Probability is ~0.")%string s) /\
  (~ (p < default_tol_)%R ->
   exists s', collapse_wavefunction ids values s = Ret tt s' /\
     N_ s' = N_ s /\ map_ s' = map_ s /\ length (vec_ s') = length (vec_ s) /\
     sum_norm (vec_ s') = 1%R /\ get_probability values ids s' = Ret 1%R s').
Proof.
  intros Hl Hc Hp. pose proof (proj1 (check_ids_spec _ _) Hc) as Hc0. clear Hc. rename Hc0 into Hc.
  rewrite get_probability_run in Hp by (try assumption; symmetry; assumption).
  injection Hp as Hp. subst p.
  rewrite collapse_wavefunction_run by assumption.
  set (mask := outcome_mask (map_ s) ids). set (val := outcome_val (map_ s) ids values).
  set (P := masked_norm (vec_ s) mask val).
  split.
  - intros HP. apply ltb_true in HP. rewrite HP. reflexivity.
  - intros HP. pose proof HP as HP'. apply ltb_false in HP. rewrite HP.
    set (w := project_scale (vec_ s) mask val (1 / sqrt P)).
    assert (Hwl : length w = length (vec_ s))
      by (unfold w, project_scale; rewrite length_map, length_seq; reflexivity).
    assert (HPpos : (0 < P)%R) by (unfold default_tol_ in HP'; lra).
    destruct (project_norm (vec_ s) w mask val HPpos Hwl) as [Hn Hm].
    { intros k Hk. unfold vat at 1.
      rewrite (nth_lookup_Some w k czero _ (project_scale_lookup _ _ _ _ _ Hk)).
      reflexivity. }
    exists (set_vec w s). split; [reflexivity |].
    split; [reflexivity |]. split; [reflexivity |]. split; [exact Hwl |].
    split; [exact Hn |].
    rewrite get_probability_run by (try exact Hc; symmetry; exact Hl).
    cbn [vec_ map_ set_vec]. fold mask val. rewrite Hm. reflexivity.
Qed.

Lemma get_probability_spec_witness :
  get_probability [true] [5] s_two =
  Throw (runtime_error
    "get_probability(): Unknown qubit id. Please make sure you have called eng.flush().")%string s_two /\
  get_probability [false; true] [0; 1] s_two =
  Ret (csum (outcome_holds (map_ s_two) [0; 1] [false; true]) (fun i => cnorm (vat (vec_ s_two) i))
         (seq 0 4)) s_two.
Proof.
  destruct (get_probability_spec s_two [true] [5]) as [H1 _].
  destruct (get_probability_spec s_two [false; true] [0; 1]) as [_ H2].
  split; [apply H1; vm_compute; reflexivity |].
  apply H2; [reflexivity | vm_compute; reflexivity |].
  apply (bool_decide_unpack _). vm_compute. reflexivity.
Defined.

Lemma get_probability_marginal_witness :
  exists p p0 p1,
    get_probability [false] [0] s_two = Ret p s_two /\
    get_probability [false; false] [0; 1] s_two = Ret p0 s_two /\
    get_probability [false; true] [0; 1] s_two = Ret p1 s_two /\ (p0 + p1)%R = p.
Proof.
  destruct (get_probability_marginal s_two [false] [0] 1 eq_refl
              ltac:(vm_compute; reflexivity)
              ltac:(apply (bool_decide_unpack _); vm_compute; reflexivity))
    as [p [p0 [p1 [H [H0 [H1 H2]]]]]].
  exists p, p0, p1. repeat split; assumption.
Defined.

Lemma collapse_wavefunction_normalises_witness :
  get_probability [false] [0] s_two = Ret 1%R s_two /\ ~ (1 < default_tol_)%R /\
  exists s', collapse_wavefunction [0] [false] s_two = Ret tt s' /\
    sum_norm (vec_ s') = 1%R /\ get_probability [false] [0] s' = Ret 1%R s'.
Proof.
  assert (Hp : get_probability [false] [0] s_two = Ret 1%R s_two).
  { rewrite get_probability_run by (try reflexivity; apply check_ids_spec; vm_compute; reflexivity).
    f_equal. unfold masked_norm. vm_compute. ring. }
  assert (Ht : ~ (1 < default_tol_)%R) by (unfold default_tol_; lra).
  split; [exact Hp |]. split; [exact Ht |].
  destruct (collapse_wavefunction_normalises s_two [0] [false] 1%R eq_refl
              ltac:(vm_compute; reflexivity) Hp) as [_ H].
  destruct (H Ht) as [s' [H1 [_ [_ [_ [H2 H3]]]]]].
  exists s'. repeat split; assumption.
Defined.

(** ** measure_qubits with a draw in (0, total mass] *)

Lemma csum_seq_succ (c : nat -> bool) (f : nat -> R) a n :
  csum c f (seq a (S n)) = ((if c a then f a else 0) + csum c f (seq (S a) n))%R.
Proof. simpl. destruct (c a); ring. Qed.

(** The scan [while (P < rnd && pick < size) P += |W[pick++]|^2], started
    below [rnd] with enough mass left to reach it, stops one past an index
    of positive mass. *)
Lemma pick_scan_hit (v : list complex_type) rnd fuel P pick :
  pick + fuel = length v -> (P < rnd)%R ->
  (rnd <= P + csum (fun _ => true) (fun i => cnorm (vat v i)) (seq pick fuel))%R ->
  exists k, pick <= k < length v /\ pick_scan v rnd fuel P pick = S k /\
            (0 < cnorm (vat v k))%R.
Proof.
  revert P pick. induction fuel as [| fuel IH]; intros P pick Hf HP Hr.
  - simpl in Hr. lra.
  - rewrite csum_seq_succ in Hr. simpl in Hr.
    simpl. replace (ltb P rnd) with true by (symmetry; apply ltb_true; exact HP).
    replace (pick <? length v) with true by (symmetry; apply Nat.ltb_lt; lia). simpl.
    destruct (Rlt_dec (P + cnorm (vat v pick)) rnd) as [Hlt | Hge].
    + destruct (IH (P + cnorm (vat v pick))%R (S pick)) as [k [Hk [Hrun Hpos]]];
        [lia | exact Hlt | lra |].
      exists k. split; [lia |]. split; assumption.
    + exists pick. split; [lia |]. split; [| lra].
      destruct fuel as [| fuel]; [reflexivity |]. simpl.
      replace (ltb (P + cnorm (vat v pick)) rnd) with false
        by (symmetry; apply ltb_false; exact Hge).
      reflexivity.
Qed.

Lemma size_t_dec_succ k : (N.of_nat (S k) < size_t_mod)%N -> size_t_dec (N.of_nat (S k)) = N.of_nat k.
Proof.
  intros H. unfold size_t_dec.
  replace (N.of_nat (S k) + size_t_mod - 1)%N with (N.of_nat k + size_t_mod)%N by lia.
  rewrite N.Div0.add_mod, N.Div0.mod_same, N.add_0_r, N.Div0.mod_mod.
  apply N.mod_small. lia.
Qed.

Lemma decode_loop_fold pick ps res mask val :
  fold_left (decode_step pick) ps (res, mask, val) =
  (res ++ map (bit_at pick) ps,
   fold_left (fun acc p => N.lor acc (N.shiftl 1 (N.of_nat p))) ps mask,
   fold_left (fun acc p => N.lor acc (N.shiftl (N.b2n (bit_at pick p)) (N.of_nat p))) ps val).
Proof.
  revert res mask val. induction ps as [| p ps IH]; intros res mask val; simpl.
  - rewrite app_nil_r. reflexivity.
  - rewrite IH, <- app_assoc. reflexivity.
Qed.

Lemma outcome_mask_positions (m : gmap nat nat) ids :
  outcome_mask m ids =
  fold_left (fun acc p => N.lor acc (N.shiftl 1 (N.of_nat p)))
    (map (fun id => default 0 (m !! id)) ids) 0%N.
Proof.
  unfold outcome_mask. generalize 0%N.
  induction ids as [| id ids IH]; intros acc; simpl; [reflexivity |]. apply IH.
Qed.

Lemma outcome_val_positions (m : gmap nat nat) ids pick :
  outcome_val m ids (map (bit_at pick) (map (fun id => default 0 (m !! id)) ids)) =
  fold_left (fun acc p => N.lor acc (N.shiftl (N.b2n (bit_at pick p)) (N.of_nat p)))
    (map (fun id => default 0 (m !! id)) ids) 0%N.
Proof.
  unfold outcome_val. generalize 0%N.
  induction ids as [| id ids IH]; intros acc; simpl; [reflexivity |]. apply IH.
Qed.

(** The index [pick] itself lies in the outcome decoded from it. *)
Lemma decode_matches k ps :
  matches k (fold_left (fun acc p => N.lor acc (N.shiftl 1 (N.of_nat p))) ps 0%N)
    (fold_left (fun acc p => N.lor acc (N.shiftl (N.b2n (bit_at (N.of_nat k) p)) (N.of_nat p)))
       ps 0%N) = true.
Proof.
  unfold matches. apply N.eqb_eq. apply N.bits_inj. intros n. rewrite N.land_spec.
  assert (Hm : forall acc, N.testbit (fold_left (fun acc p => N.lor acc (N.shiftl 1 (N.of_nat p)))
                   ps acc) n = N.testbit acc n || existsb (fun p => N.eqb (N.of_nat p) n) ps).
  { induction ps as [| p ps IH]; intros acc; simpl; [rewrite orb_false_r; reflexivity |].
    rewrite IH, N.lor_spec, testbit_shiftl_1, orb_assoc. reflexivity. }
  assert (Hv : forall acc, N.testbit (fold_left (fun acc p =>
                   N.lor acc (N.shiftl (N.b2n (bit_at (N.of_nat k) p)) (N.of_nat p))) ps acc) n =
                 N.testbit acc n ||
                 existsb (fun p => bit_at (N.of_nat k) p && N.eqb (N.of_nat p) n) ps).
  { clear Hm. induction ps as [| p ps IH]; intros acc; simpl; [rewrite orb_false_r; reflexivity |].
    rewrite IH, N.lor_spec, testbit_shiftl_b2n, orb_assoc. reflexivity. }
  rewrite Hm, Hv. simpl. clear Hm Hv.
  induction ps as [| p ps IH]; simpl; [apply andb_false_r |].
  rewrite andb_orb_distrib_r, IH. f_equal.
  rewrite bit_at_testbit. destruct (N.eqb_spec (N.of_nat p) n) as [<- |].
  - rewrite !andb_true_r. reflexivity.
  - rewrite !andb_false_r. reflexivity.
Qed.

Lemma positions_of_known (ids : list nat) (s : Simulator) :
  check_ids (map_ s) ids = true ->
  positions_of ids s = Ret (map (fun id => default 0 (map_ s !! id)) ids) s.
Proof.
  intros Hc. pose proof (proj1 (check_ids_spec _ _) Hc) as Hm. clear Hc.
  induction ids as [| id ids IH]; [reflexivity |].
  simpl. unfold sbind at 1, map_at.
  destruct (Hm id (or_introl eq_refl)) as [p Hp]. rewrite Hp.
  unfold sbind. rewrite IH by (intros id' Hin; apply Hm; right; exact Hin).
  reflexivity.
Qed.

Lemma csum_ge_term (c : nat -> bool) (f : nat -> R) l k :
  (forall i, In i l -> (0 <= f i)%R) -> In k l -> c k = true -> (f k <= csum c f l)%R.
Proof.
  induction l as [| i l IH]; intros Hnn Hk Hc; [destruct Hk |].
  assert (Hrest : (0 <= csum c f l)%R).
  { clear IH Hk. induction l as [| j l IHl]; simpl; [lra |].
    assert (0 <= f j)%R by (apply Hnn; right; left; reflexivity).
    assert (0 <= csum c f l)%R by (apply IHl; intros x Hx; apply Hnn;
                                  destruct Hx as [<- | Hx]; [left | right; right]; auto).
    destruct (c j); lra. }
  simpl. destruct Hk as [<- | Hk].
  - rewrite Hc. lra.
  - assert (f k <= csum c f l)%R by (apply IH; auto; intros x Hx; apply Hnn; right; exact Hx).
    assert (0 <= f i)%R by (apply Hnn; left; reflexivity).
    destruct (c i); lra.
Qed.

Lemma zero_bad_scale_vat (v : list complex_type) mask val sc k :
  k < length v ->
  vat (map (fun a => cscale a sc) (zero_bad v mask val)) k =
  if matches k mask val then cscale (vat v k) sc else czero.
Proof.
  intros Hk. unfold vat at 1.
  assert (Hl : map (fun a => cscale a sc) (zero_bad v mask val) !! k =
               Some (cscale (if matches k mask val then vat v k else czero) sc)).
  { unfold zero_bad. rewrite !list_lookup_fmap, lookup_seq_lt by exact Hk. reflexivity. }
  rewrite (nth_lookup_Some _ k czero _ Hl).
  destruct (matches k mask val); [reflexivity |].
  unfold cscale, czero; simpl. f_equal; ring.
Qed.

(** X4.  On mapped ids, with fewer than [2^64] amplitudes and a draw [rnd]
    with [0 < rnd <= sum |W[i]|^2], [measure_qubits] reports one bit per
    id, keeps the qubit count, the map and the vector length, reports an
    outcome whose probability [get_probability] was positive before, and
    leaves a vector of squared norm 1 on which that outcome has
    probability 1. *)
Theorem measure_qubits_outcome (s : Simulator) (ids : list nat) (rnd : R) :
  check_ids (map_ s) ids = true -> (N.of_nat (length (vec_ s)) < size_t_mod)%N ->
  (0 < rnd)%R -> (rnd <= sum_norm (vec_ s))%R ->
  exists res s', measure_qubits ids rnd s = Ret res s' /\ length res = length ids /\
    N_ s' = N_ s /\ map_ s' = map_ s /\ length (vec_ s') = length (vec_ s) /\
    (exists p, get_probability res ids s = Ret p s /\ (0 < p)%R) /\
    sum_norm (vec_ s') = 1%R /\ get_probability res ids s' = Ret 1%R s'.
Proof.
  intros Hc Hlen Hr0 Hr.
  destruct (pick_scan_hit (vec_ s) rnd (length (vec_ s)) 0%R 0 eq_refl Hr0
              ltac:(rewrite Rplus_0_l; exact Hr)) as [k [Hk [Hrun Hpos]]].
  unfold measure_qubits, sbind at 1. rewrite positions_of_known by exact Hc.
  unfold sbind, sget. rewrite Hrun.
  rewrite size_t_dec_succ by lia.
  unfold decode_loop. rewrite decode_loop_fold. cbn [app].
  set (ps := map (fun id => default 0 (map_ s !! id)) ids).
  set (mask := fold_left (fun acc p => N.lor acc (N.shiftl 1 (N.of_nat p))) ps 0%N).
  set (val := fold_left (fun acc p =>
                N.lor acc (N.shiftl (N.b2n (bit_at (N.of_nat k) p)) (N.of_nat p))) ps 0%N).
  set (res := map (bit_at (N.of_nat k)) ps).
  set (P := masked_norm (vec_ s) mask val).
  set (w := map (fun a => cscale a (1 / sqrt P)) (zero_bad (vec_ s) mask val)).
  assert (Hres : length res = length ids) by (unfold res, ps; rewrite !length_map; reflexivity).
  assert (Hm : forall id, In id ids -> is_Some (map_ s !! id))
    by (apply (proj1 (check_ids_spec _ _)); exact Hc).
  assert (Hmask : outcome_mask (map_ s) ids = mask) by apply outcome_mask_positions.
  assert (Hval : outcome_val (map_ s) ids res = val) by apply outcome_val_positions.
  assert (HP : (0 < P)%R).
  { unfold P. rewrite masked_norm_csum.
    apply Rlt_le_trans with (cnorm (vat (vec_ s) k)); [exact Hpos |].
    apply (csum_ge_term _ (fun i => cnorm (vat (vec_ s) i)));
      [intros i _; apply cnorm_nonneg | apply in_seq; lia |].
    apply decode_matches. }
  assert (Hwl : length w = length (vec_ s))
    by (unfold w, zero_bad; rewrite !length_map, length_seq; reflexivity).
  destruct (project_norm (vec_ s) w mask val HP Hwl) as [Hn Hin].
  { intros j Hj. apply zero_bad_scale_vat. exact Hj. }
  exists res, (set_vec w s). split; [reflexivity |].
  split; [exact Hres |]. split; [reflexivity |]. split; [reflexivity |].
  split; [exact Hwl |].
  split.
  { exists P. split; [| exact HP].
    rewrite get_probability_run by (try exact Hm; exact Hres).
    rewrite Hmask, Hval. reflexivity. }
  split; [exact Hn |].
  rewrite get_probability_run by (try exact Hm; exact Hres).
  cbn [vec_ map_ set_vec]. rewrite Hmask, Hval. rewrite Hin. reflexivity.
Qed.

Lemma measure_qubits_outcome_witness :
  exists res s', measure_qubits [0; 1] (1 / 2)%R s_two = Ret res s' /\
    sum_norm (vec_ s') = 1%R /\ get_probability res [0; 1] s' = Ret 1%R s'.
Proof.
  destruct (measure_qubits_outcome s_two [0; 1] (1 / 2)%R
              ltac:(vm_compute; reflexivity) ltac:(vm_compute; reflexivity)
              ltac:(lra) ltac:(unfold sum_norm; simpl; unfold cnorm; simpl; lra))
    as [res [s' [H1 [_ [_ [_ [_ [_ [H2 H3]]]]]]]]].
  exists res, s'. repeat split; assumption.
Defined.

(** ** Extra properties: is_classical and get_classical_value *)

(** X5.  For a mapped id at position [pos] and a vector of [2 * 2^pos * K]
    amplitudes, [is_classical id tol] leaves the object as it was and
    returns true exactly when one of the qubit's two halves, and only one,
    holds an amplitude of squared modulus above [tol]. *)
Theorem is_classical_spec (s : Simulator) (id pos K : nat) (tol : R) :
  map_ s !! id = Some pos -> length (vec_ s) = 2 * 2 ^ pos * K ->
  exists c, is_classical id tol s = Ret c s /\
    (c = true <-> (has_mass (vec_ s) pos false tol /\ ~ has_mass (vec_ s) pos true tol) \/
                 (~ has_mass (vec_ s) pos false tol /\ has_mass (vec_ s) pos true tol)).
Proof.
  intros Hid Hsz.
  destruct (is_classical_loop_spec (vec_ s) pos K tol Hsz) as [up [down [Hl [Hu Hd]]]].
  exists (xorb up down). split.
  - unfold is_classical, sbind, map_at. rewrite Hid. unfold sget. rewrite Hl. reflexivity.
  - rewrite <- Hu, <- Hd.
    destruct up, down; simpl; intuition congruence.
Qed.

(** X6.  For a mapped id at position [pos] and a vector of [2 * 2^pos * K]
    amplitudes, [get_classical_value id tol] leaves the object as it was;
    it throws its internal error exactly when neither half of the qubit
    holds an amplitude above [tol], it otherwise returns a half that does,
    and when only one half does (what [is_classical] tests), it returns
    that half. *)
Theorem get_classical_value_spec (s : Simulator) (id pos K : nat) (tol : R) :
  map_ s !! id = Some pos -> length (vec_ s) = 2 * 2 ^ pos * K ->
  ((forall b, ~ has_mass (vec_ s) pos b tol) ->
   get_classical_value id tol s =
   Throw (runtime_error "Get classical value: internal error, should not have come here...")%string s) /\
  (forall b, has_mass (vec_ s) pos b tol ->
   exists b', get_classical_value id tol s = Ret b' s /\ has_mass (vec_ s) pos b' tol) /\
  (forall b, has_mass (vec_ s) pos b tol -> ~ has_mass (vec_ s) pos (negb b) tol ->
   get_classical_value id tol s = Ret b s).
Proof.
  intros Hid Hsz.
  set (v := vec_ s). set (its := loop2 (length v) (2 ^ pos)).
  assert (Hrun : get_classical_value id tol s =
                 match classical_scan v (2 ^ pos) tol its with
                 | Some b => Ret b s
                 | None => Throw (runtime_error
                     "Get classical value: internal error, should not have come here...")%string s
                 end).
  { unfold get_classical_value, sbind, map_at. rewrite Hid. unfold sget.
    destruct (classical_scan _ _ _ _); reflexivity. }
  assert (Hsome : forall b, classical_scan v (2 ^ pos) tol its = Some b -> has_mass v pos b tol).
  { intros b Hb. destruct (classical_scan_some v _ tol its b Hb) as [i [j [Hin Hm]]].
    destruct Hm as [[-> Hm] | [-> Hm]].
    - destruct (proj1 (loop2_reaches v pos K false (i + j) Hsz)) as [Hk Hbit].
      { exists i, j. split; [exact Hin | simpl; lia]. }
      exists (i + j). auto.
    - destruct (proj1 (loop2_reaches v pos K true (i + j + 2 ^ pos) Hsz)) as [Hk Hbit].
      { exists i, j. split; [exact Hin | simpl; lia]. }
      exists (i + j + 2 ^ pos). auto. }
  assert (Hnone : forall b, has_mass v pos b tol -> classical_scan v (2 ^ pos) tol its <> None).
  { intros b [k [Hk [Hbit Hm]]] Hn.
    destruct (proj2 (loop2_reaches v pos K b k Hsz) (conj Hk Hbit)) as [i [j [Hin Hkij]]].
    destruct (classical_scan_none v _ tol its Hn i j Hin) as [H0 H1].
    destruct b; simpl in Hkij.
    - apply H1. replace (i + j + 2 ^ pos) with k by lia. exact Hm.
    - apply H0. replace (i + j) with k by lia. exact Hm. }
  split; [| split].
  - intros Hno. rewrite Hrun.
    destruct (classical_scan v (2 ^ pos) tol its) as [b |] eqn:E; [| reflexivity].
    exfalso. apply (Hno b). apply Hsome. reflexivity.
  - intros b Hb. rewrite Hrun.
    destruct (classical_scan v (2 ^ pos) tol its) as [b' |] eqn:E.
    + exists b'. split; [reflexivity | apply Hsome; reflexivity].
    + exfalso. exact (Hnone b Hb eq_refl).
  - intros b Hb Hnb. rewrite Hrun.
    destruct (classical_scan v (2 ^ pos) tol its) as [b' |] eqn:E.
    + pose proof (Hsome b' eq_refl) as E'.
      destruct b, b'; try reflexivity; exfalso; exact (Hnb E').
    + exfalso. exact (Hnone b Hb eq_refl).
Qed.

Lemma s_two_mass_false : has_mass (vec_ s_two) 0 false default_tol_.
Proof.
  exists 0. split; [simpl; lia |]. split; [reflexivity |].
  unfold vat, cnorm, default_tol_; simpl. lra.
Qed.

Lemma s_two_no_mass_true : ~ has_mass (vec_ s_two) 0 true default_tol_.
Proof.
  intros [k [Hk [Hb Hm]]]. simpl in Hk.
  destruct k as [| [| [| [| k]]]]; try discriminate Hb; try lia;
    unfold vat, cnorm, default_tol_ in Hm; simpl in Hm; lra.
Qed.

Lemma is_classical_spec_witness :
  exists c, is_classical 0 default_tol_ s_two = Ret c s_two /\ c = true.
Proof.
  destruct (is_classical_spec s_two 0 0 2 default_tol_
              ltac:(vm_compute; reflexivity) ltac:(reflexivity)) as [c [H1 H2]].
  exists c. split; [exact H1 |].
  apply H2. left. split; [apply s_two_mass_false | apply s_two_no_mass_true].
Defined.

Lemma get_classical_value_spec_witness :
  get_classical_value 0 default_tol_ s_two = Ret false s_two.
Proof.
  destruct (get_classical_value_spec s_two 0 0 2 default_tol_
              ltac:(vm_compute; reflexivity) ltac:(reflexivity)) as [_ [_ H]].
  apply H; [apply s_two_mass_false | apply s_two_no_mass_true].
Defined.

(** ** A well-formed engine state *)

(** The vector has [2^N] amplitudes and the map sends [N] ids to distinct
    positions below [N]. *)
Definition map_wf (s : Simulator) : Prop :=
  length (vec_ s) = 2 ^ N_ s /\ size (map_ s) = N_ s /\
  (forall id p, map_ s !! id = Some p -> p < N_ s) /\
  (forall id1 id2 p, map_ s !! id1 = Some p -> map_ s !! id2 = Some p -> id1 = id2).

Lemma testbit_if_shiftl (b : bool) p n :
  N.testbit (N.shiftl (if b then 1 else 0) p) n = (b && N.eqb p n).
Proof. destruct b; [apply testbit_shiftl_1 | reflexivity]. Qed.

Lemma existsb_ext' {A} (f g : A -> bool) (l : list A) :
  (forall x, f x = g x) -> existsb f l = existsb g l.
Proof.
  intros H. induction l as [| x l IH]; simpl; [reflexivity |]. rewrite H, IH. reflexivity.
Qed.

Lemma amplitude_loop_bits (m : gmap nat nat) (bits : list bool) (ids : list nat) :
  (forall id, In id ids -> is_Some (m !! id)) ->
  forall i chk index,
  (forall n, N.testbit (fst (amplitude_loop m bits i ids chk index)) n =
     N.testbit chk n ||
     existsb (fun j => N.eqb (N.of_nat (default 0 (m !! nth j ids 0))) n) (seq 0 (length ids))) /\
  (forall n, N.testbit (snd (amplitude_loop m bits i ids chk index)) n =
     N.testbit index n ||
     existsb (fun j => nth (i + j) bits false && N.eqb (N.of_nat (default 0 (m !! nth j ids 0))) n)
       (seq 0 (length ids))).
Proof.
  induction ids as [| id ids IH]; intros Hm i chk index.
  - split; intros n; simpl; rewrite orb_false_r; reflexivity.
  - destruct (Hm id (or_introl eq_refl)) as [p Hp].
    cbn [amplitude_loop length]. rewrite Hp.
    destruct (IH (fun id' Hin => Hm id' (or_intror Hin)) (S i)
                (N.lor chk (N.shiftl 1 (N.of_nat p)))
                (N.lor index (N.shiftl (if nth i bits false then 1 else 0) (N.of_nat p))))
      as [H1 H2].
    split; intros n.
    + rewrite H1, N.lor_spec, testbit_shiftl_1.
      cbn [seq existsb]. rewrite <- seq_shift, existsb_map', <- orb_assoc.
      cbn [nth]. rewrite Hp. reflexivity.
    + rewrite H2, N.lor_spec, testbit_if_shiftl.
      cbn [seq existsb]. rewrite <- seq_shift, existsb_map', <- orb_assoc.
      cbn [nth]. rewrite Hp, Nat.add_0_r. do 2 f_equal.
      apply existsb_ext'. intros j. rewrite Nat.add_succ_r. reflexivity.
Qed.

(** Distinct mapped ids of a well-formed state, as many as qubits, occupy
    every position below [N] once. *)
Lemma perm_positions (s : Simulator) (ids : list nat) :
  map_wf s -> NoDup ids -> length ids = N_ s -> check_ids (map_ s) ids = true ->
  let pos := fun j => default 0 (map_ s !! nth j ids 0) in
  (forall j, j < length ids -> pos j < N_ s) /\
  (forall j1 j2, j1 < length ids -> j2 < length ids -> pos j1 = pos j2 -> j1 = j2) /\
  (forall n, n < N_ s -> exists j, j < length ids /\ pos j = n).
Proof.
  intros [Hlen [Hsize [Hlt Hinj]]] Hnd Hl Hc pos.
  pose proof (proj1 (check_ids_spec _ _) Hc) as Hm.
  assert (Hsome : forall j, j < length ids -> map_ s !! nth j ids 0 = Some (pos j)).
  { intros j Hj. destruct (Hm (nth j ids 0) (nth_In _ _ Hj)) as [p Hp].
    unfold pos. rewrite Hp. reflexivity. }
  assert (H1 : forall j, j < length ids -> pos j < N_ s)
    by (intros j Hj; apply (Hlt (nth j ids 0)); apply Hsome; exact Hj).
  assert (H2 : forall j1 j2, j1 < length ids -> j2 < length ids -> pos j1 = pos j2 -> j1 = j2).
  { intros j1 j2 Hj1 Hj2 Heq.
    assert (Hid : nth j1 ids 0 = nth j2 ids 0).
    { apply (Hinj _ _ (pos j1)); [apply Hsome; exact Hj1 | rewrite Heq; apply Hsome; exact Hj2]. }
    apply NoDup_ListNoDup in Hnd.
    exact (proj1 (List.NoDup_nth ids 0) Hnd j1 j2 Hj1 Hj2 Hid). }
  split; [exact H1 |]. split; [exact H2 |].
  set (ps := map pos (seq 0 (length ids))).
  assert (Hps : List.NoDup ps).
  { apply (proj2 (List.NoDup_nth ps 0)). intros a b Ha Hb Heq.
    unfold ps in Ha, Hb. rewrite length_map, length_seq in Ha, Hb.
    assert (E : forall a, a < length ids -> nth a ps 0 = pos a).
    { intros a' Ha'. unfold ps. rewrite (nth_indep _ 0 (pos 0)) by (rewrite length_map, length_seq; exact Ha').
      rewrite map_nth, seq_nth by exact Ha'. reflexivity. }
    rewrite !E in Heq by assumption.
    apply H2; assumption. }
  assert (Hincl : incl (seq 0 (N_ s)) ps).
  { apply (NoDup_length_incl Hps).
    - unfold ps. rewrite length_map, !length_seq. lia.
    - intros x Hx. unfold ps in Hx. apply in_map_iff in Hx as [j [<- Hj]].
      apply in_seq in Hj. apply in_seq. split; [lia |]. apply H1. lia. }
  intros n Hn. assert (Hin : In n ps) by (apply Hincl, in_seq; lia).
  unfold ps in Hin. apply in_map_iff in Hin as [j [Hj Hjin]]. apply in_seq in Hjin.
  exists j. split; [lia | exact Hj].
Qed.

Lemma nat_testbit_high x n k : x < 2 ^ n -> n <= k -> Nat.testbit x k = false.
Proof.
  intros Hx Hk. apply Nat.testbit_false.
  rewrite Nat.div_small; [reflexivity |].
  apply Nat.lt_le_trans with (2 ^ n); [exact Hx | apply Nat.pow_le_mono_r; lia].
Qed.

Lemma Nat2N_lt a b : a < b -> (N.of_nat a < N.of_nat b)%N.
Proof. lia. Qed.

Lemma N2Nat_lt (a b : N) : (a < b)%N -> N.to_nat a < N.to_nat b.
Proof. lia. Qed.

Lemma N_testbit_to_nat (x : N) p : Nat.testbit (N.to_nat x) p = N.testbit x (N.of_nat p).
Proof. rewrite <- N_testbit_of_nat, N2Nat.id. reflexivity. Qed.

(** ** Extra property: get_amplitude on a permutation of the qubits *)

(** X7.  In a well-formed state of fewer than 64 qubits, when [ids] lists
    every allocated id once, [get_amplitude bits ids] leaves the object as
    it was and returns [W[idx]] for the one index [idx < 2^N] whose bit
    [M[ids_j]] is [bits_j] for every [j]. *)
Theorem get_amplitude_permutation (s : Simulator) (bits : list bool) (ids : list nat) :
  map_wf s -> NoDup ids -> length ids = N_ s -> N_ s < 64 -> check_ids (map_ s) ids = true ->
  exists idx, get_amplitude bits ids s = Ret (vat (vec_ s) idx) s /\ idx < length (vec_ s) /\
    (forall j, j < length ids ->
       Nat.testbit idx (default 0 (map_ s !! nth j ids 0)) = nth j bits false) /\
    (forall k, k < length (vec_ s) ->
       (forall j, j < length ids ->
          Nat.testbit k (default 0 (map_ s !! nth j ids 0)) = nth j bits false) -> k = idx).
Proof.
  intros Hwf Hnd Hl H64 Hc.
  pose proof (perm_positions s ids Hwf Hnd Hl Hc) as HP. cbv zeta in HP.
  destruct HP as [Hlt [Hinj Hcov]].
  set (pos := fun j => default 0 (map_ s !! nth j ids 0)) in *.
  pose proof (proj1 (check_ids_spec _ _) Hc) as Hm.
  destruct Hwf as [Hlen _].
  destruct (amplitude_loop_bits (map_ s) bits ids Hm 0 0%N 0%N) as [Hchk Hidx].
  destruct (amplitude_loop (map_ s) bits 0 ids 0%N 0%N) as [chk index] eqn:Ea.
  cbn [fst snd] in Hchk, Hidx.
  set (nN := N.of_nat (N_ s)).
  assert (Hex : forall n, existsb (fun j => N.eqb (N.of_nat (pos j)) n) (seq 0 (length ids)) = true ->
                          (n < nN)%N).
  { intros n Hn. apply existsb_exists in Hn as [j [Hj He]]. apply in_seq in Hj.
    apply N.eqb_eq in He. subst n. unfold nN. apply Nat2N_lt. apply Hlt. lia. }
  assert (Hchk' : chk = N.ones nN).
  { apply N.bits_inj. intros n. rewrite Hchk. cbn [N.testbit orb].
    destruct (N.lt_ge_cases n nN) as [Hn | Hn].
    - rewrite N.ones_spec_low by exact Hn. apply existsb_exists.
      destruct (Hcov (N.to_nat n) ltac:(unfold nN in Hn; lia)) as [j [Hj Hpj]].
      exists j. split; [apply in_seq; lia |]. apply N.eqb_eq.
      transitivity (N.of_nat (N.to_nat n)); [f_equal; exact Hpj | lia].
    - rewrite N.ones_spec_high by exact Hn. apply not_true_iff_false. intros He.
      apply Hex in He. lia. }
  assert (Hhigh : forall n, (nN <= n)%N -> N.testbit index n = false).
  { intros n Hn. rewrite Hidx. cbn [N.testbit orb]. apply not_true_iff_false. intros He.
    apply existsb_exists in He as [j [Hj He]]. apply andb_prop in He as [_ He].
    assert (Hn' : (n < nN)%N).
    { apply Hex. apply existsb_exists. exists j. split; assumption. }
    lia. }
  assert (Hbit : forall j, j < length ids -> N.testbit index (N.of_nat (pos j)) = nth j bits false).
  { intros j Hj. rewrite Hidx. cbn [N.testbit orb]. destruct (nth j bits false) eqn:Eb.
    - apply existsb_exists. exists j. split; [apply in_seq; lia |].
      rewrite Nat.add_0_l, Eb, N.eqb_refl. reflexivity.
    - apply not_true_iff_false. intros He. apply existsb_exists in He as [j' [Hj' He]].
      apply in_seq in Hj'. apply andb_prop in He as [Hb He]. apply N.eqb_eq, Nat2N.inj in He.
      assert (j' = j) by (apply Hinj; [lia | lia | exact He]). subst j'.
      rewrite Nat.add_0_l in Hb. congruence. }
  assert (Hpow : (2 ^ nN < size_t_mod)%N).
  { unfold size_t_mod. apply N.pow_lt_mono_r; [lia | unfold nN; lia]. }
  assert (Hvlen : N.of_nat (length (vec_ s)) = (2 ^ nN)%N).
  { rewrite Hlen, Nat2N.inj_pow. reflexivity. }
  assert (Hsmall : (index < 2 ^ nN)%N).
  { assert (Hix : index = N.land index (N.ones nN)).
    { apply N.bits_inj. intros n. rewrite N.land_spec.
      destruct (N.lt_ge_cases n nN) as [Hn | Hn].
      - rewrite N.ones_spec_low by exact Hn. rewrite andb_true_r. reflexivity.
      - rewrite N.ones_spec_high, Hhigh by exact Hn. reflexivity. }
    rewrite Hix, N.land_ones. apply N.mod_lt. apply N.pow_nonzero. lia. }
  exists (N.to_nat index). split; [| split; [| split]].
  - unfold get_amplitude. rewrite sbind_sget. rewrite Ea.
    replace ((chk + 1) mod size_t_mod)%N with (N.of_nat (length (vec_ s))).
    + rewrite N.eqb_refl. reflexivity.
    + rewrite Hvlen, Hchk', N.ones_equiv.
      rewrite N.add_1_r, N.succ_pred by (apply N.pow_nonzero; lia).
      symmetry. apply N.mod_small. exact Hpow.
  - rewrite <- (Nat2N.id (length (vec_ s))). apply N2Nat_lt. rewrite Hvlen. exact Hsmall.
  - intros j Hj. rewrite N_testbit_to_nat. apply Hbit. exact Hj.
  - intros k Hk Hkb. apply Nat.bits_inj. intros n. rewrite N_testbit_to_nat.
    destruct (Nat.lt_ge_cases n (N_ s)) as [Hn | Hn].
    + destruct (Hcov n Hn) as [j [Hj Hpj]]. subst n.
      etransitivity; [apply Hkb; exact Hj |]. symmetry. apply Hbit. exact Hj.
    + rewrite Hhigh by (unfold nN; lia).
      apply (nat_testbit_high k (N_ s)); [rewrite <- Hlen; exact Hk | exact Hn].
Qed.

Lemma s_two_lookup id p : map_ s_two !! id = Some p -> id = p /\ p < 2.
Proof.
  intros H. cbn [map_ s_two] in H. rewrite lookup_insert in H. case_decide.
  - injection H as <-. lia.
  - rewrite lookup_singleton in H. case_decide; [injection H as <-; lia | discriminate].
Qed.

Lemma map_wf_s_two : map_wf s_two.
Proof.
  split; [reflexivity |]. split; [vm_compute; reflexivity |]. split.
  - intros id p H. apply s_two_lookup in H. simpl. lia.
  - intros id1 id2 p H1 H2. apply s_two_lookup in H1, H2. lia.
Qed.

Lemma get_amplitude_permutation_witness :
  exists idx, get_amplitude [true; false] [1; 0] s_two = Ret (vat (vec_ s_two) idx) s_two /\
    idx = 2.
Proof.
  destruct (get_amplitude_permutation s_two [true; false] [1; 0] map_wf_s_two
              ltac:(apply (bool_decide_unpack _); vm_compute; reflexivity)
              ltac:(reflexivity) ltac:(simpl; lia) ltac:(vm_compute; reflexivity))
    as [idx [H1 [_ [_ H4]]]].
  exists idx. split; [exact H1 |]. symmetry. apply H4; [simpl; lia |].
  intros j Hj. simpl in Hj. destruct j as [| [| j]]; [reflexivity | reflexivity | lia].
Defined.

(** ** Extra properties: the map invariant *)

(** X8.  [allocate_qubit] keeps the state well formed: after a successful
    call the vector has [2^N] amplitudes and the [N] mapped ids sit at
    distinct positions below [N]. *)
Theorem allocate_qubit_wf (s s' : Simulator) (id : nat) :
  map_wf s -> allocate_qubit id s = Ret tt s' -> map_wf s'.
Proof.
  intros [Hlen [Hsize [Hlt Hinj]]] H.
  unfold allocate_qubit in H. destruct (map_ s !! id) as [p |] eqn:Hid; [discriminate |].
  injection H as <-. split; [| split; [| split]]; cbn [N_ vec_ map_].
  - unfold grow. rewrite length_map, length_seq. reflexivity.
  - rewrite map_size_insert_None by exact Hid. rewrite <- Hsize. reflexivity.
  - intros id' p'. rewrite lookup_insert. case_decide.
    + intros [= <-]. lia.
    + intros Hp'. apply Hlt in Hp'. lia.
  - intros id1 id2 p'. rewrite !lookup_insert.
    case_decide as E1; case_decide as E2; try congruence.
    + intros [= <-] H2. apply Hlt in H2. lia.
    + intros H1 [= <-]. apply Hlt in H1. lia.
    + apply Hinj.
Qed.

Lemma allocate_qubit_wf_witness :
  exists s', allocate_qubit 3 s_two = Ret tt s' /\ map_wf s'.
Proof.
  eexists. split; [reflexivity |].
  apply (allocate_qubit_wf s_two _ 3 map_wf_s_two). reflexivity.
Defined.

Lemma is_classical_run (s : Simulator) (id pos : nat) (tol : R) :
  map_ s !! id = Some pos ->
  is_classical id tol s = Ret (xorb (fst (is_classical_loop (vec_ s) (2 ^ pos) tol))
                                    (snd (is_classical_loop (vec_ s) (2 ^ pos) tol))) s.
Proof.
  intros Hid. unfold is_classical, sbind, map_at. rewrite Hid. unfold sget.
  destruct (is_classical_loop (vec_ s) (2 ^ pos) tol). reflexivity.
Qed.

Lemma get_classical_value_run (s : Simulator) (id pos : nat) (tol : R) :
  map_ s !! id = Some pos ->
  get_classical_value id tol s =
  match classical_scan (vec_ s) (2 ^ pos) tol (loop2 (length (vec_ s)) (2 ^ pos)) with
  | Some b => Ret b s
  | None => Throw (runtime_error
      "Get classical value: internal error, should not have come here...")%string s
  end.
Proof.
  intros Hid. unfold get_classical_value, sbind, map_at. rewrite Hid. unfold sget.
  destruct (classical_scan _ _ _ _); reflexivity.
Qed.

(** A successful [deallocate_qubit] ends in [collapse_vector id value true]. *)
Lemma deallocate_qubit_ret (s s' : Simulator) (id : nat) :
  deallocate_qubit id s = Ret tt s' ->
  exists pos (value : bool), map_ s !! id = Some pos /\
    s' = mkSim (N_ s - 1)
           (fold_left (fun nv i => copy_n (vec_ s) (i + Nat.b2n value * 2 ^ pos) (2 ^ pos) (i / 2) nv)
              (outer_loop (length (vec_ s)) (2 ^ pos)) (repeat czero (2 ^ (N_ s - 1))))
           (delete id (shift_down pos (map_ s))).
Proof.
  intros H. unfold deallocate_qubit in H. rewrite sbind_sget in H.
  destruct (map_ s !! id) as [pos |] eqn:Hid; [| discriminate].
  unfold sbind at 1 in H. rewrite (is_classical_run s id pos default_tol_ Hid) in H.
  destruct (xorb _ _); cbn [negb] in H; [| discriminate].
  unfold sbind at 1 in H. rewrite (get_classical_value_run s id pos default_tol_ Hid) in H.
  destruct (classical_scan _ _ _ _) as [value |]; [| discriminate].
  unfold collapse_vector, sbind, map_at, sget, sput in H. rewrite Hid in H. cbn [negb] in H.
  injection H as <-. exists pos, value. split; reflexivity.
Qed.

(** X9.  [deallocate_qubit] keeps the state well formed: after a successful
    call the id is no longer mapped, [N] has gone down by one, the vector
    has [2^N] amplitudes and the [N] mapped ids sit at distinct positions
    below [N]. *)
Theorem deallocate_qubit_wf (s s' : Simulator) (id : nat) :
  map_wf s -> deallocate_qubit id s = Ret tt s' ->
  map_wf s' /\ map_ s' !! id = None /\ N_ s' = N_ s - 1.
Proof.
  intros [Hlen [Hsize [Hlt Hinj]]] H.
  destruct (deallocate_qubit_ret s s' id H) as [pos [value [Hid ->]]].
  pose proof (Hlt _ _ Hid) as HposN.
  pose proof (pow2_split pos (N_ s) HposN) as Hsz. rewrite <- Hlen in Hsz.
  assert (Hpred : length (repeat czero (2 ^ (N_ s - 1))) = 2 ^ pos * 2 ^ (N_ s - pos - 1))
    by (rewrite repeat_length; apply pow2_pred_split; exact HposN).
  destruct (shrink_content (vec_ s) pos _ value _ Hsz Hpred) as [Hnvlen _].
  set (f := fun p => if pos <? p then p - 1 else p).
  assert (Hsh : forall i, shift_down pos (map_ s) !! i = f <$> map_ s !! i)
    by (intros i; unfold shift_down; apply lookup_fmap).
  assert (Hne : forall i p, map_ s !! i = Some p -> i <> id -> p <> pos).
  { intros i p Hi Hne Hp. subst p. apply Hne. apply (Hinj _ _ pos Hi Hid). }
  unfold map_wf. cbn [N_ vec_ map_]. split; [split; [| split; [| split]] |].
  - rewrite Hnvlen, <- pow2_pred_split by exact HposN. reflexivity.
  - rewrite map_size_delete_Some.
    + unfold shift_down. rewrite map_size_fmap, Hsize. lia.
    + rewrite Hsh, Hid. eexists. reflexivity.
  - intros i p. rewrite lookup_delete. case_decide as E; [discriminate |].
    rewrite Hsh. destruct (map_ s !! i) as [q |] eqn:Hq; [| discriminate].
    cbn. intros [= <-]. pose proof (Hlt _ _ Hq). pose proof (Hne _ _ Hq (not_eq_sym E)).
    unfold f. destruct (Nat.ltb_spec pos q); lia.
  - intros i1 i2 p. rewrite !lookup_delete.
    case_decide as E1; [discriminate |]. case_decide as E2; [discriminate |].
    rewrite !Hsh.
    destruct (map_ s !! i1) as [q1 |] eqn:Hq1; [| discriminate].
    destruct (map_ s !! i2) as [q2 |] eqn:Hq2; [| discriminate].
    cbn. intros [= H1] [= H2].
    pose proof (Hne _ _ Hq1 (not_eq_sym E1)). pose proof (Hne _ _ Hq2 (not_eq_sym E2)).
    assert (q1 = q2).
    { unfold f in H1, H2. destruct (Nat.ltb_spec pos q1), (Nat.ltb_spec pos q2); lia. }
    subst q2. apply (Hinj _ _ q1 Hq1 Hq2).
  - split; [apply lookup_delete_eq | reflexivity].
Qed.

Lemma deallocate_s_two_runs : exists s', deallocate_qubit 0 s_two = Ret tt s'.
Proof.
  unfold deallocate_qubit. rewrite sbind_sget.
  replace (map_ s_two !! 0) with (Some 0) by reflexivity.
  unfold sbind at 1. rewrite (is_classical_run s_two 0 0 default_tol_ eq_refl).
  destruct (is_classical_loop_spec (vec_ s_two) 0 2 default_tol_ eq_refl)
    as [up [down [Hl [Hu Hd]]]].
  rewrite Hl. cbn [fst snd].
  assert (up = true) as -> by (apply Hu; apply s_two_mass_false).
  assert (down = false) as ->.
  { destruct down; [| reflexivity]. exfalso. apply s_two_no_mass_true. apply Hd. reflexivity. }
  cbn [xorb negb].
  unfold sbind at 1. rewrite (get_classical_value_run s_two 0 0 default_tol_ eq_refl).
  replace (classical_scan (vec_ s_two) (2 ^ 0) default_tol_
             (loop2 (length (vec_ s_two)) (2 ^ 0))) with (Some false).
  - unfold collapse_vector, sbind, map_at.
    replace (map_ s_two !! 0) with (Some 0) by reflexivity.
    eexists. reflexivity.
  - change (loop2 (length (vec_ s_two)) (2 ^ 0)) with [(0, 0); (2, 0)]. cbn [classical_scan].
    replace (gtb (cnorm (vat (vec_ s_two) (0 + 0))) default_tol_) with true; [reflexivity |].
    symmetry. apply gtb_true. unfold vat, cnorm, default_tol_. simpl. lra.
Qed.

Lemma deallocate_qubit_wf_witness :
  exists s', deallocate_qubit 0 s_two = Ret tt s' /\ map_wf s' /\ map_ s' !! 0 = None.
Proof.
  destruct deallocate_s_two_runs as [s' H]. exists s'. split; [exact H |].
  destruct (deallocate_qubit_wf s_two s' 0 map_wf_s_two H) as [H1 [H2 _]].
  split; assumption.
Defined.

(** ** Folds of map inserts *)

Section FoldMapInsert.
Context (key : nat -> nat).

Lemma fold_map_insert_notin (l : list nat) (m0 : gmap nat nat) k :
  (forall j, In j l -> key j <> k) ->
  fold_left (fun m i => <[key i := i]> m) l m0 !! k = m0 !! k.
Proof.
  revert m0. induction l as [| j l IH]; intros m0 H; simpl; [reflexivity |].
  rewrite IH by (intros j' Hj'; apply H; right; exact Hj').
  apply lookup_insert_ne. apply H. left. reflexivity.
Qed.

Lemma fold_map_insert_in (l : list nat) (m0 : gmap nat nat) i :
  In i l -> (forall j, In j l -> key j = key i -> j = i) ->
  fold_left (fun m i => <[key i := i]> m) l m0 !! key i = Some i.
Proof.
  revert m0. induction l as [| j l IH]; intros m0 Hi Hu; [destruct Hi |]. simpl.
  destruct (in_dec Nat.eq_dec i l) as [Hin | Hnin].
  - apply IH; [exact Hin |]. intros j' Hj'. apply Hu. right. exact Hj'.
  - destruct Hi as [<- | Hi]; [| contradiction].
    rewrite fold_map_insert_notin.
    + apply lookup_insert_eq.
    + intros j' Hj' Hk. apply Hnin. rewrite <- (Hu j' (or_intror Hj') Hk). exact Hj'.
Qed.

Lemma fold_map_insert_size (l : list nat) (m0 : gmap nat nat) :
  (forall j, In j l -> is_Some (m0 !! key j)) ->
  size (fold_left (fun m i => <[key i := i]> m) l m0) = size m0.
Proof.
  revert m0. induction l as [| j l IH]; intros m0 H; simpl; [reflexivity |].
  rewrite IH.
  - apply map_size_insert_Some. apply H. left. reflexivity.
  - intros j' Hj'. rewrite lookup_insert. case_decide; [eexists; reflexivity |].
    apply H. right. exact Hj'.
Qed.
End FoldMapInsert.

(** The ids of a map with as many entries as a list of distinct mapped ids
    are all in the list. *)
Lemma keys_in_list (m : gmap nat nat) (ord : list nat) :
  NoDup ord -> size m = length ord -> (forall id, In id ord -> is_Some (m !! id)) ->
  forall id, is_Some (m !! id) -> In id ord.
Proof.
  intros Hnd Hsz Hm id [p Hp].
  set (keys := map fst (map_to_list m)).
  assert (Hk : forall x, In x keys <-> is_Some (m !! x)).
  { intros x. unfold keys. rewrite in_map_iff. split.
    - intros [[x' q] [Hx Hin]]. cbn in Hx. subst x'.
      apply list_elem_of_In, elem_of_map_to_list in Hin. rewrite Hin. eexists. reflexivity.
    - intros [q Hq]. exists (x, q). split; [reflexivity |].
      apply list_elem_of_In, elem_of_map_to_list. exact Hq. }
  apply NoDup_ListNoDup in Hnd.
  apply (@NoDup_length_incl _ ord keys Hnd).
  - unfold keys. rewrite length_map, length_map_to_list. lia.
  - intros x Hx. apply Hk. apply Hm. exact Hx.
  - apply Hk. eexists. exact Hp.
Qed.

(** X10.  From a well-formed state, [set_wavefunction psi ordering] with an
    ordering that lists every allocated id once and a vector of
    [2^|ordering|] amplitudes succeeds, installs [psi] as the vector, maps
    [ordering_i] to position [i], maps no other id, keeps [N], and leaves a
    well-formed state. *)
Theorem set_wavefunction_permutation (s : Simulator) (psi : list complex_type) (ordering : list nat) :
  map_wf s -> NoDup ordering -> length ordering = N_ s -> check_ids (map_ s) ordering = true ->
  length psi = 2 ^ length ordering ->
  exists s', set_wavefunction psi ordering s = Ret tt s' /\
    vec_ s' = psi /\ N_ s' = N_ s /\
    (forall i, i < length ordering -> map_ s' !! nth i ordering 0 = Some i) /\
    (forall id, ~ In id ordering -> map_ s' !! id = None) /\
    map_wf s'.
Proof.
  intros Hwf Hnd Hl Hc Hpsi.
  destruct Hwf as [Hlen [Hsize [Hlt Hinj]]].
  pose proof (proj1 (check_ids_spec _ _) Hc) as Hm.
  pose proof (keys_in_list (map_ s) ordering Hnd ltac:(lia) Hm) as Hkeys.
  set (n := length ordering) in *.
  set (key := fun i => nth i ordering 0).
  set (m' := fold_left (fun m i => <[key i := i]> m) (seq 0 n) (map_ s)).
  set (v' := fold_left (fun v i => <[i := vat psi i]> v) (seq 0 (length psi)) (vec_ s)).
  assert (Hrun : set_wavefunction psi ordering s = Ret tt (mkSim (N_ s) v' m')).
  { unfold set_wavefunction. rewrite sbind_sget.
    replace (length psi =? 2 ^ length ordering) with true by (symmetry; apply Nat.eqb_eq; exact Hpsi).
    replace (map_size (map_ s) =? length ordering) with true
      by (symmetry; apply Nat.eqb_eq; change (size (map_ s) = n); lia).
    rewrite Hc. reflexivity. }
  assert (Hndl := Hnd). apply NoDup_ListNoDup in Hndl.
  assert (Hkey : forall j1 j2, j1 < n -> j2 < n -> key j1 = key j2 -> j1 = j2)
    by (intros j1 j2 H1 H2 Heq; exact (proj1 (List.NoDup_nth ordering 0) Hndl j1 j2 H1 H2 Heq)).
  assert (Hin : forall i, i < n -> m' !! nth i ordering 0 = Some i).
  { intros i Hi. apply (fold_map_insert_in key); [apply in_seq; lia |].
    intros j Hj Heq. apply in_seq in Hj. apply Hkey; [lia | exact Hi | exact Heq]. }
  assert (Hout : forall id, ~ In id ordering -> m' !! id = None).
  { intros id Hid. unfold m'. rewrite fold_map_insert_notin.
    - destruct (map_ s !! id) eqn:E; [| reflexivity].
      exfalso. apply Hid. apply Hkeys. rewrite E. eexists. reflexivity.
    - intros j Hj Heq. apply in_seq in Hj. apply Hid. rewrite <- Heq. apply nth_In. lia. }
  assert (Hv' : v' = psi).
  { apply list_eq. intros k.
    assert (Hh : forall (v : list complex_type) (i : nat),
               <[i := vat psi i]> v = <[(fun i : nat => i) i := vat psi i]> v)
      by reflexivity.
    destruct (Nat.lt_ge_cases k (length psi)) as [Hk | Hk].
    - rewrite (vat_lookup psi k Hk). unfold v'.
      apply (fold_insert_in _ (fun i => i) (vat psi) Hh).
      + rewrite Hlen, <- Hl. fold n. rewrite <- Hpsi. exact Hk.
      + intros x _ ->. reflexivity.
      + exists k. split; [apply in_seq; lia | reflexivity].
    - rewrite !lookup_ge_None_2; [reflexivity | exact Hk |].
      unfold v'. rewrite (fold_insert_length _ (fun i => i) (vat psi) Hh).
      rewrite Hlen, <- Hl. fold n. rewrite <- Hpsi. exact Hk. }
  exists (mkSim (N_ s) v' m'). split; [exact Hrun |].
  cbn [vec_ N_ map_]. split; [exact Hv' |]. split; [reflexivity |].
  split; [exact Hin |]. split; [exact Hout |].
  assert (Hchar : forall id p, m' !! id = Some p -> p < n /\ nth p ordering 0 = id).
  { intros id p Hp. destruct (in_dec Nat.eq_dec id ordering) as [Hid | Hid].
    - destruct (In_nth ordering id 0 Hid) as [i [Hi Hni]].
      rewrite <- Hni, Hin in Hp by exact Hi. injection Hp as <-. split; assumption.
    - rewrite Hout in Hp by exact Hid. discriminate. }
  unfold map_wf. cbn [vec_ N_ map_]. split; [| split; [| split]].
  - rewrite Hv', Hpsi, Hl. reflexivity.
  - unfold m'. rewrite (fold_map_insert_size key).
    + lia.
    + intros j Hj. apply in_seq in Hj. apply Hm. apply nth_In. lia.
  - intros id p Hp. apply Hchar in Hp. lia.
  - intros id1 id2 p H1 H2. apply Hchar in H1 as [_ <-]. apply Hchar in H2 as [_ <-]. reflexivity.
Qed.

Lemma set_wavefunction_permutation_witness :
  exists s', set_wavefunction wf_two [1; 0] s_two = Ret tt s' /\ vec_ s' = wf_two /\
    map_ s' !! 1 = Some 0 /\ map_ s' !! 0 = Some 1 /\ map_wf s'.
Proof.
  destruct (set_wavefunction_permutation s_two wf_two [1; 0] map_wf_s_two
              ltac:(apply (bool_decide_unpack _); vm_compute; reflexivity)
              ltac:(reflexivity) ltac:(vm_compute; reflexivity) ltac:(reflexivity))
    as [s' [H1 [H2 [_ [H4 [_ H6]]]]]].
  exists s'. split; [exact H1 |]. split; [exact H2 |].
  split; [apply (H4 0); simpl; lia |]. split; [apply (H4 1); simpl; lia | exact H6].
Defined.

(** ** get_expectation_value and apply_qubit_operator *)

Lemma vat_insert (v : list complex_type) j x i :
  vat (<[j := x]> v) i = if (i =? j) && (j <? length v) then x else vat v i.
Proof.
  unfold vat. rewrite !nth_lookup, list_lookup_insert.
  destruct (Nat.eqb_spec i j) as [-> | Hne], (Nat.ltb_spec j (length v)) as [Hj | Hj];
    cbn [andb].
  - rewrite decide_True by (split; [reflexivity | exact Hj]). reflexivity.
  - rewrite decide_False by lia. reflexivity.
  - rewrite decide_False by lia. reflexivity.
  - rewrite decide_False by lia. reflexivity.
Qed.

Lemma map_vat_seq (v : list complex_type) :
  map (fun i => vat v i) (seq 0 (length v)) = v.
Proof.
  apply nth_error_ext. intros i. rewrite nth_error_map.
  destruct (Nat.lt_ge_cases i (length v)) as [Hi | Hi].
  - rewrite nth_error_seq. replace (i <? length v) with true
      by (symmetry; apply Nat.ltb_lt; lia).
    cbn [option_map Nat.add]. rewrite vat_nth_error by exact Hi. reflexivity.
  - rewrite (proj2 (nth_error_None (seq 0 (length v)) i)) by (rewrite length_seq; exact Hi).
    rewrite (proj2 (nth_error_None v i)) by exact Hi. reflexivity.
Qed.

(** Writing back [current_state = vec_] into a state that kept [N_], [map_]
    and the length of [vec_] gives the state the term was applied to. *)
Lemma reset_vec_same (s s1 : Simulator) :
  N_ s1 = N_ s -> map_ s1 = map_ s -> length (vec_ s1) = length (vec_ s) ->
  reset_vec (vec_ s) s1 = s.
Proof.
  intros HN Hm Hl. unfold reset_vec, set_vec. rewrite HN, Hm, Hl, map_vat_seq.
  destruct s; reflexivity.
Qed.

Lemma expectation_loop_run {Term : Type} (apply_term : Term -> list nat -> Simulator -> Simulator)
    (td : list (Term * R)) ids s :
  (forall t c, In (t, c) td ->
     N_ (apply_term t ids s) = N_ s /\ map_ (apply_term t ids s) = map_ s /\
     length (vec_ (apply_term t ids s)) = length (vec_ s)) ->
  forall e, expectation_loop apply_term (vec_ s) td ids e s =
    Ret (fold_left (fun e tc => (e + snd tc * overlap_re (vec_ s) (vec_ (apply_term (fst tc) ids s)))%R)
           td e) s.
Proof.
  induction td as [| [t c] td IH]; intros Hpres e; [reflexivity |].
  cbn [expectation_loop fold_left fst snd].
  destruct (Hpres t c (or_introl eq_refl)) as [HN [Hm Hl]].
  rewrite (reset_vec_same s (apply_term t ids s) HN Hm Hl).
  apply IH. intros t' c' Hin. apply (Hpres t' c'). right. exact Hin.
Qed.

Lemma accumulate_loop (c : complex_type) (v ns : list complex_type) k :
  length ns = length v -> k <= length v ->
  length (fold_left (fun ns i => <[i := cadd (vat ns i) (cmul c (vat v i))]> ns) (seq 0 k) ns)
    = length ns /\
  forall i, vat (fold_left (fun ns i => <[i := cadd (vat ns i) (cmul c (vat v i))]> ns)
                   (seq 0 k) ns) i
            = if i <? k then cadd (vat ns i) (cmul c (vat v i)) else vat ns i.
Proof.
  intros Hl. induction k as [| k IH]; intros Hk.
  - split; [reflexivity |]. intros i. reflexivity.
  - destruct (IH ltac:(lia)) as [IHl IHv].
    rewrite seq_S, fold_left_app. cbn [fold_left Nat.add].
    split; [rewrite length_insert; exact IHl |].
    intros i. rewrite vat_insert, IHl.
    replace (k <? length ns) with true by (symmetry; apply Nat.ltb_lt; lia).
    rewrite andb_true_r, IHv, Nat.ltb_irrefl.
    destruct (Nat.eqb_spec i k) as [-> | Hne].
    + replace (k <? S k) with true by (symmetry; apply Nat.ltb_lt; lia). reflexivity.
    + rewrite IHv. destruct (Nat.ltb_spec i k), (Nat.ltb_spec i (S k)); try reflexivity; lia.
Qed.

Lemma accumulate_spec (c : complex_type) (v ns : list complex_type) :
  length ns = length v ->
  length (accumulate c v ns) = length ns /\
  forall i, i < length v -> vat (accumulate c v ns) i = cadd (vat ns i) (cmul c (vat v i)).
Proof.
  intros Hl. destruct (accumulate_loop c v ns (length v) Hl (le_n _)) as [H1 H2].
  split; [exact H1 |]. intros i Hi. unfold accumulate. rewrite H2.
  replace (i <? length v) with true by (symmetry; apply Nat.ltb_lt; exact Hi). reflexivity.
Qed.

Lemma operator_loop_run {Term : Type} (apply_term : Term -> list nat -> Simulator -> Simulator)
    (td : list (Term * complex_type)) ids s :
  (forall t c, In (t, c) td ->
     N_ (apply_term t ids s) = N_ s /\ map_ (apply_term t ids s) = map_ s /\
     length (vec_ (apply_term t ids s)) = length (vec_ s)) ->
  forall ns, operator_loop apply_term (vec_ s) td ids ns s =
    Ret (fold_left (fun ns tc => accumulate (snd tc) (vec_ (apply_term (fst tc) ids s)) ns) td ns) s.
Proof.
  induction td as [| [t c] td IH]; intros Hpres ns; [reflexivity |].
  cbn [operator_loop fold_left fst snd].
  destruct (Hpres t c (or_introl eq_refl)) as [HN [Hm Hl]].
  rewrite (reset_vec_same s (apply_term t ids s) HN Hm Hl).
  apply IH. intros t' c' Hin. apply (Hpres t' c'). right. exact Hin.
Qed.

Lemma operator_fold_entries {Term : Type} (apply_term : Term -> list nat -> Simulator -> Simulator)
    (td : list (Term * complex_type)) ids s :
  (forall t c, In (t, c) td -> length (vec_ (apply_term t ids s)) = length (vec_ s)) ->
  forall ns, length ns = length (vec_ s) ->
  let r := fold_left (fun ns tc => accumulate (snd tc) (vec_ (apply_term (fst tc) ids s)) ns) td ns in
  length r = length (vec_ s) /\
  forall i, i < length (vec_ s) ->
    vat r i = fold_left (fun acc tc => cadd acc (cmul (snd tc) (vat (vec_ (apply_term (fst tc) ids s)) i)))
                td (vat ns i).
Proof.
  induction td as [| [t c] td IH]; intros Hl ns Hns; cbn [fold_left fst snd].
  - split; [exact Hns | reflexivity].
  - assert (Ht : length (vec_ (apply_term t ids s)) = length (vec_ s))
      by exact (Hl t c (or_introl eq_refl)).
    destruct (accumulate_spec c (vec_ (apply_term t ids s)) ns ltac:(lia)) as [Ha1 Ha2].
    destruct (IH (fun t' c' Hin => Hl t' c' (or_intror Hin))
                 (accumulate c (vec_ (apply_term t ids s)) ns) ltac:(lia)) as [H1 H2].
    split; [exact H1 |]. intros i Hi. rewrite H2 by exact Hi.
    rewrite Ha2 by lia. reflexivity.
Qed.

(** X11.  When every term of the dictionary, applied to the state, keeps the
    qubit count, the map and the length of the vector,
    [get_expectation_value] leaves the state as it was and returns
    [sum_k c_k * Re <psi | T_k psi>], every term [T_k] being applied to the
    original vector [psi], not to the result of the previous term. *)
Theorem get_expectation_value_terms {Term : Type}
    (apply_term : Term -> list nat -> Simulator -> Simulator)
    (td : list (Term * R)) (ids : list nat) (s : Simulator) :
  (forall t c, In (t, c) td ->
     N_ (apply_term t ids s) = N_ s /\ map_ (apply_term t ids s) = map_ s /\
     length (vec_ (apply_term t ids s)) = length (vec_ s)) ->
  get_expectation_value apply_term td ids s =
    Ret (fold_left (fun e tc => (e + snd tc * overlap_re (vec_ s) (vec_ (apply_term (fst tc) ids s)))%R)
           td 0%R) s.
Proof.
  intros Hpres. unfold get_expectation_value. rewrite sbind_sget.
  apply expectation_loop_run. exact Hpres.
Qed.

(** X12.  Under the same condition on the terms, [apply_qubit_operator]
    keeps [N_] and [map_] and replaces the vector by one of the same length
    whose entry [i] is [sum_k c_k * (T_k psi)[i]], every term [T_k] being
    applied to the original vector [psi]. *)
Theorem apply_qubit_operator_terms {Term : Type}
    (apply_term : Term -> list nat -> Simulator -> Simulator)
    (td : list (Term * complex_type)) (ids : list nat) (s : Simulator) :
  (forall t c, In (t, c) td ->
     N_ (apply_term t ids s) = N_ s /\ map_ (apply_term t ids s) = map_ s /\
     length (vec_ (apply_term t ids s)) = length (vec_ s)) ->
  exists v', apply_qubit_operator apply_term td ids s = Ret tt (set_vec v' s) /\
    length v' = length (vec_ s) /\
    forall i, i < length (vec_ s) ->
      vat v' i = fold_left (fun acc tc => cadd acc (cmul (snd tc) (vat (vec_ (apply_term (fst tc) ids s)) i)))
                   td czero.
Proof.
  intros Hpres.
  set (v' := fold_left (fun ns tc => accumulate (snd tc) (vec_ (apply_term (fst tc) ids s)) ns)
               td (repeat czero (length (vec_ s)))).
  destruct (operator_fold_entries apply_term td ids s
              (fun t c Hin => proj2 (proj2 (Hpres t c Hin)))
              (repeat czero (length (vec_ s))) (repeat_length _ _)) as [H1 H2].
  exists v'. split; [| split; [exact H1 |]].
  - unfold apply_qubit_operator. rewrite sbind_sget. unfold sbind at 1.
    rewrite (operator_loop_run apply_term td ids s Hpres). reflexivity.
  - intros i Hi. etransitivity; [exact (H2 i Hi) |]. f_equal. unfold vat. apply nth_repeat.
Qed.

(** A term that reverses the vector, as a callback for the two loops. *)
Definition reverse_term (_ : bool) (_ : list nat) (s : Simulator) : Simulator :=
  set_vec (rev (vec_ s)) s.

Lemma reverse_term_keeps (t : bool) ids s :
  N_ (reverse_term t ids s) = N_ s /\ map_ (reverse_term t ids s) = map_ s /\
  length (vec_ (reverse_term t ids s)) = length (vec_ s).
Proof.
  split; [reflexivity | split; [reflexivity |]]. apply length_rev.
Qed.

Lemma get_expectation_value_terms_witness :
  get_expectation_value reverse_term [(true, 1%R); (false, 2%R)] [0] s_two =
    Ret (0 + 1 * overlap_re (vec_ s_two) (rev (vec_ s_two))
           + 2 * overlap_re (vec_ s_two) (rev (vec_ s_two)))%R s_two.
Proof.
  apply (get_expectation_value_terms reverse_term [(true, 1%R); (false, 2%R)] [0] s_two).
  intros t c _. apply reverse_term_keeps.
Defined.

Lemma apply_qubit_operator_terms_witness :
  exists v', apply_qubit_operator reverse_term [(true, mkC 1 0); (false, mkC 0 1)] [0] s_two
      = Ret tt (set_vec v' s_two) /\ length v' = 4.
Proof.
  destruct (apply_qubit_operator_terms reverse_term [(true, mkC 1 0); (false, mkC 0 1)] [0] s_two
              (fun t c _ => reverse_term_keeps t [0] s_two)) as [v' [H1 [H2 _]]].
  exists v'. split; [exact H1 |]. rewrite H2. reflexivity.
Defined.

(** ** emulate_math *)

(** Where [emulate_math] adds [vec_[i]]: [new_i] when the controls of [i]
    are set, [i] otherwise, with [res] as the loop computes it for [i]. *)
Definition emulate_target (f : list Z -> list Z) (quregs : list (list nat)) (ctrlmask : N)
    (i : nat) : nat :=
  if N.eqb (N.land ctrlmask (N.of_nat i)) ctrlmask then
    new_index i quregs (f (map (fun qr_i => reg_value i (nth qr_i quregs [])) (seq 0 (length quregs))))
  else i.

Lemma fold_insert_all {A : Type} (g : nat -> A) (res : list A) :
  fold_left (fun r k => <[k := g k]> r) (seq 0 (length res)) res = map g (seq 0 (length res)).
Proof.
  assert (Hinv : forall k, k <= length res ->
    length (fold_left (fun r k => <[k := g k]> r) (seq 0 k) res) = length res /\
    forall i, fold_left (fun r k => <[k := g k]> r) (seq 0 k) res !! i
              = if i <? k then Some (g i) else res !! i).
  { induction k as [| k IH]; intros Hk; [split; reflexivity |].
    destruct (IH ltac:(lia)) as [Hl Hi].
    rewrite seq_S, fold_left_app. cbn [fold_left Nat.add].
    split; [rewrite length_insert; exact Hl |].
    intros i. rewrite list_lookup_insert, Hl. case_decide as Hd.
    - destruct Hd as [-> _]. replace (i <? S i) with true by (symmetry; apply Nat.ltb_lt; lia).
      reflexivity.
    - rewrite Hi. destruct (Nat.ltb_spec i k), (Nat.ltb_spec i (S k)); try reflexivity; lia. }
  destruct (Hinv (length res) (le_n _)) as [Hl Hi].
  apply list_eq. intros i. rewrite Hi, list_lookup_fmap.
  destruct (Nat.ltb_spec i (length res)) as [H | H].
  - rewrite lookup_seq_lt by exact H. reflexivity.
  - rewrite lookup_seq_ge by exact H. apply lookup_ge_None_2. exact H.
Qed.

(** One iteration adds [vec_[i]] at the target of [i] and keeps [res] at
    the size of [quregs]. *)
Lemma emulate_step_target (f : list Z -> list Z) (quregs : list (list nat)) (ctrlmask : N)
    (v : list complex_type) (res : list Z) (nv : list complex_type) (i : nat) :
  (forall r, length (f r) = length r) -> length res = length quregs ->
  length (fst (emulate_step f quregs ctrlmask v (res, nv) i)) = length quregs /\
  snd (emulate_step f quregs ctrlmask v (res, nv) i) =
    <[emulate_target f quregs ctrlmask i :=
        cadd (vat nv (emulate_target f quregs ctrlmask i)) (vat v i)]> nv.
Proof.
  intros Hf Hres. unfold emulate_step, emulate_target.
  destruct (N.eqb (N.land ctrlmask (N.of_nat i)) ctrlmask); cbn [fst snd].
  - pose proof (fold_insert_all (fun qr_i => reg_value i (nth qr_i quregs [])) res) as HI.
    rewrite Hres in HI. rewrite HI.
    split; [rewrite Hf, length_map, length_seq; reflexivity | reflexivity].
  - split; [exact Hres | reflexivity].
Qed.

Lemma emulate_loop (f : list Z -> list Z) (quregs : list (list nat)) (ctrlmask : N)
    (v : list complex_type) (res0 : list Z) k :
  (forall r, length (f r) = length r) -> length res0 = length quregs -> k <= length v ->
  (forall i, i < k -> emulate_target f quregs ctrlmask i < length v) ->
  length (fst (fold_left (emulate_step f quregs ctrlmask v) (seq 0 k) (res0, repeat czero (length v))))
    = length quregs /\
  length (snd (fold_left (emulate_step f quregs ctrlmask v) (seq 0 k) (res0, repeat czero (length v))))
    = length v /\
  forall j, j < length v ->
    vat (snd (fold_left (emulate_step f quregs ctrlmask v) (seq 0 k) (res0, repeat czero (length v)))) j
    = fold_left (fun acc i => if emulate_target f quregs ctrlmask i =? j then cadd acc (vat v i) else acc)
        (seq 0 k) czero.
Proof.
  intros Hf Hres0. induction k as [| k IH]; intros Hk Htgt.
  - cbn [seq fold_left fst snd]. split; [exact Hres0 |]. split; [apply repeat_length |].
    intros j _. unfold vat. apply nth_repeat.
  - destruct (IH ltac:(lia) (fun i Hi => Htgt i ltac:(lia))) as [Hl1 [Hl2 Hv]].
    rewrite seq_S, !fold_left_app. cbn [fold_left Nat.add].
    destruct (fold_left (emulate_step f quregs ctrlmask v) (seq 0 k) (res0, repeat czero (length v)))
      as [res nv] eqn:E.
    cbn [fst snd] in Hl1, Hl2, Hv.
    destruct (emulate_step_target f quregs ctrlmask v res nv k Hf Hl1) as [Hs1 Hs2].
    split; [exact Hs1 |]. rewrite Hs2.
    pose proof (Htgt k (Nat.lt_succ_diag_r k)) as Ht.
    split; [rewrite length_insert; exact Hl2 |].
    intros j Hj. rewrite vat_insert, Hl2, fold_left_app. cbn [fold_left]. cbv beta.
    set (t := emulate_target f quregs ctrlmask k) in *.
    replace (t <? length v) with true by (symmetry; apply Nat.ltb_lt; exact Ht).
    rewrite andb_true_r.
    destruct (Nat.eqb_spec j t) as [-> | Hne].
    + rewrite Nat.eqb_refl, Hv by exact Ht. reflexivity.
    + replace (t =? j) with false by (symmetry; apply Nat.eqb_neq; intros E'; apply Hne; symmetry; exact E').
      apply Hv. exact Hj.
Qed.

Lemma positions_of_regs_known (quregs : list (list nat)) (s : Simulator) :
  Forall (fun qr => check_ids (map_ s) qr = true) quregs ->
  positions_of_regs quregs s = Ret (map (map (fun id => default 0 (map_ s !! id))) quregs) s.
Proof.
  induction quregs as [| qr quregs IH]; intros Hq; [reflexivity |].
  apply Forall_cons in Hq as [Hqr Hq].
  simpl. unfold sbind at 1. rewrite (positions_of_known qr s Hqr).
  unfold sbind. rewrite (IH Hq). reflexivity.
Qed.

Lemma emulate_math_run (f : list Z -> list Z) (quregs : list (list nat)) (ctrl : list nat)
    (s : Simulator) (ctrlmask : N) :
  (forall r, length (f r) = length r) ->
  get_control_mask ctrl s = Ret ctrlmask s ->
  Forall (fun qr => check_ids (map_ s) qr = true) quregs ->
  (forall i, i < length (vec_ s) ->
     emulate_target f (map (map (fun id => default 0 (map_ s !! id))) quregs) ctrlmask i
       < length (vec_ s)) ->
  exists v', emulate_math f quregs ctrl s = Ret tt (set_vec v' s) /\
    length v' = length (vec_ s) /\
    forall j, j < length (vec_ s) ->
      vat v' j =
        fold_left (fun acc i =>
            if emulate_target f (map (map (fun id => default 0 (map_ s !! id))) quregs) ctrlmask i =? j
            then cadd acc (vat (vec_ s) i) else acc)
          (seq 0 (length (vec_ s))) czero.
Proof.
  intros Hf Hc Hq Htgt.
  set (qr := map (map (fun id => default 0 (map_ s !! id))) quregs) in *.
  destruct (emulate_loop f qr ctrlmask (vec_ s) (repeat 0%Z (length qr)) (length (vec_ s)) Hf
              (repeat_length _ _) (le_n _) Htgt) as [_ [Hl Hv]].
  exists (snd (fold_left (emulate_step f qr ctrlmask (vec_ s)) (seq 0 (length (vec_ s)))
                 (repeat 0%Z (length qr), repeat czero (length (vec_ s))))).
  split; [| split; [exact Hl | exact Hv]].
  unfold emulate_math. unfold sbind at 1. rewrite Hc.
  unfold sbind at 1. rewrite (positions_of_regs_known quregs s Hq). fold qr.
  rewrite sbind_sget.
  destruct (fold_left (emulate_step f qr ctrlmask (vec_ s)) (seq 0 (length (vec_ s)))
              (repeat 0%Z (length qr), repeat czero (length (vec_ s)))).
  reflexivity.
Qed.

(** X13.  With a callback that keeps the number of registers, every control
    and register id allocated, and every target inside the vector,
    [emulate_math] keeps [N_] and [map_] and replaces the vector by one of
    the same length whose entry [j] is the sum, in the order of [i], of the
    amplitudes [vec_[i]] whose target is [j]: [new_i] (the index with the
    register bits rewritten by the callback) where the controls of [i] are
    set, [i] elsewhere. *)
Theorem emulate_math_scatter (f : list Z -> list Z) (quregs : list (list nat)) (ctrl : list nat)
    (s : Simulator) (ctrlmask : N) :
  (forall r, length (f r) = length r) ->
  get_control_mask ctrl s = Ret ctrlmask s ->
  Forall (fun qr => check_ids (map_ s) qr = true) quregs ->
  (forall i, i < length (vec_ s) ->
     emulate_target f (map (map (fun id => default 0 (map_ s !! id))) quregs) ctrlmask i
       < length (vec_ s)) ->
  exists v', emulate_math f quregs ctrl s = Ret tt (set_vec v' s) /\
    length v' = length (vec_ s) /\
    forall j, j < length (vec_ s) ->
      vat v' j =
        fold_left (fun acc i =>
            if emulate_target f (map (map (fun id => default 0 (map_ s !! id))) quregs) ctrlmask i =? j
            then cadd acc (vat (vec_ s) i) else acc)
          (seq 0 (length (vec_ s))) czero.
Proof.
  intros Hf Hc Hq Htgt. exact (emulate_math_run f quregs ctrl s ctrlmask Hf Hc Hq Htgt).
Qed.

Lemma emulate_math_scatter_witness :
  exists v', emulate_math (map (fun x => x + 1)%Z) [[0]] [] s_two = Ret tt (set_vec v' s_two) /\
    length v' = 4.
Proof.
  destruct (emulate_math_scatter (map (fun x => x + 1)%Z) [[0]] [] s_two 0%N
              (fun r => length_map _ r) eq_refl
              ltac:(constructor; [vm_compute; reflexivity | constructor])
              ltac:(intros i Hi; cbn in Hi;
                    do 4 (destruct i as [| i]; [vm_compute; lia |]); lia))
    as [v' [H1 [H2 _]]].
  exists v'. split; [exact H1 | exact H2].
Defined.

Lemma fold_fixed {A B : Type} (g : A -> B -> A) (l : list B) (x : A) :
  (forall y, In y l -> g x y = x) -> fold_left g l x = x.
Proof.
  induction l as [| y l IH]; intros H; [reflexivity |].
  simpl. rewrite (H y (or_introl eq_refl)). apply IH. intros z Hz. apply H. right. exact Hz.
Qed.

Lemma nth_map_seq {A : Type} (g : nat -> A) n k (d : A) :
  k < n -> nth k (map g (seq 0 n)) d = g k.
Proof.
  intros Hk. rewrite (nth_indep _ d (g 0)) by (rewrite length_map, length_seq; exact Hk).
  rewrite map_nth, seq_nth by exact Hk. reflexivity.
Qed.

Lemma testbit_shiftl_b2z (b : bool) (k p : nat) :
  Z.testbit (Z.shiftl (Z.b2z b) (Z.of_nat k)) (Z.of_nat p) = b && (k =? p).
Proof.
  destruct b; cbn [Z.b2z andb].
  - rewrite Z.shiftl_1_l, Z.pow2_bits_eqb by lia.
    destruct (Z.eqb_spec (Z.of_nat k) (Z.of_nat p)), (Nat.eqb_spec k p); congruence || lia.
  - rewrite Z.shiftl_0_l. apply Z.testbit_0_l.
Qed.

(** Bit [qb_i] of the value [emulate_math] gives a register is the bit of
    [i] at the register's [qb_i]-th position. *)
Lemma reg_value_testbit (i : nat) (qr : list nat) (qb : nat) :
  qb < length qr -> Z.testbit (reg_value i qr) (Z.of_nat qb) = Nat.testbit i (nth qb qr 0).
Proof.
  intros Hqb. unfold reg_value.
  assert (Hk : forall k, Z.testbit
      (fold_left (fun r qb_i => Z.lor r (Z.shiftl (Z.b2z (Nat.testbit i (nth qb_i qr 0))) (Z.of_nat qb_i)))
         (seq 0 k) 0%Z) (Z.of_nat qb) = (qb <? k) && Nat.testbit i (nth qb qr 0)).
  { induction k as [| k IH]; [apply Z.testbit_0_l |].
    rewrite seq_S, fold_left_app. cbn [fold_left Nat.add].
    rewrite Z.lor_spec, IH, testbit_shiftl_b2z.
    destruct (Nat.eqb_spec k qb) as [-> | Hne].
    - rewrite Nat.ltb_irrefl. replace (qb <? S qb) with true by (symmetry; apply Nat.ltb_lt; lia).
      rewrite andb_true_r. reflexivity.
    - rewrite andb_false_r, orb_false_r.
      destruct (Nat.ltb_spec qb k), (Nat.ltb_spec qb (S k)); try reflexivity; lia. }
  rewrite Hk. replace (qb <? length qr) with true by (symmetry; apply Nat.ltb_lt; exact Hqb).
  reflexivity.
Qed.

(** With the register values the loop computes from [i] itself, no bit is
    flipped: [new_i = i]. *)
Lemma new_index_unchanged (i : nat) (quregs : list (list nat)) :
  new_index i quregs (map (fun qr_i => reg_value i (nth qr_i quregs [])) (seq 0 (length quregs))) = i.
Proof.
  unfold new_index. apply fold_fixed. intros qr_i Hqr. apply in_seq in Hqr.
  cbv zeta. apply fold_fixed. intros qb Hqb. apply in_seq in Hqb.
  rewrite nth_map_seq by lia. rewrite reg_value_testbit by lia.
  rewrite Bool.eqb_reflx. reflexivity.
Qed.

(** [new_i] differs from [i] only at positions of the registers. *)
Lemma new_index_bits (i : nat) (quregs : list (list nat)) (res : list Z) (q : nat) :
  (forall qr, In qr quregs -> ~ In q qr) ->
  Nat.testbit (new_index i quregs res) q = Nat.testbit i q.
Proof.
  intros Hq. unfold new_index.
  assert (Hstep : forall (l : list nat) (qr : list nat) (x : nat), (forall qb, In qb l -> nth qb qr 0 <> q) ->
    forall g : nat -> nat -> bool,
    Nat.testbit (fold_left (fun new_i qb_i => if g new_i qb_i then Nat.lxor new_i (2 ^ nth qb_i qr 0) else new_i)
                   l x) q = Nat.testbit x q).
  { induction l as [| qb l IH]; intros qr x Hl g; [reflexivity |].
    cbn [fold_left]. rewrite IH by (intros qb' Hqb'; apply Hl; right; exact Hqb').
    destruct (g x qb); [| reflexivity].
    rewrite Nat.lxor_spec, Nat.pow2_bits_eqb.
    destruct (Nat.eqb_spec (nth qb qr 0) q) as [E | _]; [| apply xorb_false_r].
    exfalso. exact (Hl qb (or_introl eq_refl) E). }
  assert (Houter : forall (l : list nat) (x : nat), (forall qr_i, In qr_i l -> qr_i < length quregs) ->
    Nat.testbit (fold_left (fun new_i qr_i =>
        let qr := nth qr_i quregs [] in
        fold_left (fun new_i qb_i =>
            let q := nth qb_i qr 0 in
            if negb (Bool.eqb (Nat.testbit new_i q) (Z.testbit (nth qr_i res 0%Z) (Z.of_nat qb_i)))
            then Nat.lxor new_i (2 ^ q) else new_i)
          (seq 0 (length qr)) new_i) l x) q = Nat.testbit x q).
  { induction l as [| qr_i l IH]; intros x Hl; [reflexivity |].
    cbn [fold_left]. rewrite IH by (intros y Hy; apply Hl; right; exact Hy). cbv zeta.
    apply (Hstep (seq 0 (length (nth qr_i quregs []))) (nth qr_i quregs [])
             x ltac:(intros qb Hqb E; apply in_seq in Hqb;
                     apply (Hq (nth qr_i quregs [])); [apply nth_In, Hl; left; reflexivity |];
                     rewrite <- E; apply nth_In; lia)
             (fun new_i qb_i => negb (Bool.eqb (Nat.testbit new_i (nth qb_i (nth qr_i quregs []) 0))
                                  (Z.testbit (nth qr_i res 0%Z) (Z.of_nat qb_i))))). }
  apply Houter. intros qr_i H. apply in_seq in H. lia.
Qed.

Lemma lt_pow2_of_bits (x n : nat) :
  (forall q, n <= q -> Nat.testbit x q = false) -> x < 2 ^ n.
Proof.
  intros H. assert (E : x = x mod 2 ^ n).
  { apply Nat.bits_inj. intros q. destruct (Nat.lt_ge_cases q n) as [Hq | Hq].
    - rewrite Nat.mod_pow2_bits_low by exact Hq. reflexivity.
    - rewrite Nat.mod_pow2_bits_high by exact Hq. apply H. exact Hq. }
  rewrite E. apply Nat.mod_upper_bound. apply Nat.pow_nonzero. lia.
Qed.

Lemma control_mask_loop_known (ctrls : list nat) (cm : N) (s : Simulator) :
  check_ids (map_ s) ctrls = true -> exists cm', control_mask_loop ctrls cm s = Ret cm' s.
Proof.
  intros Hc. pose proof (proj1 (check_ids_spec _ _) Hc) as Hm. clear Hc.
  revert cm. induction ctrls as [| c ctrls IH]; intros cm; [exists cm; reflexivity |].
  simpl. unfold sbind at 1, map_at.
  destruct (Hm c (or_introl eq_refl)) as [p Hp]. rewrite Hp.
  apply IH. intros id Hin. apply Hm. right. exact Hin.
Qed.

Lemma fold_single_sum (t : nat -> nat) (v : list complex_type) (j k : nat) :
  (forall i, t i = i) ->
  fold_left (fun acc i => if t i =? j then cadd acc (vat v i) else acc) (seq 0 k) czero
  = if j <? k then cadd czero (vat v j) else czero.
Proof.
  intros Ht. induction k as [| k IH]; [reflexivity |].
  rewrite seq_S, fold_left_app, IH. cbn [fold_left Nat.add]. rewrite Ht.
  destruct (Nat.eqb_spec k j) as [-> | Hne].
  - rewrite Nat.ltb_irrefl. replace (j <? S j) with true by (symmetry; apply Nat.ltb_lt; lia).
    reflexivity.
  - destruct (Nat.ltb_spec j k), (Nat.ltb_spec j (S k)); try reflexivity; lia.
Qed.

Lemma list_eq_vat (a b : list complex_type) :
  length a = length b -> (forall j, j < length b -> vat a j = vat b j) -> a = b.
Proof.
  intros Hl H. apply list_eq. intros j.
  destruct (Nat.lt_ge_cases j (length b)) as [Hj | Hj].
  - rewrite !vat_lookup by lia. rewrite H by exact Hj. reflexivity.
  - rewrite !lookup_ge_None_2 by lia. reflexivity.
Qed.

(** X14.  On a well-formed state whose control and register ids are all
    allocated, every target [emulate_math] computes lies inside the vector,
    whatever the callback does to the register values (as long as it keeps
    their number): the range condition of X13 always holds there. *)
Theorem emulate_target_in_range (f : list Z -> list Z) (quregs : list (list nat)) (ctrlmask : N)
    (s : Simulator) (i : nat) :
  map_wf s ->
  Forall (fun qr => check_ids (map_ s) qr = true) quregs ->
  i < length (vec_ s) ->
  emulate_target f (map (map (fun id => default 0 (map_ s !! id))) quregs) ctrlmask i < length (vec_ s).
Proof.
  intros Hwf Hq Hi. destruct Hwf as [Hlen [_ [Hlt _]]]. rewrite Hlen in Hi |- *.
  unfold emulate_target.
  destruct (N.eqb (N.land ctrlmask (N.of_nat i)) ctrlmask); [| exact Hi].
  apply lt_pow2_of_bits. intros q Hq'.
  rewrite new_index_bits.
  - destruct (Nat.testbit i q) eqn:E; [| reflexivity].
    exfalso. assert (Hb : i < 2 ^ q) by (eapply Nat.lt_le_trans; [exact Hi | apply Nat.pow_le_mono_r; lia]).
    assert (Hf : Nat.testbit i q = false)
      by (apply Nat.testbit_false; rewrite Nat.div_small by exact Hb; reflexivity).
    congruence.
  - intros qr Hqr Hin. apply in_map_iff in Hqr as [ids [<- Hids]].
    apply in_map_iff in Hin as [id [Hid Hin]].
    rewrite List.Forall_forall in Hq. pose proof (proj1 (check_ids_spec _ _) (Hq ids Hids) id Hin) as [p Hp].
    rewrite Hp in Hid. cbn in Hid. subst p. specialize (Hlt id q Hp). lia.
Qed.

Lemma emulate_target_in_range_witness :
  emulate_target (map (fun x => x + 1)%Z)
    (map (map (fun id => default 0 (map_ s_two !! id))) [[0]; [1]]) 0%N 3 < length (vec_ s_two).
Proof.
  apply (emulate_target_in_range (map (fun x => x + 1)%Z) [[0]; [1]] 0%N s_two 3 map_wf_s_two).
  - constructor; [vm_compute; reflexivity | constructor; [vm_compute; reflexivity | constructor]].
  - vm_compute. lia.
Defined.

(** X15.  A callback that leaves every register value as it is makes
    [emulate_math] a no-op, when the control and register ids are all
    allocated: [new_i = i] for every [i], so every amplitude stays where it
    was. *)
Theorem emulate_math_identity (f : list Z -> list Z) (quregs : list (list nat)) (ctrl : list nat)
    (s : Simulator) :
  (forall r, f r = r) ->
  check_ids (map_ s) ctrl = true ->
  Forall (fun qr => check_ids (map_ s) qr = true) quregs ->
  emulate_math f quregs ctrl s = Ret tt s.
Proof.
  intros Hf Hc Hq.
  destruct (control_mask_loop_known ctrl 0%N s Hc) as [cm Hcm].
  set (qr := map (map (fun id => default 0 (map_ s !! id))) quregs).
  assert (Ht : forall i, emulate_target f qr cm i = i).
  { intros i. unfold emulate_target. rewrite Hf, new_index_unchanged.
    destruct (N.eqb (N.land cm (N.of_nat i)) cm); reflexivity. }
  destruct (emulate_math_run f quregs ctrl s cm (fun r => f_equal (@length Z) (Hf r)) Hcm Hq
              (fun i Hi => eq_ind_r (fun x => x < length (vec_ s)) Hi (Ht i)))
    as [v' [Hrun [Hl Hv]]].
  assert (Hv' : v' = vec_ s).
  { apply list_eq_vat; [exact Hl |]. intros j Hj. rewrite Hv by exact Hj.
    fold qr. rewrite (fold_single_sum (emulate_target f qr cm) (vec_ s) j _ Ht).
    replace (j <? length (vec_ s)) with true by (symmetry; apply Nat.ltb_lt; exact Hj).
    unfold cadd, czero. destruct (vat (vec_ s) j) as [a b]. cbn [re im]. f_equal; ring. }
  rewrite Hrun, Hv'. destruct s. reflexivity.
Qed.

Lemma emulate_math_identity_witness :
  emulate_math (fun r => r) [[0]; [1]] [1] s_two = Ret tt s_two.
Proof.
  apply (emulate_math_identity (fun r => r) [[0]; [1]] [1] s_two (fun r => eq_refl)).
  - vm_compute. reflexivity.
  - constructor; [vm_compute; reflexivity | constructor; [vm_compute; reflexivity | constructor]].
Defined.

(** ** emulate_time_evolution *)

Section TimeEvolutionProofs.
Context (apply_term : Term -> list nat -> Simulator -> Simulator) (ids : list nat).
(** [apply_term] applies gates: it keeps the qubit count, the map and the
    size of the vector. *)
Hypothesis apply_term_keeps : forall t s0,
  N_ (apply_term t ids s0) = N_ s0 /\ map_ (apply_term t ids s0) = map_ s0 /\
  length (vec_ (apply_term t ids s0)) = length (vec_ s0).

Lemma add_term_length (c : R) (v u : list complex_type) :
  length (add_term c v u) = length u.
Proof.
  unfold add_term. generalize u. induction (seq 0 (length v)) as [| j l IH]; intros u0;
    [reflexivity |].
  cbn [fold_left]. rewrite IH. apply length_insert.
Qed.

Lemma terms_loop_run (td : TermsDict) (u : list complex_type) (s : Simulator) :
  exists u', terms_loop apply_term td ids (vec_ s) u s = (u', s) /\ length u' = length u.
Proof.
  revert u. induction td as [| [t c] td IH]; intros u; [exists u; split; reflexivity |].
  cbn [terms_loop].
  destruct (apply_term_keeps t s) as [HN [Hm Hl]].
  rewrite (reset_vec_same s (apply_term t ids s) HN Hm Hl).
  destruct (IH (add_term c (vec_ (apply_term t ids s)) u)) as [u' [E Hu']].
  exists u'. split; [exact E |]. rewrite Hu'. apply add_term_length.
Qed.

Lemma scale_fold (coeff : complex_type) (ctrlmask : N) (l : list nat)
    (u v o : list complex_type) (nrm : R) u' v' o' nrm' :
  fold_left (fun acc j =>
      let '(u, v, o, nrm_change) := acc in
      let u' := <[j := cmul (vat u j) coeff]> u in
      let v' := <[j := vat u' j]> v in
      if N.eqb (N.land (N.of_nat j) ctrlmask) ctrlmask then
        (u', v', <[j := cadd (vat o j) (vat u' j)]> o, (nrm_change + cnorm (vat u' j))%R)
      else (u', v', o, nrm_change)) l (u, v, o, nrm) = (u', v', o', nrm') ->
  length v' = length v /\
  forall j, N.eqb (N.land (N.of_nat j) ctrlmask) ctrlmask = false -> vat o' j = vat o j.
Proof.
  revert u v o nrm. induction l as [| j0 l IH]; intros u v o nrm E.
  - injection E as <- <- <- <-. split; [reflexivity | intros; reflexivity].
  - cbn [fold_left] in E.
    destruct (N.eqb (N.land (N.of_nat j0) ctrlmask) ctrlmask) eqn:Ej0;
      apply IH in E as [Hl Ho]; rewrite length_insert in Hl;
      (split; [exact Hl |]); intros j Hj; rewrite Ho by exact Hj; [| reflexivity].
    rewrite vat_insert. destruct (Nat.eqb_spec j j0) as [-> | _]; [congruence | reflexivity].
Qed.

Lemma correct_fold (correction : complex_type) (ctrlmask : N) (l : list nat)
    (o v o' v' : list complex_type) :
  fold_left (fun acc j =>
      let '(o, v) := acc in
      let o' := if N.eqb (N.land (N.of_nat j) ctrlmask) ctrlmask
                then <[j := cmul (vat o j) correction]> o else o in
      (o', <[j := vat o' j]> v)) l (o, v) = (o', v') ->
  length v' = length v /\
  forall j, N.eqb (N.land (N.of_nat j) ctrlmask) ctrlmask = false -> j < length v ->
    vat o' j = vat o j /\ vat v' j = if existsb (Nat.eqb j) l then vat o j else vat v j.
Proof.
  revert o v. induction l as [| j0 l IH]; intros o v E.
  - injection E as <- <-. split; [reflexivity | intros; split; reflexivity].
  - cbn [fold_left] in E. apply IH in E as [Hl Hj].
    rewrite length_insert in Hl. split; [exact Hl |].
    intros j Hc Hjl.
    assert (Ho1 : vat (if N.eqb (N.land (N.of_nat j0) ctrlmask) ctrlmask
                       then <[j0 := cmul (vat o j0) correction]> o else o) j = vat o j).
    { destruct (N.eqb (N.land (N.of_nat j0) ctrlmask) ctrlmask) eqn:Ej0; [| reflexivity].
      rewrite vat_insert. destruct (Nat.eqb_spec j j0) as [-> | _]; [congruence | reflexivity]. }
    destruct (Hj j Hc ltac:(rewrite length_insert; exact Hjl)) as [H1 H2].
    split; [rewrite H1; exact Ho1 |]. rewrite H2. cbn [existsb].
    destruct (existsb (Nat.eqb j) l); [rewrite orb_true_r; exact Ho1 |].
    rewrite orb_false_r, vat_insert.
    destruct (Nat.eqb_spec j j0) as [-> | _]; cbn [andb].
    + replace (j0 <? length v) with true by (symmetry; apply Nat.ltb_lt; exact Hjl).
      exact Ho1.
    + reflexivity.
Qed.

Lemma taylor_loop_keeps (fuel : nat) (td : TermsDict) (time : R) (steps : nat) (ctrlmask : N)
    (k : nat) (nrm : R) (o : list complex_type) (s : Simulator) o' s' :
  taylor_loop apply_term fuel td ids time steps ctrlmask k nrm o s = Some (o', s') ->
  N_ s' = N_ s /\ map_ s' = map_ s /\ length (vec_ s') = length (vec_ s) /\
  forall j, N.eqb (N.land (N.of_nat j) ctrlmask) ctrlmask = false -> vat o' j = vat o j.
Proof.
  revert k nrm o s. induction fuel as [| fuel IH]; intros k nrm o s E;
    cbn [taylor_loop] in E; destruct (gtb nrm default_tol_).
  - discriminate E.
  - injection E as <- <-. repeat split; reflexivity.
  - destruct (terms_loop_run td (repeat czero (length (vec_ s))) s) as [u [Et _]].
    rewrite Et in E.
    destruct (scale_loop _ ctrlmask u (vec_ s) o) as [[[u2 v2] o2] nrm2] eqn:Es.
    unfold scale_loop in Es. apply scale_fold in Es as [Hl Ho].
    apply IH in E as [HN [Hm [Hl' Ho']]]. cbn [N_ map_ vec_ set_vec] in HN, Hm, Hl'.
    split; [exact HN |]. split; [exact Hm |]. split; [lia |].
    intros j Hj. rewrite Ho', Ho by exact Hj. reflexivity.
  - injection E as <- <-. repeat split; reflexivity.
Qed.

Lemma fold_left_inv {A B : Type} (P : A -> Prop) (g : A -> B -> A) (l : list B) (a : A) :
  P a -> (forall a x, P a -> P (g a x)) -> P (fold_left g l a).
Proof.
  revert a. induction l as [| x l IH]; intros a Ha Hg; [exact Ha |].
  cbn [fold_left]. apply IH; [apply Hg; exact Ha | exact Hg].
Qed.

Lemma existsb_seq (j n : nat) : j < n -> existsb (Nat.eqb j) (seq 0 n) = true.
Proof.
  intros Hj. apply existsb_exists. exists j. split; [apply in_seq; lia | apply Nat.eqb_refl].
Qed.

Lemma evolution_loop_keeps (fuel : nat) (td : TermsDict) (time : R) (steps : nat) (ctrlmask : N)
    (correction : complex_type) (w : nat -> complex_type) (n : nat) (iterations : nat) :
  forall (o : list complex_type) (s : Simulator) o' s',
  evolution_loop apply_term fuel td ids time steps ctrlmask correction iterations o s = Some (o', s') ->
  length (vec_ s) = n ->
  (forall j, N.eqb (N.land (N.of_nat j) ctrlmask) ctrlmask = false -> j < n ->
     vat o j = w j /\ vat (vec_ s) j = w j) ->
  N_ s' = N_ s /\ map_ s' = map_ s /\ length (vec_ s') = n /\
  forall j, N.eqb (N.land (N.of_nat j) ctrlmask) ctrlmask = false -> j < n -> vat (vec_ s') j = w j.
Proof.
  induction iterations as [| it IH]; intros o s o' s' E Hn Hw; cbn [evolution_loop] in E.
  - injection E as <- <-. split; [reflexivity |]. split; [reflexivity |].
    split; [exact Hn |]. intros j Hj Hjn. apply (Hw j Hj Hjn).
  - destruct (taylor_loop apply_term fuel td ids time steps ctrlmask 0 1 o s) as [[o1 s1] |] eqn:Et;
      [| discriminate E].
    apply taylor_loop_keeps in Et as [HN [Hm [Hl Ho]]].
    destruct (correct_loop correction ctrlmask o1 (vec_ s1)) as [o2 v2] eqn:Ec.
    unfold correct_loop in Ec. apply correct_fold in Ec as [Hl2 Hc].
    apply IH in E as [HN' [Hm' [Hl' Hv']]].
    + cbn [N_ map_ set_vec] in HN', Hm'. split; [congruence |]. split; [congruence |].
      split; [exact Hl' | exact Hv'].
    + cbn [vec_ set_vec]. lia.
    + intros j Hj Hjn. cbn [vec_ set_vec].
      destruct (Hc j Hj ltac:(lia)) as [H1 H2].
      rewrite existsb_seq in H2 by lia.
      rewrite H1, H2, Ho by exact Hj. split; apply (Hw j Hj Hjn).
Qed.

(** A Taylor loop over no terms adds nothing: it stops after one round. *)
Lemma taylor_loop_no_terms (fuel : nat) (time : R) (steps : nat) (ctrlmask : N)
    (o : list complex_type) (s : Simulator) :
  exists r, taylor_loop apply_term (S fuel) [] ids time steps ctrlmask 0 1 o s = Some r.
Proof.
  cbn [taylor_loop terms_loop].
  replace (gtb 1 default_tol_) with true by (symmetry; apply gtb_true; unfold default_tol_; lra).
  destruct (scale_loop _ ctrlmask (repeat czero (length (vec_ s))) (vec_ s) o)
    as [[[u2 v2] o2] nrm2] eqn:Es.
  assert (Hz : nrm2 = 0%R).
  { unfold scale_loop in Es.
    set (P := fun acc : list complex_type * list complex_type * list complex_type * R =>
           let '(u, _, _, nrm) := acc in
           (forall j, re (vat u j) = 0%R /\ im (vat u j) = 0%R) /\ nrm = 0%R).
    match type of Es with
    | fold_left ?g ?l ?a = _ => pose proof (fold_left_inv P g l a) as HI
    end.
    rewrite Es in HI. apply HI.
    - split; [| reflexivity]. intros j. unfold vat. rewrite nth_repeat. split; reflexivity.
    - intros [[[u v] o0] nrm] x [Hu Hn].
      assert (Hu' : forall c j, re (vat (<[x := cmul (vat u x) c]> u) j) = 0%R /\
                                im (vat (<[x := cmul (vat u x) c]> u) j) = 0%R).
      { intros c j. rewrite vat_insert. destruct ((j =? x) && (x <? length u)); [| apply Hu].
        destruct (Hu x) as [Hr Hi]. unfold cmul. cbn [re im]. rewrite Hr, Hi. split; ring. }
      cbv beta iota zeta. destruct (N.eqb (N.land (N.of_nat x) ctrlmask) ctrlmask).
      + split; [apply Hu' |]. unfold cnorm.
        match goal with
        | |- context [vat (<[x := cmul (vat u x) ?c]> u) x] => destruct (Hu' c x) as [Hr Hi]
        end.
        rewrite Hr, Hi, Hn. ring.
      + split; [apply Hu' | exact Hn]. }
  rewrite Hz, sqrt_0. destruct fuel; cbn [taylor_loop];
    (replace (gtb 0 default_tol_) with false by (symmetry; apply gtb_false; unfold default_tol_; lra));
    eexists; reflexivity.
Qed.

End TimeEvolutionProofs.

Lemma evolution_loop_no_terms (apply_term : Term -> list nat -> Simulator -> Simulator)
    (ids : list nat) (fuel : nat) (time : R) (steps : nat) (ctrlmask : N)
    (correction : complex_type) (iterations : nat) :
  forall o s, exists r,
    evolution_loop apply_term (S fuel) [] ids time steps ctrlmask correction iterations o s = Some r.
Proof.
  induction iterations as [| it IH]; intros o s; [eexists; reflexivity |].
  cbn [evolution_loop].
  destruct (taylor_loop_no_terms apply_term ids fuel time steps ctrlmask o s) as [[o1 s1] E].
  rewrite E. destruct (correct_loop correction ctrlmask o1 (vec_ s1)) as [o2 v2]. apply IH.
Qed.

(** X16.  When [apply_term] keeps the qubit count, the map and the size of
    the vector, and the control ids are allocated, a run of
    [emulate_time_evolution] that finishes keeps [N_], [map_] and the size
    of the vector, and leaves every amplitude whose index does not have all
    control bits set exactly as it was. *)
Theorem emulate_time_evolution_uncontrolled
    (apply_term : Term -> list nat -> Simulator -> Simulator) (fuel : nat) (tdict : TermsDict)
    (time : R) (ids ctrl : list nat) (s : Simulator) (ctrlmask : N) (s' : Simulator) :
  (forall t s0, N_ (apply_term t ids s0) = N_ s0 /\ map_ (apply_term t ids s0) = map_ s0 /\
     length (vec_ (apply_term t ids s0)) = length (vec_ s0)) ->
  get_control_mask ctrl s = Ret ctrlmask s ->
  emulate_time_evolution apply_term fuel tdict time ids ctrl s = Some (Ret tt s') ->
  N_ s' = N_ s /\ map_ s' = map_ s /\ length (vec_ s') = length (vec_ s) /\
  forall j, j < length (vec_ s) -> N.land (N.of_nat j) ctrlmask <> ctrlmask ->
    vat (vec_ s') j = vat (vec_ s) j.
Proof.
  intros HA Hc H. unfold emulate_time_evolution in H.
  destruct (split_tdict tdict) as [[tr op_nrm] td]. rewrite Hc in H.
  match type of H with
  | match ?e with _ => _ end = _ => destruct e as [[o' s2] |] eqn:E
  end; [| discriminate H].
  injection H as <-.
  destruct (evolution_loop_keeps apply_term ids HA fuel td time _ ctrlmask _ (vat (vec_ s))
              (length (vec_ s)) _ (vec_ s) s o' s2 E eq_refl
              ltac:(intros j _ _; split; reflexivity)) as [HN [Hm [Hl Hv]]].
  split; [exact HN |]. split; [exact Hm |]. split; [exact Hl |].
  intros j Hj Hne. apply Hv; [apply N.eqb_neq; exact Hne | exact Hj].
Qed.

Lemma emulate_time_evolution_uncontrolled_witness :
  exists s', emulate_time_evolution (fun _ _ s => set_vec (rev (vec_ s)) s) 1 [([], 1%R)] 1%R
               [0] [1] s_two = Some (Ret tt s') /\
    vat (vec_ s') 0 = vat (vec_ s_two) 0.
Proof.
  assert (Hc : get_control_mask [1] s_two = Ret 2%N s_two) by (vm_compute; reflexivity).
  assert (HA : forall (t : Term) s0,
            N_ ((fun _ _ s => set_vec (rev (vec_ s)) s) t [0] s0) = N_ s0 /\
            map_ ((fun _ _ s => set_vec (rev (vec_ s)) s) t [0] s0) = map_ s0 /\
            length (vec_ ((fun _ _ s => set_vec (rev (vec_ s)) s) t [0] s0)) = length (vec_ s0))
    by (intros t s0; split; [reflexivity | split; [reflexivity | apply length_rev]]).
  assert (Hrun : exists s', emulate_time_evolution (fun _ _ s => set_vec (rev (vec_ s)) s) 1
                   [([], 1%R)] 1%R [0] [1] s_two = Some (Ret tt s')).
  { unfold emulate_time_evolution. cbn [split_tdict fold_left fst snd]. rewrite Hc.
    match goal with
    | |- context [evolution_loop ?a ?f ?td ?ids ?t ?st ?cm ?co ?it ?o ?s0] =>
        destruct (evolution_loop_no_terms a ids 0 t st cm co it o s0) as [r E];
        destruct (evolution_loop a f td ids t st cm co it o s0) as [[o' s2] |] eqn:E2
    end.
    - exists s2. reflexivity.
    - discriminate (eq_trans (eq_sym E) E2). }
  destruct Hrun as [s' Hrun]. exists s'. split; [exact Hrun |].
  destruct (emulate_time_evolution_uncontrolled (fun _ _ s => set_vec (rev (vec_ s)) s) 1
              [([], 1%R)] 1%R [0] [1] s_two 2%N s' HA Hc Hrun) as [_ [_ [_ Hv]]].
  apply Hv; [vm_compute; lia | vm_compute; discriminate].
Defined.
